(** * ATM locator bot: matching and ranking engine

    A shallow embedding of the name-matching and proximity-ranking code of
    the bot, in its two variants:

    - [src/bot.js]: geodesic short-list of 10, routing refinement of the
      short-list, best 5 (module [Bot]);
    - [src/unnamed/part_000]: hand-written similarity score with explicit
      threshold, routing over the whole catalog with a limit argument
      (module [Part000]).

    [normalizeText], [extractNameAfterDash] and [calculateDistance] are
    textually the same in both variants and are embedded once.

    Modelling conventions.

    - Strings are lists of 8-bit code units ([list ascii]): the Latin-1
      range of the UTF-16 strings of the source.  [toLowerCase], the
      whitespace class and the case-insensitive regular expressions are
      written out for that range.
    - Numbers.  The code that computes with numbers is embedded twice.
      Over the rationals ([Q], modules [Bot] and [Part000]) every finite
      double is a rational and the four operations are exact: rounding,
      NaN and the infinities are outside that embedding, which carries
      the properties that do not depend on them (edit distance and the
      algebra of the scores, which entries are returned, the message
      flow).  Over binary64 (module [Binary64], on the primitive floats
      of Rocq) arithmetic, comparisons, NaN and the infinities are those
      of the program, and the body of the routing response is an
      arbitrary JSON value; that embedding carries the properties that
      depend on them (the 0.3 threshold, sortedness, what happens to a
      response).
    - [Array.prototype.sort] with a comparator is the stable sort the
      language standard prescribes.  Over the rationals the comparators of
      this program are consistent and the sort is an insertion sort.  In
      [Binary64] the sort belongs to the engine ([Binary64.Engine]): it
      permutes the array, and where the comparator is consistent it is
      the stable sort; with a NaN the order is the engine's own.
    - The functions of [Math] that the great-circle distance calls are
      a parameter ([MathLib], [Binary64.Engine]); every theorem holds for
      all of them.
    - An [async] function is a computation that awaits the answer of
      the routing service ([Async]); the service itself is a function
      from requests to outcomes, and theorems quantify over it.
    - [console.log] calls are omitted; where an argument of one can throw
      ([toFixed] on a value that is not a number), [Binary64] has the
      exception. *)

From Stdlib Require Import Ascii String.
From Stdlib Require Import List Bool Arith ZArith QArith Lia Lqa.
From Stdlib Require Import Permutation Sorted.
From Stdlib Require Floats Uint63.
Import ListNotations.

Set Implicit Arguments.

(** ** Strings *)

Definition jsstring := list ascii.

Definition str (s : string) : jsstring := list_ascii_of_string s.

Definition code (c : ascii) : N := N_of_ascii c.

(** [String.prototype.toLowerCase] on one Latin-1 code unit: A-Z and the
    accented capitals U+00C0..U+00DE (the multiplication sign U+00D7
    excepted) move down by 32. *)
Definition toLowerCase_char (c : ascii) : ascii :=
  let n := code c in
  if ((65 <=? n) && (n <=? 90) || (192 <=? n) && (n <=? 222) && negb (n =? 215))%N
  then ascii_of_N (n + 32)
  else c.

Definition toLowerCase (s : jsstring) : jsstring := map toLowerCase_char s.

(** A pattern letter under the [i] flag matches both of its cases. *)
Definition ieq (p c : ascii) : bool := Ascii.eqb (toLowerCase_char c) p.

(** The class [\s] (also the set [trim] strips), within Latin-1:
    TAB, LF, VT, FF, CR, SPACE, NBSP. *)
Definition isWhiteSpace (c : ascii) : bool :=
  let n := code c in
  ((9 <=? n) && (n <=? 13) || (n =? 32) || (n =? 160))%N.

Definition isVowel (c : ascii) : bool :=
  ieq "a" c || ieq "e" c || ieq "i" c || ieq "o" c || ieq "u" c.

(** [.replace(/iya/gi, 'ia')]: leftmost, non-overlapping matches. *)
Fixpoint replace_iya (s : jsstring) : jsstring :=
  match s with
  | [] => []
  | c1 :: tl =>
      match tl with
      | c2 :: c3 :: rest =>
          if ieq "i" c1 && ieq "y" c2 && ieq "a" c3
          then "i"%char :: "a"%char :: replace_iya rest
          else c1 :: replace_iya tl
      | _ => c1 :: replace_iya tl
      end
  end.

(** [.replace(/[aeiou]/gi, '')] *)
Definition remove_vowels (s : jsstring) : jsstring :=
  filter (fun c => negb (isVowel c)) s.

(** [.replace(/t/gi, 'x')] and [.replace(/k/gi, 'q')] *)
Definition replace_char (p r : ascii) (s : jsstring) : jsstring :=
  map (fun c => if ieq p c then r else c) s.

(** [.replace(/\s+/g, '')] *)
Definition remove_spaces (s : jsstring) : jsstring :=
  filter (fun c => negb (isWhiteSpace c)) s.

Definition normalizeText (text : jsstring) : jsstring :=
  remove_spaces
    (replace_char "k" "q"
       (replace_char "t" "x"
          (remove_vowels
             (replace_iya
                (toLowerCase text))))).

(** [String.prototype.split] with a one-character separator: never
    empty, one more part than there are separators. *)
Fixpoint split (sep : ascii) (s : jsstring) : list jsstring :=
  match s with
  | [] => [[]]
  | c :: rest =>
      if Ascii.eqb c sep then [] :: split sep rest
      else match split sep rest with
           | p :: ps => (c :: p) :: ps
           | [] => [[c]]
           end
  end.

Fixpoint dropWhile (f : ascii -> bool) (s : jsstring) : jsstring :=
  match s with
  | [] => []
  | c :: rest => if f c then dropWhile f rest else s
  end.

Fixpoint takeWhile (f : ascii -> bool) (s : jsstring) : jsstring :=
  match s with
  | [] => []
  | c :: rest => if f c then c :: takeWhile f rest else []
  end.

(** [String.prototype.trim] *)
Definition trim (s : jsstring) : jsstring :=
  rev (dropWhile isWhiteSpace (rev (dropWhile isWhiteSpace s))).

Definition extractNameAfterDash (fullName : jsstring) : jsstring :=
  let parts := split "-" fullName in
  if 1 <? length parts then trim (nth 1 parts []) else trim fullName.

(** The comparable name in the words of the specification: the token
    after the last delimiter, or the whole name when there is none. *)
Definition notDash (c : ascii) : bool := negb (Ascii.eqb c "-").

Definition tokenAfterLastDash (name : jsstring) : jsstring :=
  trim (rev (takeWhile notDash (rev name))).

(** The token between the first delimiter and the next one (or the end). *)
Definition tokenAfterFirstDash (name : jsstring) : jsstring :=
  takeWhile notDash (tl (dropWhile notDash name)).

Definition hasDash (name : jsstring) : bool :=
  existsb (fun c => Ascii.eqb c "-") name.

(** [===] on strings *)
Fixpoint jsstring_eqb (s t : jsstring) : bool :=
  match s, t with
  | [], [] => true
  | a :: s', b :: t' => Ascii.eqb a b && jsstring_eqb s' t'
  | _, _ => false
  end.

Fixpoint startsWith (s t : jsstring) : bool :=
  match t, s with
  | [], _ => true
  | _ :: _, [] => false
  | b :: t', a :: s' => Ascii.eqb a b && startsWith s' t'
  end.

(** [s.includes(t)]: [t] occurs in [s] at some position; the empty
    string occurs in every string. *)
Fixpoint includes (s t : jsstring) : bool :=
  startsWith s t ||
  match s with
  | [] => false
  | _ :: s' => includes s' t
  end.

(** ** Arrays *)

(** [arr.slice(0, end)]: a negative [end] counts from the end of the
    array. *)
Definition slice0 {A : Type} (end_ : Z) (arr : list A) : list A :=
  if (end_ <? 0)%Z
  then firstn (Z.to_nat (Z.max (Z.of_nat (length arr) + end_) 0)) arr
  else firstn (Z.to_nat end_) arr.

(** [arr.map((x, idx) => f(x, idx))] *)
Fixpoint mapi_from {A B : Type} (f : A -> nat -> B) (idx : nat) (arr : list A)
  : list B :=
  match arr with
  | [] => []
  | x :: rest => f x idx :: mapi_from f (S idx) rest
  end.

Definition mapi {A B : Type} (f : A -> nat -> B) (arr : list A) : list B :=
  mapi_from f 0 arr.

(** [arr.sort(cmp)]: stable; [x] stays in front of a later [y] unless the
    comparator is positive on them. *)
Fixpoint insertBy {A : Type} (cmp : A -> A -> Q) (x : A) (l : list A) : list A :=
  match l with
  | [] => [x]
  | y :: l' => if Qle_bool (cmp x y) 0 then x :: l else y :: insertBy cmp x l'
  end.

Definition sortBy {A : Type} (cmp : A -> A -> Q) (arr : list A) : list A :=
  fold_right (insertBy cmp) [] arr.

(** ** The edit-distance table *)

Definition table := list (list nat).

Fixpoint set_nth {A : Type} (l : list A) (i : nat) (v : A) : list A :=
  match l, i with
  | [], _ => []
  | _ :: t, O => v :: t
  | h :: t, S i' => h :: set_nth t i' v
  end.

(** [dp[i][j]] *)
Definition get (dp : table) (i j : nat) : nat := nth j (nth i dp []) 0%nat.

(** [dp[i][j] = v]; the program only writes inside the table. *)
Definition set (dp : table) (i j v : nat) : table :=
  set_nth dp i (set_nth (nth i dp []) j v).

(** [Array(m + 1).fill(null).map(() => Array(n + 1).fill(0))] *)
Definition newTable (m n : nat) : table := repeat (repeat 0%nat (n + 1)) (m + 1).

(** [for (let k = from; k <= to; k++) body] *)
Definition forLoop {S : Type} (from to : nat) (body : S -> nat -> S) (s : S) : S :=
  fold_left body (seq from (to + 1 - from)) s.

Definition charAt (s : jsstring) (i : nat) : ascii := nth i s zero.

Definition min3 (a b c : nat) : nat := Nat.min a (Nat.min b c).

Definition editTable (norm1 norm2 : jsstring) : table :=
  let m := length norm1 in
  let n := length norm2 in
  let dp := newTable m n in
  let dp := forLoop 0 m (fun dp i => set dp i 0 i) dp in
  let dp := forLoop 0 n (fun dp j => set dp 0 j j) dp in
  forLoop 1 m (fun dp i =>
    forLoop 1 n (fun dp j =>
      if Ascii.eqb (charAt norm1 (i - 1)) (charAt norm2 (j - 1))
      then set dp i j (get dp (i - 1) (j - 1))
      else set dp i j (min3 (get dp (i - 1) j + 1)
                            (get dp i (j - 1) + 1)
                            (get dp (i - 1) (j - 1) + 1))) dp) dp.

(** ** The similarity score (src/unnamed/part_000) *)

Definition ofNat (k : nat) : Q := inject_Z (Z.of_nat k).

Definition getSimilarityScore (str1 str2 : jsstring) : Q :=
  let norm1 := normalizeText str1 in
  let norm2 := normalizeText str2 in
  if jsstring_eqb norm1 norm2 then 1.0
  else if includes norm1 norm2 || includes norm2 norm1 then 0.8
  else
    let m := length norm1 in
    let n := length norm2 in
    if (m =? 0)%nat then (if (n =? 0)%nat then 1 else 0)
    else if (n =? 0)%nat then 0
    else
      let dp := editTable norm1 norm2 in
      let maxLen := Nat.max m n in
      1 - (ofNat (get dp m n) / ofNat maxLen).

(** ** The catalog *)

Record ATM := mkATM {
  id : jsstring;
  name : jsstring;
  lat : Q;
  lon : Q
}.

(** [{ ...atm, score }] *)
Record Match := mkMatch {
  match_atm : ATM;
  score : Q
}.

(** [{ ...atm, distance }] *)
Record WithDistance := mkWithDistance {
  wd_atm : ATM;
  wd_distance : Q
}.

(** ** Great-circle distance *)

(** The functions of [Math] the distance uses. *)
Record MathLib := mkMath {
  Math_PI : Q;
  Math_sin : Q -> Q;
  Math_cos : Q -> Q;
  Math_sqrt : Q -> Q;
  Math_atan2 : Q -> Q -> Q
}.

Definition calculateDistance (M : MathLib) (lat1 lon1 lat2 lon2 : Q) : Q :=
  let R := 6371 in
  let dLat := (lat2 - lat1) * Math_PI M / 180 in
  let dLon := (lon2 - lon1) * Math_PI M / 180 in
  let a := Math_sin M (dLat / 2) * Math_sin M (dLat / 2) +
           Math_cos M (lat1 * Math_PI M / 180) * Math_cos M (lat2 * Math_PI M / 180) *
           Math_sin M (dLon / 2) * Math_sin M (dLon / 2) in
  let c := 2 * Math_atan2 M (Math_sqrt M a) (Math_sqrt M (1 - a)) in
  R * c.

(** A rational stand-in for [Math] (small-angle sine and cosine, the
    identity for the square root), to run the ranking on concrete
    catalogs.  It agrees with [Math] where the examples need it: the
    distance of a point to itself is 0. *)
Definition planarMath : MathLib :=
  {| Math_PI := 355 # 113;
     Math_sin := fun x => x;
     Math_cos := fun x => 1 - x * x / 2;
     Math_sqrt := fun x => x;
     Math_atan2 := fun y x => y / x |}.

(** ** Awaiting the routing service *)

(** A computation that returns, or awaits one answer to a request and
    goes on with it. *)
Inductive Async (Req Ans R : Type) : Type :=
| Return (r : R)
| Await (req : Req) (k : Ans -> Async Req Ans R).

Arguments Return {Req Ans R} r.
Arguments Await {Req Ans R} req k.

Fixpoint run {Req Ans R : Type} (service : Req -> Ans) (p : Async Req Ans R) : R :=
  match p with
  | Return r => r
  | Await req k => run service (k (service req))
  end.

(** An optional numeric property of a result object. *)
Inductive Field : Type :=
| Absent
| Null
| Number (q : Q).

(** Truthiness of a number. *)
Definition truthy (q : Q) : bool := negb (Qeq_bool q 0).

(** ** src/bot.js *)

Module Bot.

(** One entry of [origin_to_destination]; a field the entry does not have
    is [None]. *)
Record RouteData := mkRouteData {
  rd_distance : option Q;
  rd_time : option Q
}.

(** How [gebetaOneToMany] settles: rejected (request error, status other
    than 200, body that does not parse) or resolved with the parsed body.
    Of the body only [origin_to_destination] is read: [None] when there
    is no array under that name, and in the array [None] for an entry
    that is [null].  A [distance] or [time] that an entry has is a
    number, so that [toFixed] in the log lines does not throw. *)
Inductive Outcome : Type :=
| Rejected
| Resolved (origin_to_destination : option (list (option RouteData))).

(** What the request URL carries: the origin and the coordinates of the
    destinations, in order. *)
Record Request := mkRequest {
  originLat : Q;
  originLon : Q;
  destinations : list (Q * Q)
}.

Definition gebetaOneToMany (originLat originLon : Q)
    (destinations : list WithDistance) : Request :=
  {| originLat := originLat;
     originLon := originLon;
     destinations := map (fun d => (lat (wd_atm d), lon (wd_atm d))) destinations |}.

(** [{ ...atm, apiDistance, duration, haversineDistance }] *)
Record WithApiDistance := mkWithApiDistance {
  wa_atm : ATM;
  wa_distance : Q;
  apiDistance : Q;
  duration : option Q;
  haversineDistance : Q
}.

(** A ranked entry as returned: the fallback returns the short-list
    objects, which have a [distance] only. *)
Record Ranked := mkRanked {
  r_atm : ATM;
  distance : Q;
  r_apiDistance : Field;
  r_duration : Field;
  r_haversineDistance : Field
}.

Definition ofWithDistance (e : WithDistance) : Ranked :=
  {| r_atm := wd_atm e;
     distance := wd_distance e;
     r_apiDistance := Absent;
     r_duration := Absent;
     r_haversineDistance := Absent |}.

Definition fieldOf (o : option Q) : Field :=
  match o with
  | Some q => Number q
  | None => Null
  end.

Section Ranking.

Variable M : MathLib.
Variable atms : list ATM.

(** Steps 1 and 2: the ten closest by great-circle distance. *)
Definition closest10From (refLat refLon : Q) : list WithDistance :=
  let withDistances :=
    map (fun atm =>
           {| wd_atm := atm;
              wd_distance := calculateDistance M refLat refLon (lat atm) (lon atm) |})
        atms in
  slice0 10 (sortBy (fun a b => wd_distance a - wd_distance b) withDistances).

(** The [.map] over [closest10] inside the [try]. *)
Definition withApiDistancesOf (routes : list (option RouteData))
    (closest10 : list WithDistance) : list WithApiDistance :=
  mapi (fun atm idx =>
          let routeData := nth_error routes (idx + 1) in
          let distance :=
            match routeData with
            | Some (Some {| rd_distance := Some d |}) => d
            | _ => wd_distance atm
            end in
          let duration :=
            match routeData with
            | Some (Some {| rd_time := Some t |}) => Some t
            | _ => None
            end in
          {| wa_atm := wd_atm atm;
             wa_distance := wd_distance atm;
             apiDistance := distance;
             duration := duration;
             haversineDistance := wd_distance atm |})
       closest10.

Definition best5Of (withApiDistances : list WithApiDistance) : list Ranked :=
  let best5 :=
    slice0 5 (sortBy (fun a b => apiDistance a - apiDistance b) withApiDistances) in
  map (fun atm =>
         {| r_atm := wa_atm atm;
            distance := apiDistance atm;
            r_apiDistance := Number (apiDistance atm);
            r_duration := fieldOf (duration atm);
            r_haversineDistance := Number (haversineDistance atm) |})
      best5.

Definition getNearestATMs (userLat userLon : Q)
  : Async Request Outcome (list Ranked) :=
  let closest10 := closest10From userLat userLon in
  Await (gebetaOneToMany userLat userLon closest10)
    (fun response =>
       match response with
       | Resolved (Some origin_to_destination) =>
           Return (best5Of (withApiDistancesOf origin_to_destination closest10))
       | _ =>
           Return (map ofWithDistance (slice0 5 closest10))
       end).

Definition getATMsSortedByProximity (referenceATMs : list Match)
  : Async Request Outcome (list Ranked) :=
  match referenceATMs with
  | [] => Return []
  | refATM :: _ =>
      let refLat := lat (match_atm refATM) in
      let refLon := lon (match_atm refATM) in
      let closest10 := closest10From refLat refLon in
      Await (gebetaOneToMany refLat refLon closest10)
        (fun response =>
           match response with
           | Resolved (Some origin_to_destination) =>
               Return (best5Of (withApiDistancesOf origin_to_destination closest10))
           | _ =>
               Return (map ofWithDistance (slice0 5 closest10))
           end)
  end.

End Ranking.

End Bot.

(** ** src/unnamed/part_000 *)

Module Part000.

Definition Qgtb (x y : Q) : bool := negb (Qle_bool x y).

Section Matching.

Variable atms : list ATM.

Definition scoreAll (searchName : jsstring) : list Match :=
  map (fun atm =>
         let atmName := extractNameAfterDash (name atm) in
         {| match_atm := atm; score := getSimilarityScore searchName atmName |})
      atms.

Definition findATMsByName (searchName : jsstring) : list Match :=
  let matches := scoreAll searchName in
  let filtered := filter (fun m => Qgtb (score m) 0.3) matches in
  sortBy (fun a b => score b - score a) filtered.

End Matching.

(** One entry of [routes]. *)
Record Route := mkRoute {
  route_distance : option Q;
  route_duration : option Q
}.

Inductive Outcome : Type :=
| Rejected
| Resolved (routes : option (list (option Route))).

Record Request := mkRequest {
  originLon : Q;
  originLat : Q;
  destinations : list (Q * Q)
}.

Definition gebetaOneToMany (originLon originLat : Q) (destinations : list ATM)
  : Request :=
  {| originLon := originLon;
     originLat := originLat;
     destinations := map (fun d => (lon d, lat d)) destinations |}.

(** [{ ...atm, distance, duration }]; the fallback sets no [duration]. *)
Record Ranked := mkRanked {
  r_atm : ATM;
  distance : Q;
  duration : Field
}.

Section Ranking.

Variable M : MathLib.
Variable atms : list ATM.

Definition haversineRanking (refLat refLon : Q) (limit : Z) : list Ranked :=
  let withDistances :=
    map (fun atm =>
           {| r_atm := atm;
              distance := calculateDistance M refLat refLon (lat atm) (lon atm);
              duration := Absent |})
        atms in
  slice0 limit (sortBy (fun a b => distance a - distance b) withDistances).

Definition apiRanking (routes : list (option Route)) (limit : Z) : list Ranked :=
  let withDistances :=
    mapi (fun atm idx =>
            let route := nth_error routes idx in
            {| r_atm := atm;
               distance :=
                 match route with
                 | Some (Some {| route_distance := Some d |}) =>
                     if truthy d then d / 1000 else 9999
                 | _ => 9999
                 end;
               duration :=
                 match route with
                 | Some (Some {| route_duration := Some t |}) =>
                     if truthy t then Number t else Null
                 | _ => Null
                 end |})
         atms in
  slice0 limit (sortBy (fun a b => distance a - distance b) withDistances).

(** [limit = 5] when the argument is left out. *)
Definition orDefault (limit : option Z) : Z :=
  match limit with
  | Some k => k
  | None => 5%Z
  end.

Definition getNearestATMs (userLat userLon : Q) (limit : option Z)
  : Async Request Outcome (list Ranked) :=
  let limit := orDefault limit in
  Await (gebetaOneToMany userLon userLat atms)
    (fun response =>
       match response with
       | Resolved (Some routes) => Return (apiRanking routes limit)
       | _ => Return (haversineRanking userLat userLon limit)
       end).

Definition getATMsSortedByProximity (referenceATMs : list Match)
    (limit : option Z) : Async Request Outcome (list Ranked) :=
  let limit := orDefault limit in
  match referenceATMs with
  | [] => Return []
  | refATM :: _ =>
      Return (haversineRanking (lat (match_atm refATM)) (lon (match_atm refATM)) limit)
  end.

End Ranking.

End Part000.

(** ** Loading the catalog (both variants) *)

Definition nonEmpty (s : jsstring) : bool :=
  match s with
  | [] => false
  | _ :: _ => true
  end.

Section Loader.

(** [parseFloat]; the loader passes its results on unread. *)
Variable parseFloat : jsstring -> Q.

(** The body of the loop of [loadATMs] for one line: the first four
    comma-separated fields, when all four are there and not empty. *)
Definition loadLine (line : jsstring) : list ATM :=
  match split "," line with
  | idField :: nameField :: latField :: lonField :: _ =>
      if nonEmpty idField && nonEmpty nameField
         && nonEmpty latField && nonEmpty lonField
      then [ {| id := trim idField;
                name := trim nameField;
                lat := parseFloat (trim latField);
                lon := parseFloat (trim lonField) |} ]
      else []
  | _ => []
  end.

(** [loadATMs], as a function of the text of [atms.csv]. *)
Definition loadATMs (data : jsstring) : list ATM :=
  let lines := split "010" (trim data) in
  flat_map loadLine (skipn 1 lines).

End Loader.

(** A row of four fields and the file made of a header line and rows. *)
Record CsvRow := mkCsvRow {
  csv_id : jsstring;
  csv_name : jsstring;
  csv_lat : jsstring;
  csv_lon : jsstring
}.

Definition csvLine (r : CsvRow) : jsstring :=
  csv_id r ++ ","%char :: csv_name r ++ ","%char :: csv_lat r ++ ","%char :: csv_lon r.

Definition csvFile (header : jsstring) (rows : list CsvRow) : jsstring :=
  header ++ concat (map (fun r => "010"%char :: csvLine r) rows).

Definition noNewline (s : jsstring) : bool :=
  forallb (fun c => negb (Ascii.eqb c "010")) s.

Definition plainField (s : jsstring) : bool :=
  nonEmpty s &&
  forallb (fun c => negb (Ascii.eqb c ",") && negb (Ascii.eqb c "010")) s.

Definition plainRow (r : CsvRow) : bool :=
  plainField (csv_id r) && plainField (csv_name r)
  && plainField (csv_lat r) && plainField (csv_lon r).

(** ** The message handlers *)

(** [await p], then go on with [f]. *)
Fixpoint bind {Req Ans A B : Type} (p : Async Req Ans A)
    (f : A -> Async Req Ans B) : Async Req Ans B :=
  match p with
  | Return a => f a
  | Await req k => Await req (fun ans => bind (k ans) f)
  end.

(** What a handler sends, in order.  A text message is recorded by its
    template and the values put into it; [ctx.reply] is taken to
    succeed, so the [catch] branches of the handlers are not entered. *)
Inductive Reply : Type :=
| FindingNearest
| NoneNearby
| FoundNearest (count : nat) (plural : bool)
| Searching
| NoMatch (searchText : jsstring)
| NoneFound
| FoundMatching (count : nat) (plural : bool)
| AtmMessage (number : nat) (atmName : jsstring) (atmLat atmLon distance : Q)
| AtmLocation (atmLat atmLon : Q).

Module Part000Handlers.

(** The [for ... of atmList.entries()] loop: a text and a location per ATM. *)
Definition atmReplies (atmList : list Part000.Ranked) : list Reply :=
  concat
    (mapi (fun atm index =>
             [ AtmMessage (index + 1) (name (Part000.r_atm atm))
                          (lat (Part000.r_atm atm)) (lon (Part000.r_atm atm))
                          (Part000.distance atm);
               AtmLocation (lat (Part000.r_atm atm)) (lon (Part000.r_atm atm)) ])
          atmList).

Section Handlers.

Variable M : MathLib.
Variable atms : list ATM.

(** [bot.on('message:location', ...)] *)
Definition onLocation (latitude longitude : Q)
  : Async Part000.Request Part000.Outcome (list Reply) :=
  bind (Part000.getNearestATMs M atms latitude longitude (Some 5%Z))
    (fun nearestATMs =>
       Return
         (FindingNearest ::
          if (length nearestATMs =? 0)%nat then [NoneNearby]
          else
            let count := length nearestATMs in
            FoundNearest count (1 <? count)%nat :: atmReplies nearestATMs)).

(** [bot.on('message:text', ...)] *)
Definition onText (text : jsstring)
  : Async Part000.Request Part000.Outcome (list Reply) :=
  let searchText := trim text in
  if startsWith searchText (str "/") then Return []
  else
    let matchingATMs := Part000.findATMsByName atms searchText in
    if (length matchingATMs =? 0)%nat then Return [Searching; NoMatch searchText]
    else
      bind (Part000.getATMsSortedByProximity M atms matchingATMs (Some 5%Z))
        (fun sortedATMs =>
           Return
             (Searching ::
              if (length sortedATMs =? 0)%nat then [NoneFound]
              else
                let matchCount := length sortedATMs in
                FoundMatching matchCount (1 <? matchCount)%nat
                :: atmReplies sortedATMs)).

End Handlers.

End Part000Handlers.

Module BotHandlers.

Definition atmReplies (atmList : list Bot.Ranked) : list Reply :=
  concat
    (mapi (fun atm index =>
             [ AtmMessage (index + 1) (name (Bot.r_atm atm))
                          (lat (Bot.r_atm atm)) (lon (Bot.r_atm atm))
                          (Bot.distance atm);
               AtmLocation (lat (Bot.r_atm atm)) (lon (Bot.r_atm atm)) ])
          atmList).

Section Handlers.

Variable M : MathLib.
Variable atms : list ATM.

(** [bot.on('message:location', ...)] *)
Definition onLocation (latitude longitude : Q)
  : Async Bot.Request Bot.Outcome (list Reply) :=
  bind (Bot.getNearestATMs M atms latitude longitude)
    (fun nearestATMs =>
       Return
         (FindingNearest ::
          if (length nearestATMs =? 0)%nat then [NoneNearby]
          else
            let count := length nearestATMs in
            FoundNearest count (1 <? count)%nat :: atmReplies nearestATMs)).

End Handlers.

End BotHandlers.

(** ** The same code over double-precision numbers and JSON values *)

(** [l.map(f)] where [f] may throw: the first exception ends the whole
    map. *)
Fixpoint sequence {A : Type} (l : list (option A)) : option (list A) :=
  match l with
  | [] => Some []
  | None :: _ => None
  | Some x :: rest =>
      match sequence rest with
      | Some xs => Some (x :: xs)
      | None => None
      end
  end.

Definition isSome {A : Type} (o : option A) : bool :=
  match o with
  | Some _ => true
  | None => false
  end.

Module Binary64.

Import PrimFloat.
#[local] Set Warnings "-inexact-float,-register-all".
#[local] Open Scope float_scope.

(** An integer as a number: the lengths and the cells of the table of
    [getSimilarityScore] are integers below 2^32 (the table is an array
    of [m + 1] rows), where the conversion is exact. *)
Definition ofZ (z : Z) : float := of_uint63 (Uint63.of_Z z).

(** A length or a table cell as a number. *)
Definition ofNat (k : nat) : float := ofZ (Z.of_nat k).

Definition getSimilarityScore (str1 str2 : jsstring) : float :=
  let norm1 := normalizeText str1 in
  let norm2 := normalizeText str2 in
  if jsstring_eqb norm1 norm2 then 1.0
  else if includes norm1 norm2 || includes norm2 norm1 then 0.8
  else
    let m := length norm1 in
    let n := length norm2 in
    if (m =? 0)%nat then (if (n =? 0)%nat then 1 else 0)
    else if (n =? 0)%nat then 0
    else
      let dp := editTable norm1 norm2 in
      let maxLen := Nat.max m n in
      1 - (ofNat (get dp m n) / ofNat maxLen).

Record ATM := mkATM {
  id : jsstring;
  name : jsstring;
  lat : float;
  lon : float
}.

Record Match := mkMatch {
  match_atm : ATM;
  score : float
}.

Record WithDistance := mkWithDistance {
  wd_atm : ATM;
  wd_distance : float
}.

(** *** Values returned by [JSON.parse] *)

Inductive Json : Type :=
| JNull
| JBool (b : bool)
| JNumber (x : float)
| JString (s : jsstring)
| JArray (elements : list Json)
| JObject (members : list (jsstring * Json)).

(** [ToBoolean] *)
Definition truthy (v : Json) : bool :=
  match v with
  | JNull => false
  | JBool b => b
  | JNumber x => negb ((x =? 0) || is_nan x)
  | JString s => nonEmpty s
  | JArray _ | JObject _ => true
  end.

Fixpoint member (key : jsstring) (members : list (jsstring * Json)) : option Json :=
  match members with
  | [] => None
  | (k, v) :: rest => if jsstring_eqb k key then Some v else member key rest
  end.

(** [v.key] for a [v] that is not [null]; [None] is [undefined].  Of the
    values [JSON.parse] returns only an object can have a property named
    [distance], [time], [duration], [routes] or [origin_to_destination]:
    the prototypes of numbers, strings, booleans and arrays have none. *)
Definition getProp (v : Json) (key : jsstring) : option Json :=
  match v with
  | JObject members => member key members
  | _ => None
  end.

(** [v && v.key], when that is not [undefined] *)
Definition definedProp (v : option Json) (key : jsstring) : option Json :=
  match v with
  | Some o => if truthy o then getProp o key else None
  | None => None
  end.

(** [v && v.key], when that is truthy *)
Definition truthyProp (v : option Json) (key : jsstring) : option Json :=
  match definedProp v key with
  | Some x => if truthy x then Some x else None
  | None => None
  end.

(** [response && response.key && Array.isArray(response.key)] *)
Definition arrayProp (response : Json) (key : jsstring) : option (list Json) :=
  match definedProp (Some response) key with
  | Some (JArray elements) => Some elements
  | _ => None
  end.

(** *** The sort of the engine *)

(** [SortCompare]: a NaN from the comparator is read as +0; [x] may stay
    in front of [y] unless the result is positive. *)
Definition notAfter {A : Type} (cmp : A -> A -> float) (x y : A) : bool :=
  is_nan (cmp x y) || (cmp x y <=? 0).

Fixpoint insertBy {A : Type} (cmp : A -> A -> float) (x : A) (l : list A) : list A :=
  match l with
  | [] => [x]
  | y :: l' => if notAfter cmp x y then x :: l else y :: insertBy cmp x l'
  end.

(** The stable sort by insertion. *)
Definition stableSort {A : Type} (cmp : A -> A -> float) (arr : list A) : list A :=
  fold_right (insertBy cmp) [] arr.

(** A comparator is consistent on the elements of an array when it never
    gives NaN there and its signs order them: the sign of [cmp y x] is
    the opposite of the sign of [cmp x y], and "not positive" is
    transitive. *)
Definition consistent {A : Type} (cmp : A -> A -> float) (arr : list A) : Prop :=
  (forall x y, In x arr -> In y arr -> is_nan (cmp x y) = false) /\
  (forall x y, In x arr -> In y arr -> (cmp x y <? 0) = (0 <? cmp y x)) /\
  (forall x y z, In x arr -> In y arr -> In z arr ->
     (cmp x y <=? 0) = true -> (cmp y z <=? 0) = true -> (cmp x z <=? 0) = true).

(** What the program takes from the JavaScript engine.  The functions of
    [Math] and the conversion of strings and of arrays and objects to
    numbers are left open.  [Array.prototype.sort] permutes the array;
    with a consistent comparator the result is that of the stable sort,
    otherwise the order is the engine's own. *)
Record Engine : Type := mkEngine {
  Math_PI : float;
  Math_sin : float -> float;
  Math_cos : float -> float;
  Math_sqrt : float -> float;
  Math_atan2 : float -> float -> float;
  StringToNumber : jsstring -> float;
  ObjectToNumber : Json -> option float;
  Array_sort : forall A : Type, (A -> A -> float) -> list A -> list A;
  Array_sort_permutes :
    forall (A : Type) (cmp : A -> A -> float) (arr : list A),
      Permutation (Array_sort cmp arr) arr;
  Array_sort_consistent :
    forall (A : Type) (cmp : A -> A -> float) (arr : list A),
      consistent cmp arr -> Array_sort cmp arr = stableSort cmp arr
}.

(** [ToNumber]; [None] when the conversion throws a [TypeError], which
    only the conversion of an array or an object can do. *)
Definition ToNumber (E : Engine) (v : Json) : option float :=
  match v with
  | JNull => Some 0
  | JBool true => Some 1
  | JBool false => Some 0
  | JNumber x => Some x
  | JString s => Some (StringToNumber E s)
  | JArray _ | JObject _ => ObjectToNumber E v
  end.

Definition calculateDistance (E : Engine) (lat1 lon1 lat2 lon2 : float) : float :=
  let R := 6371 in
  let dLat := (lat2 - lat1) * Math_PI E / 180 in
  let dLon := (lon2 - lon1) * Math_PI E / 180 in
  let a := Math_sin E (dLat / 2) * Math_sin E (dLat / 2) +
           Math_cos E (lat1 * Math_PI E / 180) * Math_cos E (lat2 * Math_PI E / 180) *
           Math_sin E (dLon / 2) * Math_sin E (dLon / 2) in
  let c := 2 * Math_atan2 E (Math_sqrt E a) (Math_sqrt E (1 - a)) in
  R * c.

(** An engine to run the code on concrete inputs: the stable sort, and
    stand-ins for the rest that agree with every engine where the
    examples use them: the sine of 0 is 0, the arc tangent of 0 over 1 is
    0, NaN goes to NaN, and a string that is not a numeral or a plain
    object converts to NaN. *)
Definition referenceEngine : Engine.
Proof.
  refine {| Math_PI := 3.141592653589793;
            Math_sin := fun x => x;
            Math_cos := fun x => 1 - x * x / 2;
            Math_sqrt := sqrt;
            Math_atan2 := fun y x => y / x;
            StringToNumber := fun _ => nan;
            ObjectToNumber := fun _ => Some nan;
            Array_sort := @stableSort;
            Array_sort_permutes := _;
            Array_sort_consistent := fun A cmp arr _ => eq_refl |}.
  intros A cmp arr.
  induction arr as [|x arr IH]; cbn [stableSort fold_right]; [reflexivity|].
  fold (stableSort cmp arr).
  transitivity (x :: stableSort cmp arr); [|now apply perm_skip].
  generalize (stableSort cmp arr) as l. clear.
  induction l as [|y l IH]; cbn [insertBy]; [reflexivity|].
  destruct (notAfter cmp x y); [reflexivity|].
  rewrite IH. apply perm_swap.
Defined.

(** *** src/bot.js *)

Module Bot.

(** How [gebetaOneToMany] settles: rejected (request error, status other
    than 200, body that does not parse) or resolved with the parsed
    body, which can be any JSON value. *)
Inductive Outcome : Type :=
| Rejected
| Resolved (parsed : Json).

Record Request := mkRequest {
  originLat : float;
  originLon : float;
  destinations : list (float * float)
}.

Definition gebetaOneToMany (originLat originLon : float)
    (destinations : list WithDistance) : Request :=
  {| originLat := originLat;
     originLon := originLon;
     destinations := map (fun d => (lat (wd_atm d), lon (wd_atm d))) destinations |}.

(** [{ ...atm, apiDistance, duration, haversineDistance }]: [apiDistance]
    and [duration] hold whatever the response has under [distance] and
    [time]. *)
Record WithApiDistance := mkWithApiDistance {
  wa_atm : ATM;
  wa_distance : float;
  apiDistance : Json;
  duration : Json;
  haversineDistance : float
}.

(** A ranked entry as returned.  The fallback returns the short-list
    objects, which have a [distance] only ([None] for a property that is
    not there). *)
Record Ranked := mkRanked {
  r_atm : ATM;
  distance : float;
  r_apiDistance : option float;
  r_duration : option Json;
  r_haversineDistance : option float
}.

Definition ofWithDistance (e : WithDistance) : Ranked :=
  {| r_atm := wd_atm e;
     distance := wd_distance e;
     r_apiDistance := None;
     r_duration := None;
     r_haversineDistance := None |}.

Section Ranking.

Variable E : Engine.
Variable atms : list ATM.

(** Steps 1 and 2: the ten closest by great-circle distance. *)
Definition closest10From (refLat refLon : float) : list WithDistance :=
  let withDistances :=
    map (fun atm =>
           {| wd_atm := atm;
              wd_distance := calculateDistance E refLat refLon (lat atm) (lon atm) |})
        atms in
  slice0 10 (Array_sort E (fun a b => wd_distance a - wd_distance b) withDistances).

(** The [.map] over [closest10] inside the [try]. *)
Definition withApiDistancesOf (routes : list Json)
    (closest10 : list WithDistance) : list WithApiDistance :=
  mapi (fun atm idx =>
          let routeData := nth_error routes (idx + 1) in
          let distance :=
            match definedProp routeData (str "distance") with
            | Some d => d
            | None => JNumber (wd_distance atm)
            end in
          let duration :=
            match definedProp routeData (str "time") with
            | Some t => t
            | None => JNull
            end in
          {| wa_atm := wd_atm atm;
             wa_distance := wd_distance atm;
             apiDistance := distance;
             duration := duration;
             haversineDistance := wd_distance atm |})
       closest10.

(** The operand of the subtraction in the comparator. *)
Definition numberOf (atm : WithApiDistance) : float :=
  match ToNumber E (apiDistance atm) with
  | Some x => x
  | None => nan
  end.

(** The rest of the [try] block; [None] when it throws.  The comparator
    [a.apiDistance - b.apiDistance] throws when the conversion of an
    operand does, and with two elements or more every element is an
    operand of some comparison.  After the sort, the log line calls
    [atm.apiDistance.toFixed(2)] on each of the five, which throws a
    [TypeError] unless [apiDistance] is a number. *)
Definition best5Of (withApiDistances : list WithApiDistance) : option (list Ranked) :=
  if (2 <=? length withApiDistances)%nat
     && negb (forallb (fun atm => isSome (ToNumber E (apiDistance atm))) withApiDistances)
  then None
  else
    let best5 :=
      slice0 5 (Array_sort E (fun a b => numberOf a - numberOf b) withApiDistances) in
    sequence
      (map (fun atm =>
              match apiDistance atm with
              | JNumber x =>
                  Some {| r_atm := wa_atm atm;
                          distance := x;
                          r_apiDistance := Some x;
                          r_duration := Some (duration atm);
                          r_haversineDistance := Some (haversineDistance atm) |}
              | _ => None
              end)
           best5).

(** What [getNearestATMs] returns once the routing call has settled. *)
Definition settle (closest10 : list WithDistance) (response : Outcome) : list Ranked :=
  let fallback := map ofWithDistance (slice0 5 closest10) in
  match response with
  | Rejected => fallback
  | Resolved parsed =>
      match arrayProp parsed (str "origin_to_destination") with
      | Some origin_to_destination =>
          match best5Of (withApiDistancesOf origin_to_destination closest10) with
          | Some best5 => best5
          | None => fallback
          end
      | None => fallback
      end
  end.

Definition getNearestATMs (userLat userLon : float)
  : Async Request Outcome (list Ranked) :=
  let closest10 := closest10From userLat userLon in
  Await (gebetaOneToMany userLat userLon closest10)
    (fun response => Return (settle closest10 response)).

Definition getATMsSortedByProximity (referenceATMs : list Match)
  : Async Request Outcome (list Ranked) :=
  match referenceATMs with
  | [] => Return []
  | refATM :: _ =>
      let refLat := lat (match_atm refATM) in
      let refLon := lon (match_atm refATM) in
      let closest10 := closest10From refLat refLon in
      Await (gebetaOneToMany refLat refLon closest10)
        (fun response => Return (settle closest10 response))
  end.

End Ranking.

End Bot.

(** *** src/unnamed/part_000 *)

Module Part000.

Section Matching.

Variable E : Engine.
Variable atms : list ATM.

Definition scoreAll (searchName : jsstring) : list Match :=
  map (fun atm =>
         let atmName := extractNameAfterDash (name atm) in
         {| match_atm := atm; score := getSimilarityScore searchName atmName |})
      atms.

Definition findATMsByName (searchName : jsstring) : list Match :=
  let matches := scoreAll searchName in
  let filtered := filter (fun m => 0.3 <? score m) matches in
  Array_sort E (fun a b => score b - score a) filtered.

End Matching.

Inductive Outcome : Type :=
| Rejected
| Resolved (parsed : Json).

Record Request := mkRequest {
  originLon : float;
  originLat : float;
  destinations : list (float * float)
}.

Definition gebetaOneToMany (originLon originLat : float) (destinations : list ATM)
  : Request :=
  {| originLon := originLon;
     originLat := originLat;
     destinations := map (fun d => (lon d, lat d)) destinations |}.

(** [{ ...atm, distance, duration }]; the fallback sets no [duration]. *)
Record Ranked := mkRanked {
  r_atm : ATM;
  distance : float;
  duration : option Json
}.

Section Ranking.

Variable E : Engine.
Variable atms : list ATM.

Definition haversineRanking (refLat refLon : float) (limit : Z) : list Ranked :=
  let withDistances :=
    map (fun atm =>
           {| r_atm := atm;
              distance := calculateDistance E refLat refLon (lat atm) (lon atm);
              duration := None |})
        atms in
  slice0 limit (Array_sort E (fun a b => distance a - distance b) withDistances).

(** [route && route.distance ? route.distance / 1000 : 9999]; [None]
    when the conversion of [route.distance] to a number throws. *)
Definition routeDistance (route : option Json) : option float :=
  match truthyProp route (str "distance") with
  | Some d =>
      match ToNumber E d with
      | Some x => Some (x / 1000)
      | None => None
      end
  | None => Some 9999
  end.

(** [route && route.duration ? route.duration : null] *)
Definition routeDuration (route : option Json) : Json :=
  match truthyProp route (str "duration") with
  | Some t => t
  | None => JNull
  end.

(** The [try] block once the response has an array of routes; [None]
    when it throws. *)
Definition apiRanking (routes : list Json) (limit : Z) : option (list Ranked) :=
  match sequence
          (mapi (fun atm idx =>
                   let route := nth_error routes idx in
                   match routeDistance route with
                   | Some d =>
                       Some {| r_atm := atm;
                               distance := d;
                               duration := Some (routeDuration route) |}
                   | None => None
                   end)
                atms) with
  | Some withDistances =>
      Some (slice0 limit
              (Array_sort E (fun a b => distance a - distance b) withDistances))
  | None => None
  end.

(** [limit = 5] when the argument is left out. *)
Definition orDefault (limit : option Z) : Z :=
  match limit with
  | Some k => k
  | None => 5%Z
  end.

Definition settle (userLat userLon : float) (limit : Z) (response : Outcome)
  : list Ranked :=
  let fallback := haversineRanking userLat userLon limit in
  match response with
  | Rejected => fallback
  | Resolved parsed =>
      match arrayProp parsed (str "routes") with
      | Some routes =>
          match apiRanking routes limit with
          | Some sorted => sorted
          | None => fallback
          end
      | None => fallback
      end
  end.

Definition getNearestATMs (userLat userLon : float) (limit : option Z)
  : Async Request Outcome (list Ranked) :=
  let limit := orDefault limit in
  Await (gebetaOneToMany userLon userLat atms)
    (fun response => Return (settle userLat userLon limit response)).

Definition getATMsSortedByProximity (referenceATMs : list Match)
    (limit : option Z) : Async Request Outcome (list Ranked) :=
  let limit := orDefault limit in
  match referenceATMs with
  | [] => Return []
  | refATM :: _ =>
      Return (haversineRanking (lat (match_atm refATM)) (lon (match_atm refATM)) limit)
  end.

End Ranking.

End Part000.

(** *** Definitions used in the statements *)

(** The pure geodesic ordering of the catalog around a reference point. *)
Definition geodesicOrdering (E : Engine) (atms : list ATM) (refLat refLon : float)
  : list WithDistance :=
  Array_sort E (fun a b => wd_distance a - wd_distance b)
    (map (fun atm =>
            mkWithDistance atm (calculateDistance E refLat refLon (lat atm) (lon atm)))
         atms).

(** The member [key] of the object at position [pos] of the response
    array, when there is one. *)
Definition memberAt (routes : list Json) (pos : nat) (key : jsstring) : option Json :=
  match nth_error routes pos with
  | Some (JObject members) => member key members
  | _ => None
  end.

(** What the response array of src/bot.js reports under [key] for the
    candidate at [idx] of the short-list: position 0 is the origin. *)
Definition reported (routes : list Json) (idx : nat) (key : jsstring) : option Json :=
  memberAt routes (idx + 1) key.

(** The entry [r] is the candidate [c], at [idx] of the short-list, as
    the refinement leaves it: with the number reported as its distance,
    or its geodesic distance when none is reported; and with the reported
    time, or [null] when none is reported. *)
Definition refinedOrKept (routes : list Json) (idx : nat)
    (c : WithDistance) (r : Bot.Ranked) : Prop :=
  Bot.r_atm r = wd_atm c /\
  match reported routes idx (str "distance") with
  | Some d => d = JNumber (Bot.distance r)
  | None => Bot.distance r = wd_distance c
  end /\
  Bot.r_duration r =
    Some (match reported routes idx (str "time") with
          | Some t => t
          | None => JNull
          end).


(** An entry of the [try] block of src/bot.js, as returned. *)
Definition returned (w : Bot.WithApiDistance) (r : Bot.Ranked) : Prop :=
  Bot.apiDistance w = JNumber (Bot.distance r) /\
  Bot.r_atm r = Bot.wa_atm w /\
  Bot.r_duration r = Some (Bot.duration w).

(** The entry of src/unnamed/part_000 made from the route at [idx] for
    the ATM there. *)
Definition routed (E : Engine) (routes : list Json) (idx : nat) (atm : ATM)
    (r : Part000.Ranked) : Prop :=
  Part000.r_atm r = atm /\
  Part000.routeDistance E (nth_error routes idx) = Some (Part000.distance r) /\
  Part000.duration r = Some (Part000.routeDuration (nth_error routes idx)).

End Binary64.

(** *** Definitions used in the proofs about doubles *)

(** A number that is not zero and has sign [s]. *)
Definition signed (s : bool) (X : SpecFloat.spec_float) : Prop :=
  (exists m e, X = SpecFloat.S754_finite s m e) \/ X = SpecFloat.S754_infinity s.

(** Zero or finite: neither NaN nor an infinity. *)
Definition finiteSF (X : SpecFloat.spec_float) : bool :=
  match X with
  | SpecFloat.S754_zero _ | SpecFloat.S754_finite _ _ _ => true
  | _ => false
  end.

(** The value of a finite number in units of 2^-1074, an integer. *)
Definition rankSF (X : SpecFloat.spec_float) : Z :=
  match X with
  | SpecFloat.S754_finite s m e => SpecFloat.cond_Zopp s (Zpos m * 2 ^ (e + 1074))%Z
  | _ => 0%Z
  end.

Definition rank (x : PrimFloat.float) : Z := rankSF (FloatOps.Prim2SF x).

(** Zero, or finite with exponent at least [lo] and magnitude below
    [2 ^ hi]. *)
Definition boundedSF (lo hi : Z) (X : SpecFloat.spec_float) : Prop :=
  match X with
  | SpecFloat.S754_zero _ => True
  | SpecFloat.S754_finite _ m e =>
      (lo <= e)%Z /\ (Zpos (SpecFloat.digits2_pos m) + e <= hi)%Z
  | _ => False
  end.

(** ** Definitions used in the statements and proofs *)

(** The number of delimiters in a name. *)
Definition dashCount (name : jsstring) : nat :=
  length (filter (fun c => Ascii.eqb c "-") name).

(** A character no stage of [normalizeText] changes or removes. *)
Definition stable (c : ascii) : bool :=
  Ascii.eqb (toLowerCase_char c) c && negb (isVowel c) && negb (ieq "t" c)
  && negb (ieq "k" c) && negb (isWhiteSpace c).

(** Edit distance with unit costs, by recursion on the two strings. *)
Fixpoint lev (s t : jsstring) : nat :=
  match s with
  | [] => length t
  | a :: s' =>
      (fix lev_s (t : jsstring) : nat :=
         match t with
         | [] => length s
         | b :: t' =>
             if Ascii.eqb a b then lev s' t'
             else min3 (lev s' t + 1) (lev_s t' + 1) (lev s' t' + 1)
         end) t
  end.

(** The table has [m + 1] rows of [n + 1] cells. *)
Definition shape (m n : nat) (dp : table) : Prop :=
  length dp = (m + 1)%nat /\ Forall (fun row => length row = (n + 1)%nat) dp.

(** The distance between the first [i] characters of [norm1] and the
    first [j] characters of [norm2]. *)
Definition prefixDistance (norm1 norm2 : jsstring) (i j : nat) : nat :=
  lev (rev (firstn i norm1)) (rev (firstn j norm2)).

(** The cells the loops have written when row [r] is being filled and
    its next column is [c]. *)
Definition written (r c i j : nat) : Prop :=
  i = 0%nat \/ j = 0%nat \/ (i < r)%nat \/ (i = r /\ (j < c)%nat).

Definition filled (norm1 norm2 : jsstring) (r c : nat) (dp : table) : Prop :=
  shape (length norm1) (length norm2) dp /\
  forall i j, (i <= length norm1)%nat -> (j <= length norm2)%nat ->
              written r c i j ->
              get dp i j = prefixDistance norm1 norm2 i j.

(** The pure geodesic ordering of the catalog around a reference point:
    every entry with its great-circle distance, ascending. *)
Definition geodesicOrdering (M : MathLib) (atms : list ATM) (refLat refLon : Q)
  : list WithDistance :=
  sortBy (fun a b => wd_distance a - wd_distance b)
    (map (fun atm =>
            mkWithDistance atm
              (calculateDistance M refLat refLon (lat atm) (lon atm)))
         atms).

(** The candidate of the short-list at [idx], as the refinement leaves it
    when the response array is [routes]: the reported road distance and
    time if the array has them at [idx + 1], its geodesic distance and no
    time otherwise. *)
Definition refinedOrKept (routes : list (option Bot.RouteData)) (idx : nat)
    (c : WithDistance) (r : Bot.Ranked) : Prop :=
  Bot.r_atm r = wd_atm c /\
  match nth_error routes (idx + 1) with
  | Some (Some rd) =>
      Bot.distance r = match Bot.rd_distance rd with
                       | Some d => d
                       | None => wd_distance c
                       end /\
      Bot.r_duration r = Bot.fieldOf (Bot.rd_time rd)
  | _ => Bot.distance r = wd_distance c /\ Bot.r_duration r = Null
  end.


(** [edits s t k]: [s] becomes [t] by [k] single-character insertions,
    deletions and substitutions (characters that are kept cost nothing). *)
Inductive edits : jsstring -> jsstring -> nat -> Prop :=
| edits_nil : edits [] [] 0
| edits_keep c s t k : edits s t k -> edits (c :: s) (c :: t) k
| edits_substitute a b s t k : edits s t k -> edits (a :: s) (b :: t) (S k)
| edits_delete a s t k : edits s t k -> edits (a :: s) t (S k)
| edits_insert b s t k : edits s t k -> edits s (b :: t) (S k).

(** [dp[m][n]], the entry of the table the score is computed from. *)
Definition editDistance (norm1 norm2 : jsstring) : nat :=
  get (editTable norm1 norm2) (length norm1) (length norm2).

(** [l] is drawn from [catalog]: its elements are elements of
    [catalog], none taken more often than it occurs there. *)
Definition drawnFrom {A : Type} (l catalog : list A) : Prop :=
  exists rest, Permutation (l ++ rest) catalog.

(** * Properties *)

(** ** Normalization *)

Example normalize_piasa : normalizeText (str "Piasa") = str "ps".
Proof. reflexivity. Qed.

Example normalize_iya : normalizeText (str "Tiya Keble") = str "xqbl".
Proof. reflexivity. Qed.

Example normalize_uppercase_iya : normalizeText (str "IYAIYA tIyA") = str "x".
Proof. reflexivity. Qed.

Ltac each_char c :=
  destruct c as [[] [] [] [] [] [] [] []].

Lemma toLowerCase_char_idem c :
  toLowerCase_char (toLowerCase_char c) = toLowerCase_char c.
Proof. each_char c; reflexivity. Qed.

Lemma stable_after_folds c0 :
  toLowerCase_char c0 = c0 ->
  isVowel c0 = false ->
  let c := (if ieq "k" (if ieq "t" c0 then "x" else c0) then "q"
            else (if ieq "t" c0 then "x" else c0))%char in
  isWhiteSpace c = false ->
  stable c = true.
Proof. each_char c0; vm_compute; intros; congruence. Qed.

Lemma stable_fixed c :
  stable c = true ->
  toLowerCase_char c = c /\ isVowel c = false /\ ieq "i" c = false /\
  ieq "t" c = false /\ ieq "k" c = false /\ isWhiteSpace c = false.
Proof. each_char c; vm_compute; intros; repeat split; congruence. Qed.

Lemma replace_iya_cons3 c1 c2 c3 rest :
  replace_iya (c1 :: c2 :: c3 :: rest) =
  if ieq "i" c1 && ieq "y" c2 && ieq "a" c3
  then "i"%char :: "a"%char :: replace_iya rest
  else c1 :: replace_iya (c2 :: c3 :: rest).
Proof. reflexivity. Qed.

Lemma replace_iya_Forall (P : ascii -> Prop) :
  P "i"%char -> P "a"%char ->
  forall s, Forall P s -> Forall P (replace_iya s).
Proof.
  intros Hi Ha s.
  remember (length s) as n eqn:Hn.
  revert s Hn.
  induction n as [n IH] using lt_wf_ind.
  intros [|c1 [|c2 [|c3 rest]]] Hn Hs; try exact Hs.
  rewrite replace_iya_cons3.
  inversion Hs as [|? ? H1 H2]; subst.
  destruct (ieq "i" c1 && ieq "y" c2 && ieq "a" c3).
  - do 2 (constructor; auto).
    inversion H2 as [|? ? H3 H4]; subst. inversion H4; subst.
    apply (IH (length rest)); simpl; auto; lia.
  - constructor; auto.
    apply (IH (length (c2 :: c3 :: rest))); simpl; auto; lia.
Qed.

Lemma replace_iya_without_i s :
  Forall (fun c => ieq "i" c = false) s -> replace_iya s = s.
Proof.
  induction s as [|c1 tl IH]; intros Hs; auto.
  inversion Hs as [|? ? H1 H2]; subst.
  specialize (IH H2).
  destruct tl as [|c2 [|c3 rest]]; auto.
  rewrite replace_iya_cons3, H1, IH. reflexivity.
Qed.

Lemma filter_all {A} (f : A -> bool) l :
  Forall (fun x => f x = true) l -> filter f l = l.
Proof.
  induction 1 as [|x l Hx _ IH]; simpl; auto.
  now rewrite Hx, IH.
Qed.

Lemma map_fixed {A} (f : A -> A) l :
  Forall (fun x => f x = x) l -> map f l = l.
Proof.
  induction 1 as [|x l Hx _ IH]; simpl; auto.
  now rewrite Hx, IH.
Qed.

Lemma normalizeText_stable text :
  Forall (fun c => stable c = true) (normalizeText text).
Proof.
  unfold normalizeText, remove_spaces, replace_char, remove_vowels, toLowerCase.
  rewrite map_map.
  apply Forall_forall. intros c Hc.
  apply filter_In in Hc. destruct Hc as [Hc Hsp].
  apply in_map_iff in Hc. destruct Hc as [c0 [Hc0 Hin]].
  apply filter_In in Hin. destruct Hin as [Hin Hv].
  assert (Hlow : toLowerCase_char c0 = c0).
  { assert (HF : Forall (fun c => toLowerCase_char c = c)
                   (replace_iya (map toLowerCase_char text))).
    { apply replace_iya_Forall; try reflexivity.
      apply Forall_forall. intros x Hx.
      apply in_map_iff in Hx. destruct Hx as [y [<- _]].
      apply toLowerCase_char_idem. }
    rewrite Forall_forall in HF. now apply HF. }
  subst c.
  apply stable_after_folds; auto.
  - now apply negb_true_iff.
  - now apply negb_true_iff in Hsp.
Qed.

Lemma normalizeText_fixed s :
  Forall (fun c => stable c = true) s -> normalizeText s = s.
Proof.
  intros Hs.
  assert (H : Forall (fun c =>
              toLowerCase_char c = c /\ isVowel c = false /\ ieq "i" c = false /\
              ieq "t" c = false /\ ieq "k" c = false /\ isWhiteSpace c = false) s).
  { eapply Forall_impl; [|exact Hs]. intros c. apply stable_fixed. }
  unfold normalizeText, remove_spaces, replace_char, remove_vowels, toLowerCase.
  rewrite (map_fixed toLowerCase_char).
  2:{ eapply Forall_impl; [|exact H]. intros c Hc. apply Hc. }
  rewrite replace_iya_without_i.
  2:{ eapply Forall_impl; [|exact H]. intros c Hc. apply Hc. }
  rewrite (filter_all (fun c => negb (isVowel c))).
  2:{ eapply Forall_impl; [|exact H]. intros c Hc. simpl.
      destruct Hc as (_ & -> & _). reflexivity. }
  rewrite (map_fixed (fun c => if ieq "t" c then "x"%char else c)).
  2:{ eapply Forall_impl; [|exact H]. intros c Hc. simpl.
      destruct Hc as (_ & _ & _ & -> & _). reflexivity. }
  rewrite (map_fixed (fun c => if ieq "k" c then "q"%char else c)).
  2:{ eapply Forall_impl; [|exact H]. intros c Hc. simpl.
      destruct Hc as (_ & _ & _ & _ & -> & _). reflexivity. }
  apply filter_all.
  eapply Forall_impl; [|exact H]. intros c Hc. simpl.
  destruct Hc as (_ & _ & _ & _ & _ & ->). reflexivity.
Qed.

(** C10. Normalizing twice is normalizing once: the normalized key holds
    no uppercase letter, no vowel, no [t] or [k] and no whitespace, so
    each stage of the pipeline leaves it as it is. *)
Theorem normalizeText_idempotent (x : jsstring) :
  normalizeText (normalizeText x) = normalizeText x.
Proof.
  apply normalizeText_fixed, normalizeText_stable.
Qed.

(** C9. The k/q and t/x variants have the same key: "Kebele" and
    "Qebele" normalize to the same string, and so do "Atote" and "Axoxe".
    "Piassa" and "Piasa" keep different consonant skeletons. *)
Theorem normalizeText_phonetic_folds :
  normalizeText (str "Kebele") = normalizeText (str "Qebele") /\
  normalizeText (str "Atote") = normalizeText (str "Axoxe") /\
  normalizeText (str "Piassa") <> normalizeText (str "Piasa").
Proof.
  repeat split; try reflexivity.
  vm_compute. discriminate.
Qed.

(** ** The comparable name *)

Example extract_bank_piasa :
  extractNameAfterDash (str "Bank - Piasa ") = str "Piasa".
Proof. reflexivity. Qed.

Example extract_no_dash : extractNameAfterDash (str " Piasa") = str "Piasa".
Proof. reflexivity. Qed.

Lemma split_dash_unfold s :
  split "-" s =
  takeWhile notDash s ::
  (if hasDash s then split "-" (tl (dropWhile notDash s)) else []).
Proof.
  induction s as [|c rest IH]; [reflexivity|].
  simpl. unfold notDash at 1 3.
  destruct (Ascii.eqb c "-") eqn:E; simpl; [reflexivity|].
  rewrite IH. reflexivity.
Qed.

Lemma takeWhile_all f s :
  Forall (fun c => f c = true) s -> takeWhile f s = s.
Proof.
  induction 1 as [|c s Hc _ IH]; simpl; auto.
  now rewrite Hc, IH.
Qed.

Lemma takeWhile_app_stop f pre c post :
  Forall (fun c => f c = true) pre -> f c = false ->
  takeWhile f (pre ++ c :: post) = pre.
Proof.
  intros Hpre Hc.
  induction Hpre as [|x pre Hx _ IH]; simpl.
  - now rewrite Hc.
  - now rewrite Hx, IH.
Qed.

Lemma dropWhile_app_stop f pre c post :
  Forall (fun c => f c = true) pre -> f c = false ->
  dropWhile f (pre ++ c :: post) = c :: post.
Proof.
  intros Hpre Hc.
  induction Hpre as [|x pre Hx _ IH]; simpl.
  - now rewrite Hc.
  - now rewrite Hx, IH.
Qed.

Lemma dashCount_zero s :
  dashCount s = 0%nat -> Forall (fun c => notDash c = true) s /\ hasDash s = false.
Proof.
  unfold dashCount, notDash.
  induction s as [|c s IH]; simpl; [auto|].
  destruct (Ascii.eqb c "-") eqn:E; simpl; [discriminate|].
  intros H. destruct (IH H). split; auto.
  constructor; auto. now rewrite E.
Qed.

Lemma first_dash s :
  hasDash s = true ->
  exists pre post,
    s = pre ++ "-"%char :: post /\
    Forall (fun c => notDash c = true) pre /\
    dashCount s = S (dashCount post).
Proof.
  unfold dashCount, notDash.
  induction s as [|c s IH]; simpl; [discriminate|].
  destruct (Ascii.eqb c "-") eqn:E; simpl.
  - intros _. apply Ascii.eqb_eq in E. subst c.
    exists [], s. auto.
  - intros H. destruct (IH H) as (pre & post & -> & Hpre & Hn).
    exists (c :: pre), post. repeat split; auto.
    constructor; auto. now rewrite E.
Qed.

(** C5, as the code has it. The comparable name is the token between the
    first delimiter and the next one (the second part of the split),
    trimmed, or the whole trimmed name when there is no delimiter; for a
    name with at most one delimiter that is the token after the last
    delimiter. *)
Theorem extractNameAfterDash_second_token (fullName : jsstring) :
  extractNameAfterDash fullName =
    (if hasDash fullName then trim (tokenAfterFirstDash fullName)
     else trim fullName) /\
  ((dashCount fullName <= 1)%nat ->
   extractNameAfterDash fullName = tokenAfterLastDash fullName).
Proof.
  assert (Hgen : extractNameAfterDash fullName =
    (if hasDash fullName then trim (tokenAfterFirstDash fullName)
     else trim fullName)).
  { unfold extractNameAfterDash, tokenAfterFirstDash.
    rewrite split_dash_unfold.
    destruct (hasDash fullName); [|reflexivity].
    rewrite split_dash_unfold. reflexivity. }
  split; [exact Hgen|].
  intros Hcount. rewrite Hgen.
  unfold tokenAfterLastDash, tokenAfterFirstDash.
  destruct (hasDash fullName) eqn:Hd.
  - destruct (first_dash _ Hd) as (pre & post & -> & Hpre & Hn).
    assert (Hpost : dashCount post = 0%nat) by lia.
    apply dashCount_zero in Hpost. destruct Hpost as [Hpost _].
    rewrite dropWhile_app_stop by auto. simpl tl.
    rewrite takeWhile_all by auto.
    rewrite rev_app_distr. simpl rev. rewrite <- app_assoc. simpl app.
    rewrite takeWhile_app_stop; auto.
    + now rewrite rev_involutive.
    + apply Forall_rev. exact Hpost.
  - assert (Hz : dashCount fullName = 0%nat).
    { unfold dashCount, hasDash in *.
      clear -Hd. induction fullName as [|c s IH]; simpl in *; auto.
      destruct (Ascii.eqb c "-"); simpl in *; [discriminate|auto]. }
    apply dashCount_zero in Hz. destruct Hz as [Hall _].
    rewrite takeWhile_all, rev_involutive; auto.
    apply Forall_rev. exact Hall.
Qed.

Lemma extractNameAfterDash_second_token_witness :
  (dashCount (str "Bank-Piasa") <= 1)%nat /\
  extractNameAfterDash (str "Bank-Piasa") = tokenAfterLastDash (str "Bank-Piasa").
Proof.
  split.
  - vm_compute. lia.
  - apply (proj2 (extractNameAfterDash_second_token (str "Bank-Piasa"))).
    vm_compute. lia.
Defined.

(** C5 as stated fails on a name with two delimiters: the code keeps the
    middle token, not the token after the last delimiter. *)
Lemma extractNameAfterDash_not_last_token :
  extractNameAfterDash (str "Bank-Old-Piasa") = str "Old" /\
  tokenAfterLastDash (str "Bank-Old-Piasa") = str "Piasa" /\
  extractNameAfterDash (str "Bank-Old-Piasa") <> tokenAfterLastDash (str "Bank-Old-Piasa").
Proof.
  repeat split. vm_compute. discriminate.
Qed.

(** ** Arrays: [sort], [slice], [map] *)

Section SortBy.

Variable A : Type.
Variable cmp : A -> A -> Q.

Lemma insertBy_perm x l : Permutation (x :: l) (insertBy cmp x l).
Proof.
  induction l as [|y l IH]; simpl; auto.
  destruct (Qle_bool (cmp x y) 0); auto.
  rewrite perm_swap. now apply perm_skip.
Qed.

Lemma sortBy_perm l : Permutation (sortBy cmp l) l.
Proof.
  induction l as [|x l IH]; simpl; auto.
  rewrite <- insertBy_perm. now apply perm_skip.
Qed.

Lemma sortBy_length l : length (sortBy cmp l) = length l.
Proof. apply Permutation_length, sortBy_perm. Qed.

Lemma sortBy_In x l : In x (sortBy cmp l) <-> In x l.
Proof.
  split; apply Permutation_in; [|symmetry]; apply sortBy_perm.
Qed.

(** Stability: elements that the comparator never orders strictly keep
    their places relative to each other. *)
Lemma insertBy_filter (p : A -> bool) x l :
  (forall y, In y l -> p x = true -> p y = true -> Qle_bool (cmp x y) 0 = true) ->
  filter p (insertBy cmp x l) = filter p (x :: l).
Proof.
  induction l as [|y l IH]; intros Hp; [reflexivity|].
  simpl insertBy.
  destruct (Qle_bool (cmp x y) 0) eqn:E; [reflexivity|].
  simpl. simpl in IH. rewrite IH.
  - destruct (p x) eqn:Px; [|reflexivity].
    destruct (p y) eqn:Py; [|reflexivity].
    rewrite (Hp y) in E by (simpl; auto). discriminate.
  - intros z Hz. apply Hp. now right.
Qed.

Lemma sortBy_filter (p : A -> bool) l :
  (forall x y, p x = true -> p y = true -> Qle_bool (cmp x y) 0 = true) ->
  filter p (sortBy cmp l) = filter p l.
Proof.
  intros Hp.
  induction l as [|x l IH]; [reflexivity|].
  simpl sortBy. rewrite insertBy_filter by (intros; now apply Hp).
  simpl. now rewrite IH.
Qed.

Variable le : A -> A -> Prop.
Hypothesis cmp_le : forall x y, Qle_bool (cmp x y) 0 = true <-> le x y.
Hypothesis le_total : forall x y, le x y \/ le y x.
Hypothesis le_trans : forall x y z, le x y -> le y z -> le x z.

Lemma insertBy_sorted x l :
  StronglySorted le l -> StronglySorted le (insertBy cmp x l).
Proof.
  induction 1 as [|y l Hl IH Hy]; simpl.
  - repeat constructor.
  - destruct (Qle_bool (cmp x y) 0) eqn:E.
    + apply cmp_le in E.
      constructor; [constructor; auto|].
      constructor; auto.
      eapply Forall_impl; [|exact Hy]. intros z Hz. eauto.
    + assert (Hyx : le y x).
      { destruct (le_total x y) as [H|H]; auto.
        apply cmp_le in H. congruence. }
      constructor; auto.
      apply Forall_forall. intros z Hz.
      apply (Permutation_in _ (Permutation_sym (insertBy_perm x l))) in Hz.
      destruct Hz as [<-|Hz]; auto.
      rewrite Forall_forall in Hy. auto.
Qed.

Lemma sortBy_sorted l : StronglySorted le (sortBy cmp l).
Proof.
  induction l as [|x l IH]; simpl.
  - constructor.
  - now apply insertBy_sorted.
Qed.

End SortBy.

Lemma StronglySorted_firstn {A} (R : A -> A -> Prop) k l :
  StronglySorted R l -> StronglySorted R (firstn k l).
Proof.
  intros H. revert k.
  induction H as [|x l Hl IH Hx]; intros [|k]; simpl; try constructor; auto.
  apply Forall_forall. intros y Hy.
  rewrite Forall_forall in Hx. apply Hx.
  rewrite <- (firstn_skipn k l). apply in_or_app. now left.
Qed.


Lemma StronglySorted_map {A B} (f : A -> B) (R : A -> A -> Prop)
    (R' : B -> B -> Prop) l :
  (forall x y, R x y -> R' (f x) (f y)) ->
  StronglySorted R l -> StronglySorted R' (map f l).
Proof.
  intros Hf. induction 1 as [|x l Hl IH Hx]; simpl; constructor; auto.
  apply Forall_forall. intros y Hy.
  apply in_map_iff in Hy. destruct Hy as [z [<- Hz]].
  rewrite Forall_forall in Hx. auto.
Qed.

Lemma slice0_firstn {A} (k : Z) (l : list A) :
  (0 <= k)%Z -> slice0 k l = firstn (Z.to_nat k) l.
Proof.
  intros Hk. unfold slice0.
  destruct (k <? 0)%Z eqn:E; [|reflexivity].
  apply Z.ltb_lt in E. lia.
Qed.

Lemma slice0_length {A} (k : Z) (l : list A) :
  (0 <= k)%Z -> length (slice0 k l) = Nat.min (Z.to_nat k) (length l).
Proof.
  intros Hk. rewrite slice0_firstn by assumption. apply length_firstn.
Qed.

Lemma mapi_from_length {A B} (f : A -> nat -> B) i l :
  length (mapi_from f i l) = length l.
Proof.
  revert i. induction l as [|x l IH]; intros i; simpl; auto.
Qed.

Lemma mapi_length {A B} (f : A -> nat -> B) l : length (mapi f l) = length l.
Proof. apply mapi_from_length. Qed.

Lemma mapi_from_nth_error {A B} (f : A -> nat -> B) i l k :
  nth_error (mapi_from f i l) k =
  option_map (fun x => f x (i + k)%nat) (nth_error l k).
Proof.
  revert i k. induction l as [|x l IH]; intros i [|k]; simpl; auto.
  - now rewrite Nat.add_0_r.
  - rewrite IH. now rewrite Nat.add_succ_r.
Qed.

Lemma mapi_In {A B} (f : A -> nat -> B) l y :
  In y (mapi f l) ->
  exists idx x, nth_error l idx = Some x /\ y = f x idx.
Proof.
  intros Hy. apply In_nth_error in Hy. destruct Hy as [k Hk].
  unfold mapi in Hk. rewrite mapi_from_nth_error in Hk.
  destruct (nth_error l k) as [x|] eqn:E; [|discriminate].
  injection Hk as <-. exists k, x. auto.
Qed.

(** ** Name matching (src/unnamed/part_000) *)

Lemma Qgtb_lt x y : Part000.Qgtb x y = true <-> y < x.
Proof.
  unfold Part000.Qgtb. rewrite negb_true_iff.
  split; intros H.
  - apply Qnot_le_lt. intros Hle. apply Qle_bool_iff in Hle. congruence.
  - destruct (Qle_bool x y) eqn:E; auto.
    apply Qle_bool_iff in E. lra.
Qed.

Lemma descending_cmp (a b : Match) :
  Qle_bool (score b - score a) 0 = true <-> score b <= score a.
Proof. rewrite Qle_bool_iff. split; intros; lra. Qed.

Example findATMsByName_scenario :
  let catalog :=
    [ mkATM (str "1") (str "Bank-Piasa") 7.06 38.47;
      mkATM (str "2") (str "Bank-Atote") 7.05 38.48;
      mkATM (str "3") (str "Bank-Pasa") 7.04 38.46 ] in
  map (fun m => (id (match_atm m), Qred (score m)))
      (Part000.findATMsByName catalog (str "piasa")) =
  [ (str "1", 1); (str "3", 1) ].
Proof. vm_compute. reflexivity. Qed.

(** ** The edit-distance table computes [lev] *)

Lemma set_nth_length {A} (l : list A) i v : length (set_nth l i v) = length l.
Proof.
  revert i. induction l as [|x l IH]; intros [|i]; simpl; auto.
Qed.

Lemma nth_set_nth_eq {A} (l : list A) i v d :
  (i < length l)%nat -> nth i (set_nth l i v) d = v.
Proof.
  revert i. induction l as [|x l IH]; intros [|i] H; simpl in *; try lia; auto.
  apply IH. lia.
Qed.

Lemma nth_set_nth_neq {A} (l : list A) i j v d :
  i <> j -> nth j (set_nth l i v) d = nth j l d.
Proof.
  revert i j. induction l as [|x l IH]; intros [|i] [|j] H; simpl; auto.
  congruence.
Qed.

Lemma set_nth_Forall {A} (P : A -> Prop) (l : list A) i v :
  Forall P l -> P v -> Forall P (set_nth l i v).
Proof.
  intros Hl Hv. revert i.
  induction Hl as [|x l Hx Hl IH]; intros [|i]; simpl; auto.
Qed.

Lemma shape_row m n dp i :
  shape m n dp -> (i <= m)%nat -> length (nth i dp []) = (n + 1)%nat.
Proof.
  intros [Hlen Hrows] Hi.
  rewrite Forall_forall in Hrows. apply Hrows, nth_In. lia.
Qed.

Lemma shape_newTable m n : shape m n (newTable m n).
Proof.
  unfold shape, newTable. split.
  - apply repeat_length.
  - apply Forall_forall. intros row Hrow.
    apply repeat_spec in Hrow. subst row. apply repeat_length.
Qed.

Lemma shape_set m n dp i j v :
  shape m n dp -> (i <= m)%nat -> shape m n (set dp i j v).
Proof.
  intros Hs Hi. pose proof (shape_row Hs Hi) as Hrow.
  destruct Hs as [Hlen Hrows]. unfold set. split.
  - now rewrite set_nth_length.
  - apply set_nth_Forall; auto. now rewrite set_nth_length.
Qed.

Lemma get_set_eq m n dp i j v :
  shape m n dp -> (i <= m)%nat -> (j <= n)%nat -> get (set dp i j v) i j = v.
Proof.
  intros Hs Hi Hj. pose proof (shape_row Hs Hi) as Hrow.
  destruct Hs as [Hlen _]. unfold get, set.
  rewrite nth_set_nth_eq by lia.
  apply nth_set_nth_eq. lia.
Qed.

Lemma get_set_neq dp i j v i' j' :
  i <> i' \/ j <> j' -> get (set dp i j v) i' j' = get dp i' j'.
Proof.
  intros H. unfold get, set.
  destruct (Nat.eq_dec i i') as [<-|Hi].
  - destruct H as [H|H]; [congruence|].
    destruct (Nat.lt_ge_cases i (length dp)) as [Hlt|Hge].
    + rewrite nth_set_nth_eq by assumption. now apply nth_set_nth_neq.
    + assert (Hout : forall (l : table) k w, (length l <= k)%nat -> set_nth l k w = l).
      { clear. induction l as [|x l IH]; intros [|k] w Hk; simpl in *; auto; try lia.
        f_equal. apply IH. lia. }
      now rewrite Hout.
  - now rewrite nth_set_nth_neq.
Qed.

Lemma fold_left_seq_inv {S} (P : nat -> S -> Prop) (body : S -> nat -> S) len :
  forall from s,
    P from s ->
    (forall k s, (from <= k < from + len)%nat -> P k s -> P (Datatypes.S k) (body s k)) ->
    P (from + len)%nat (fold_left body (seq from len) s).
Proof.
  induction len as [|len IH]; intros from s H0 Hstep; simpl.
  - now rewrite Nat.add_0_r.
  - rewrite Nat.add_succ_r, <- Nat.add_succ_l.
    apply IH.
    + apply Hstep; auto. lia.
    + intros k s' Hk. apply Hstep. lia.
Qed.

Lemma forLoop_inv {S} (P : nat -> S -> Prop) from to (body : S -> nat -> S) s :
  (from <= to + 1)%nat ->
  P from s ->
  (forall k s, (from <= k <= to)%nat -> P k s -> P (k + 1)%nat (body s k)) ->
  P (to + 1)%nat (forLoop from to body s).
Proof.
  intros Hft H0 Hstep. unfold forLoop.
  replace (to + 1)%nat with (from + (to + 1 - from))%nat at 1 by lia.
  apply fold_left_seq_inv; auto.
  intros k s' Hk HP. replace (Datatypes.S k) with (k + 1)%nat by lia.
  apply Hstep; auto. lia.
Qed.

Lemma lev_nil_r s : lev s [] = length s.
Proof. destruct s; reflexivity. Qed.

Lemma lev_cons_cons a s b t :
  lev (a :: s) (b :: t) =
  if Ascii.eqb a b then lev s t
  else min3 (lev s (b :: t) + 1) (lev (a :: s) t + 1) (lev s t + 1).
Proof. reflexivity. Qed.

Lemma lev_sym s t : lev s t = lev t s.
Proof.
  revert t. induction s as [|a s IHs]; intros t.
  - now rewrite lev_nil_r.
  - induction t as [|b t IHt]; [reflexivity|].
    rewrite !lev_cons_cons, (Ascii.eqb_sym b a).
    rewrite IHt, (IHs t), (IHs (b :: t)).
    destruct (Ascii.eqb a b); auto.
    unfold min3. lia.
Qed.

Lemma lev_le_max s t : (lev s t <= Nat.max (length s) (length t))%nat.
Proof.
  revert t. induction s as [|a s IHs]; intros t.
  - simpl. lia.
  - induction t as [|b t IHt]; [simpl; lia|].
    rewrite lev_cons_cons.
    specialize (IHs t). simpl length.
    destruct (Ascii.eqb a b); [lia|].
    unfold min3. lia.
Qed.

Lemma rev_firstn_step (s : jsstring) k :
  (k < length s)%nat ->
  rev (firstn (k + 1) s) = charAt s k :: rev (firstn k s).
Proof.
  revert k. induction s as [|c s IH]; intros k Hk; simpl in Hk; [lia|].
  destruct k as [|k].
  - reflexivity.
  - change (firstn (Datatypes.S k + 1) (c :: s)) with (c :: firstn (k + 1) s).
    change (firstn (Datatypes.S k) (c :: s)) with (c :: firstn k s).
    simpl rev. rewrite IH by lia. reflexivity.
Qed.

Section EditTable.

Variables norm1 norm2 : jsstring.

Let m := length norm1.
Let n := length norm2.

Lemma prefixDistance_col i : (i <= m)%nat -> prefixDistance norm1 norm2 i 0 = i.
Proof.
  intros Hi. unfold prefixDistance. simpl. rewrite lev_nil_r, length_rev.
  apply firstn_length_le. exact Hi.
Qed.

Lemma prefixDistance_row j : (j <= n)%nat -> prefixDistance norm1 norm2 0 j = j.
Proof.
  intros Hj. unfold prefixDistance. simpl. rewrite length_rev.
  apply firstn_length_le. exact Hj.
Qed.

Lemma prefixDistance_step i j :
  (1 <= i <= m)%nat -> (1 <= j <= n)%nat ->
  prefixDistance norm1 norm2 i j =
  if Ascii.eqb (charAt norm1 (i - 1)) (charAt norm2 (j - 1))
  then prefixDistance norm1 norm2 (i - 1) (j - 1)
  else min3 (prefixDistance norm1 norm2 (i - 1) j + 1)
            (prefixDistance norm1 norm2 i (j - 1) + 1)
            (prefixDistance norm1 norm2 (i - 1) (j - 1) + 1).
Proof.
  intros Hi Hj. unfold prefixDistance.
  destruct i as [|i]; [lia|]. destruct j as [|j]; [lia|].
  replace (Datatypes.S i - 1)%nat with i by lia.
  replace (Datatypes.S j - 1)%nat with j by lia.
  replace (Datatypes.S i) with (i + 1)%nat by lia.
  replace (Datatypes.S j) with (j + 1)%nat by lia.
  rewrite !rev_firstn_step by (fold m n; lia).
  apply lev_cons_cons.
Qed.

Lemma editTable_filled : filled norm1 norm2 (m + 1) 0 (editTable norm1 norm2).
Proof.
  unfold editTable. fold m n.
  set (dp0 := newTable m n).
  set (dp1 := forLoop 0 m _ dp0).
  set (dp2 := forLoop 0 n _ dp1).
  assert (H1 : shape m n dp1 /\
               forall i, (i < m + 1)%nat -> get dp1 i 0 = i).
  { apply (forLoop_inv (fun k dp => shape m n dp /\
                           forall i, (i < k)%nat -> get dp i 0 = i)).
    - lia.
    - split; [apply shape_newTable|]. intros i Hi. lia.
    - intros k dp Hk [Hs Hc]. split.
      + apply shape_set; auto. lia.
      + intros i Hi. destruct (Nat.eq_dec i k) as [->|Hne].
        * rewrite (@get_set_eq m n) by (try assumption; lia). reflexivity.
        * rewrite get_set_neq by auto. apply Hc. lia. }
  assert (H2 : shape m n dp2 /\
               (forall i, (i < m + 1)%nat -> get dp2 i 0 = i) /\
               forall j, (j < n + 1)%nat -> get dp2 0 j = j).
  { apply (forLoop_inv (fun k dp => shape m n dp /\
                           (forall i, (i < m + 1)%nat -> get dp i 0 = i) /\
                           forall j, (j < k)%nat -> get dp 0 j = j)).
    - lia.
    - destruct H1 as [Hs Hc].
      split; [exact Hs|split; [exact Hc|intros j Hj; lia]].
    - intros k dp Hk (Hs & Hc & Hr). split; [|split].
      + apply shape_set; auto. lia.
      + intros i Hi. destruct (Nat.eq_dec i 0) as [->|Hne].
        * destruct (Nat.eq_dec k 0) as [->|Hk0].
          -- rewrite (@get_set_eq m n) by (try assumption; lia). reflexivity.
          -- rewrite get_set_neq by auto. apply Hc. lia.
        * rewrite get_set_neq by auto. apply Hc. lia.
      + intros j Hj. destruct (Nat.eq_dec j k) as [->|Hne].
        * rewrite (@get_set_eq m n) by (try assumption; lia). reflexivity.
        * rewrite get_set_neq by auto. apply Hr. lia. }
  clearbody dp2. clear dp1 H1 dp0.
  apply (forLoop_inv (fun r dp => filled norm1 norm2 r 0 dp)).
  - lia.
  - destruct H2 as (Hs & Hc & Hr). split; auto.
    intros i j Hi Hj [->|[->|[Hlt|[-> Hlt]]]]; try lia.
    + rewrite prefixDistance_row by assumption. apply Hr. lia.
    + rewrite prefixDistance_col by assumption. apply Hc. lia.
    + assert (i = 0%nat) by lia. subst i.
      rewrite prefixDistance_row by assumption. apply Hr. lia.
  - intros r dp Hr Hfilled.
    assert (Hrow : filled norm1 norm2 r (n + 1) (forLoop 1 n (fun dp j =>
              if Ascii.eqb (charAt norm1 (r - 1)) (charAt norm2 (j - 1))
              then set dp r j (get dp (r - 1) (j - 1))
              else set dp r j (min3 (get dp (r - 1) j + 1)
                                    (get dp r (j - 1) + 1)
                                    (get dp (r - 1) (j - 1) + 1))) dp)).
    { apply (forLoop_inv (fun c dp => filled norm1 norm2 r c dp)).
      - lia.
      - destruct Hfilled as [Hs Hcells]. split; auto.
        intros i j Hi Hj Hw. apply Hcells; auto.
        unfold written in *. lia.
      - intros c dp' Hc [Hs Hcells].
        assert (Hv : (if Ascii.eqb (charAt norm1 (r - 1)) (charAt norm2 (c - 1))
                      then get dp' (r - 1) (c - 1)
                      else min3 (get dp' (r - 1) c + 1)
                                (get dp' r (c - 1) + 1)
                                (get dp' (r - 1) (c - 1) + 1))
                     = prefixDistance norm1 norm2 r c).
        { rewrite prefixDistance_step by lia.
          rewrite !Hcells; auto; unfold written; lia. }
        assert (Hset : forall v, v = prefixDistance norm1 norm2 r c -> filled norm1 norm2 r (c + 1) (set dp' r c v)).
        { intros v ->. split.
          - apply shape_set; auto. lia.
          - intros i j Hi Hj Hw.
            destruct (Nat.eq_dec i r) as [->|Hir].
            + destruct (Nat.eq_dec j c) as [->|Hjc].
              * apply (@get_set_eq m n); try assumption; lia.
              * rewrite get_set_neq by auto. apply Hcells; auto.
                unfold written in *. lia.
            + rewrite get_set_neq by auto. apply Hcells; auto.
              unfold written in *. lia. }
        destruct (Ascii.eqb (charAt norm1 (r - 1)) (charAt norm2 (c - 1)));
          apply Hset; exact Hv. }
    destruct Hrow as [Hs Hcells]. split; auto.
    intros i j Hi Hj Hw. apply Hcells; auto.
    unfold written in *. lia.
Qed.

Lemma editTable_lev :
  get (editTable norm1 norm2) m n = lev (rev norm1) (rev norm2).
Proof.
  destruct editTable_filled as [_ Hcells].
  rewrite Hcells; try lia.
  - unfold prefixDistance, m, n. now rewrite !firstn_all.
  - unfold written. destruct m; lia.
Qed.

End EditTable.

(** ** The similarity score *)

Lemma jsstring_eqb_eq s t : jsstring_eqb s t = true <-> s = t.
Proof.
  revert t. induction s as [|a s IH]; intros [|b t]; simpl;
    try (split; [discriminate|congruence]); [tauto|].
  rewrite andb_true_iff, Ascii.eqb_eq, IH.
  split; [intros [-> ->]; reflexivity|intros H; injection H; auto].
Qed.

Lemma jsstring_eqb_refl s : jsstring_eqb s s = true.
Proof. now apply jsstring_eqb_eq. Qed.

Lemma jsstring_eqb_sym s t : jsstring_eqb s t = jsstring_eqb t s.
Proof.
  revert t. induction s as [|a s IH]; intros [|b t]; simpl; auto.
  now rewrite IH, Ascii.eqb_sym.
Qed.

Lemma includes_empty s : includes s [] = true.
Proof. destruct s; reflexivity. Qed.

Lemma ofNat_ratio d maxLen :
  (d <= maxLen)%nat -> (0 < maxLen)%nat ->
  0 <= ofNat d / ofNat maxLen /\ ofNat d / ofNat maxLen <= 1.
Proof.
  intros Hd Hm. unfold ofNat.
  assert (H0 : 0 <= inject_Z (Z.of_nat d)).
  { change 0 with (inject_Z 0). rewrite <- Zle_Qle. lia. }
  assert (H1 : 0 < inject_Z (Z.of_nat maxLen)).
  { change 0 with (inject_Z 0). rewrite <- Zlt_Qlt. lia. }
  assert (H2 : inject_Z (Z.of_nat d) <= inject_Z (Z.of_nat maxLen)).
  { rewrite <- Zle_Qle. lia. }
  split.
  - apply Qle_shift_div_l; auto; lra.
  - apply Qle_shift_div_r; auto; lra.
Qed.

Example score_piasa_piassa :
  getSimilarityScore (str "piasa") (str "Piassa") == 0.8.
Proof. vm_compute. reflexivity. Qed.

Example score_levenshtein :
  getSimilarityScore (str "mnhr") (str "bnqr") == 0.5.
Proof. vm_compute. reflexivity. Qed.

(** Whenever exactly one normalized key is empty the containment branch
    answers, since every string includes the empty string. *)
Lemma getSimilarityScore_one_key_empty a b :
  normalizeText a = [] -> normalizeText b <> [] ->
  getSimilarityScore a b = 0.8 /\ getSimilarityScore b a = 0.8.
Proof.
  intros Ha Hb. unfold getSimilarityScore. rewrite Ha.
  destruct (normalizeText b) as [|c nb] eqn:E; [congruence|].
  simpl jsstring_eqb. cbv iota.
  rewrite includes_empty, orb_true_r. split; reflexivity.
Qed.

Lemma getSimilarityScore_both_keys_empty a b :
  normalizeText a = [] -> normalizeText b = [] -> getSimilarityScore a b = 1.0.
Proof.
  intros Ha Hb. unfold getSimilarityScore. rewrite Ha, Hb. reflexivity.
Qed.

(** C3, at an input with exactly one empty key. The empty query (and a
    query of vowels only) scored against "Bole" gives 0.8, not the 0 the
    claim states: [includes] is true of the empty key, so the tests
    [m === 0] and [n === 0] further down are never reached with one key
    empty.  With both keys empty the score is 1.0. *)
Theorem getSimilarityScore_empty_key_scores :
  normalizeText (str "") = [] /\
  normalizeText (str "aa") = [] /\
  normalizeText (str "Bole") = str "bl" /\
  getSimilarityScore (str "") (str "Bole") == 0.8 /\
  getSimilarityScore (str "Bole") (str "aa") == 0.8 /\
  ~ getSimilarityScore (str "") (str "Bole") == 0 /\
  getSimilarityScore (str "") (str "aa") == 1.0.
Proof.
  repeat split; try reflexivity.
  vm_compute. discriminate.
Qed.

(** C7. The score does not depend on the order of its arguments. *)
Theorem getSimilarityScore_symmetric (a b : jsstring) :
  getSimilarityScore a b = getSimilarityScore b a.
Proof.
  unfold getSimilarityScore.
  set (norm1 := normalizeText a). set (norm2 := normalizeText b).
  rewrite (jsstring_eqb_sym norm2 norm1).
  destruct (jsstring_eqb norm1 norm2); [reflexivity|].
  rewrite (orb_comm (includes norm2 norm1)).
  destruct (includes norm1 norm2 || includes norm2 norm1); [reflexivity|].
  destruct (length norm1 =? 0)%nat, (length norm2 =? 0)%nat; try reflexivity.
  rewrite !editTable_lev, (lev_sym (rev norm2)), (Nat.max_comm (length norm2)).
  reflexivity.
Qed.

(** C8. The score lies between 0 and 1, and a string scored against
    itself gives 1.0 (for every string, the non-empty ones among them). *)
Theorem getSimilarityScore_bounds :
  (forall a b : jsstring,
     0 <= getSimilarityScore a b /\ getSimilarityScore a b <= 1) /\
  (forall a : jsstring, getSimilarityScore a a == 1.0).
Proof.
  split.
  - intros a b. unfold getSimilarityScore.
    set (norm1 := normalizeText a). set (norm2 := normalizeText b).
    destruct (jsstring_eqb norm1 norm2); [split; discriminate|].
    destruct (includes norm1 norm2 || includes norm2 norm1); [split; discriminate|].
    destruct (length norm1 =? 0)%nat eqn:E1.
    { destruct (length norm2 =? 0)%nat; split; discriminate. }
    destruct (length norm2 =? 0)%nat eqn:E2; [split; discriminate|].
    apply Nat.eqb_neq in E1, E2.
    rewrite editTable_lev.
    pose proof (lev_le_max (rev norm1) (rev norm2)) as Hle.
    rewrite !length_rev in Hle.
    destruct (@ofNat_ratio (lev (rev norm1) (rev norm2))
                (Nat.max (length norm1) (length norm2))) as [H0 H1]; [lia|lia|].
    split; lra.
  - intros a. unfold getSimilarityScore.
    rewrite jsstring_eqb_refl. reflexivity.
Qed.

(** ** Proximity ranking *)

Lemma sortBy_key_sorted {A} (key : A -> Q) (l : list A) :
  StronglySorted (fun a b => key a <= key b)
                 (sortBy (fun a b => key a - key b) l).
Proof.
  apply sortBy_sorted.
  - intros x y. rewrite Qle_bool_iff. split; intros; lra.
  - intros x y. destruct (Qlt_le_dec (key x) (key y)); [left|right]; lra.
  - intros x y z; lra.
Qed.

Lemma closest10From_eq M atms refLat refLon :
  Bot.closest10From M atms refLat refLon =
  firstn 10 (geodesicOrdering M atms refLat refLon).
Proof. reflexivity. Qed.

Lemma geodesicOrdering_length M atms refLat refLon :
  length (geodesicOrdering M atms refLat refLon) = length atms.
Proof.
  unfold geodesicOrdering. now rewrite sortBy_length, length_map.
Qed.

Lemma closest10From_length M atms refLat refLon :
  length (Bot.closest10From M atms refLat refLon) = Nat.min 10 (length atms).
Proof.
  rewrite closest10From_eq, length_firstn. now rewrite geodesicOrdering_length.
Qed.

Lemma withApiDistancesOf_length routes closest10 :
  length (Bot.withApiDistancesOf routes closest10) = length closest10.
Proof. apply mapi_length. Qed.

Lemma map_mapi_from {A B C} (f : A -> nat -> B) (g : B -> C) (h : A -> C) i l :
  (forall x idx, g (f x idx) = h x) -> map g (mapi_from f i l) = map h l.
Proof.
  intros H. revert i. induction l as [|x l IH]; intros i; simpl; [reflexivity|].
  now rewrite H, IH.
Qed.

Lemma withApiDistancesOf_atms routes closest10 :
  map Bot.wa_atm (Bot.withApiDistancesOf routes closest10) = map wd_atm closest10.
Proof.
  unfold Bot.withApiDistancesOf, mapi. apply map_mapi_from. reflexivity.
Qed.

Lemma best5Of_length l : length (Bot.best5Of l) = Nat.min 5 (length l).
Proof.
  unfold Bot.best5Of. rewrite length_map.
  change (slice0 5 ?x) with (firstn 5 x).
  now rewrite length_firstn, sortBy_length.
Qed.

Lemma best5Of_sorted l :
  StronglySorted (fun a b => Bot.distance a <= Bot.distance b) (Bot.best5Of l).
Proof.
  unfold Bot.best5Of.
  apply StronglySorted_map with (R := fun a b => Bot.apiDistance a <= Bot.apiDistance b).
  - intros x y H. exact H.
  - change (slice0 5 ?x) with (firstn 5 x).
    apply StronglySorted_firstn.
    apply (sortBy_key_sorted Bot.apiDistance).
Qed.

Lemma fallback_sorted (l : list WithDistance) :
  StronglySorted (fun a b => wd_distance a <= wd_distance b) l ->
  StronglySorted (fun a b => Bot.distance a <= Bot.distance b)
                 (map Bot.ofWithDistance (slice0 5 l)).
Proof.
  intros H.
  apply StronglySorted_map with (R := fun a b => wd_distance a <= wd_distance b).
  - intros x y Hxy. exact Hxy.
  - change (slice0 5 l) with (firstn 5 l). now apply StronglySorted_firstn.
Qed.

Lemma closest10From_sorted M atms refLat refLon :
  StronglySorted (fun a b => wd_distance a <= wd_distance b)
                 (Bot.closest10From M atms refLat refLon).
Proof.
  rewrite closest10From_eq. apply StronglySorted_firstn.
  apply (sortBy_key_sorted wd_distance).
Qed.

(** Ranking around the best match is ranking around its coordinates. *)
Lemma getATMsSortedByProximity_from_best_match M atms refATM others :
  Bot.getATMsSortedByProximity M atms (refATM :: others) =
  Bot.getNearestATMs M atms (lat (match_atm refATM)) (lon (match_atm refATM)).
Proof. reflexivity. Qed.

Lemma getATMsSortedByProximity_no_reference M atms :
  Bot.getATMsSortedByProximity M atms [] = Return [].
Proof. reflexivity. Qed.

(** The older variant ranks around the best match without a routing
    request. *)
Lemma Part000_getATMsSortedByProximity_geodesic M atms refATM others limit :
  Part000.getATMsSortedByProximity M atms (refATM :: others) limit =
  Return (Part000.haversineRanking M atms
            (lat (match_atm refATM)) (lon (match_atm refATM))
            (Part000.orDefault limit)).
Proof. reflexivity. Qed.

Example fallback_scenario :
  let catalog :=
    [ mkATM (str "2") (str "Bank-Atote") 7.05 38.48;
      mkATM (str "1") (str "Bank-Piasa") 7.06 38.47 ] in
  map (fun r => (id (Part000.r_atm r), Qred (Part000.distance r), Part000.duration r))
      (run (fun _ => Part000.Rejected)
           (Part000.getNearestATMs planarMath catalog 7.06 38.47 (Some 1%Z))) =
  [ (str "1", 0, Absent) ].
Proof. vm_compute. reflexivity. Qed.

Example refined_scenario :
  let catalog :=
    [ mkATM (str "1") (str "Bank-Piasa") 7.06 38.47;
      mkATM (str "2") (str "Bank-Atote") 7.06 38.47 ] in
  let routes :=
    [ Some (Bot.mkRouteData (Some 0) (Some 0));
      Some (Bot.mkRouteData (Some 2.5) (Some 240));
      Some (Bot.mkRouteData (Some 1.2) (Some 95)) ] in
  map (fun r => (id (Bot.r_atm r), Qred (Bot.distance r), Bot.r_duration r))
      (run (fun _ => Bot.Resolved (Some routes))
           (Bot.getNearestATMs planarMath catalog 7.06 38.47)) =
  [ (str "2", Qred 1.2, Number 95); (str "1", Qred 2.5, Number 240) ].
Proof. vm_compute. reflexivity. Qed.

Lemma In_firstn_In {A} k (l : list A) x : In x (firstn k l) -> In x l.
Proof.
  intros H. rewrite <- (firstn_skipn k l). apply in_or_app. now left.
Qed.

Lemma haversineRanking_spec M atms refLat refLon K :
  (0 <= K)%Z ->
  let result := Part000.haversineRanking M atms refLat refLon K in
  length result = Nat.min (Z.to_nat K) (length atms) /\
  StronglySorted (fun a b => Part000.distance a <= Part000.distance b) result.
Proof.
  intros HK. unfold Part000.haversineRanking. split.
  - rewrite slice0_length by assumption. now rewrite sortBy_length, length_map.
  - rewrite slice0_firstn by assumption.
    apply StronglySorted_firstn, (sortBy_key_sorted Part000.distance).
Qed.

Lemma apiRanking_spec atms routes K :
  (0 <= K)%Z ->
  let result := Part000.apiRanking atms routes K in
  length result = Nat.min (Z.to_nat K) (length atms) /\
  StronglySorted (fun a b => Part000.distance a <= Part000.distance b) result.
Proof.
  intros HK. unfold Part000.apiRanking. split.
  - rewrite slice0_length by assumption. now rewrite sortBy_length, mapi_length.
  - rewrite slice0_firstn by assumption.
    apply StronglySorted_firstn, (sortBy_key_sorted Part000.distance).
Qed.

(** * Further properties of the code *)

(** ** Normalized keys *)

(** X1. A normalized key holds no vowel, no whitespace, no [t], no [k]
    (in either case) and no uppercase letter. *)
Theorem normalizeText_key_alphabet (text : jsstring) :
  Forall (fun c => isVowel c = false /\ isWhiteSpace c = false /\
                   ieq "t" c = false /\ ieq "k" c = false /\
                   toLowerCase_char c = c)
         (normalizeText text).
Proof.
  eapply Forall_impl; [|apply normalizeText_stable].
  intros c Hc. apply stable_fixed in Hc. tauto.
Qed.

Lemma replace_iya_length s : (length (replace_iya s) <= length s)%nat.
Proof.
  remember (length s) as n eqn:Hn. revert s Hn.
  induction n as [n IH] using lt_wf_ind.
  intros [|c1 [|c2 [|c3 rest]]] Hn; subst n; try (simpl; lia).
  rewrite replace_iya_cons3.
  pose proof (IH (length rest) ltac:(simpl; lia) rest eq_refl) as H1.
  pose proof (IH (length (c2 :: c3 :: rest)) ltac:(simpl; lia) _ eq_refl) as H2.
  remember (replace_iya (c2 :: c3 :: rest)) as tl2.
  destruct (ieq "i" c1 && ieq "y" c2 && ieq "a" c3); simpl length in *; lia.
Qed.

(** X2. Normalizing never lengthens a string. *)
Theorem normalizeText_length (text : jsstring) :
  (length (normalizeText text) <= length text)%nat.
Proof.
  unfold normalizeText, remove_spaces, replace_char, remove_vowels, toLowerCase.
  eapply Nat.le_trans; [apply filter_length_le|].
  rewrite !length_map.
  eapply Nat.le_trans; [apply filter_length_le|].
  eapply Nat.le_trans; [apply replace_iya_length|].
  now rewrite length_map.
Qed.






(** ** Comparable names *)

Lemma dropWhile_decomp f s :
  exists w, s = w ++ dropWhile f s /\ Forall (fun c => f c = true) w.
Proof.
  induction s as [|c s IH]; simpl.
  - exists []. auto.
  - destruct (f c) eqn:E.
    + destruct IH as (w & Hw & HF). exists (c :: w). split.
      * simpl. now rewrite <- Hw.
      * constructor; auto.
    + exists []. auto.
Qed.

Lemma dropWhile_head f s :
  match dropWhile f s with
  | [] => True
  | c :: _ => f c = false
  end.
Proof.
  induction s as [|c s IH]; simpl; auto.
  destruct (f c) eqn:E; auto.
Qed.

Lemma dropWhile_id f s :
  match s with
  | [] => True
  | c :: _ => f c = false
  end -> dropWhile f s = s.
Proof.
  destruct s as [|c s]; simpl; auto. now intros ->.
Qed.

Lemma dropWhile_In f s c : In c (dropWhile f s) -> In c s.
Proof.
  destruct (dropWhile_decomp f s) as (w & Hw & _).
  intros H. rewrite Hw. apply in_or_app. now right.
Qed.

Lemma trim_In s c : In c (trim s) -> In c s.
Proof.
  unfold trim. intros H.
  apply in_rev, dropWhile_In in H.
  apply in_rev in H. now apply dropWhile_In in H.
Qed.

Lemma trim_idempotent s : trim (trim s) = trim s.
Proof.
  unfold trim.
  set (v := dropWhile isWhiteSpace s).
  set (d := dropWhile isWhiteSpace (rev v)).
  assert (H1 : dropWhile isWhiteSpace (rev d) = rev d).
  { apply dropWhile_id.
    destruct (rev d) as [|c r] eqn:E; auto.
    destruct (dropWhile_decomp isWhiteSpace (rev v)) as (w & Hw & _).
    fold d in Hw.
    assert (Hv : v = c :: r ++ rev w).
    { rewrite <- (rev_involutive v), Hw, rev_app_distr, E. reflexivity. }
    pose proof (dropWhile_head isWhiteSpace s) as Hh. fold v in Hh.
    now rewrite Hv in Hh. }
  rewrite H1, rev_involutive.
  assert (H2 : dropWhile isWhiteSpace d = d).
  { apply dropWhile_id. apply dropWhile_head. }
  now rewrite H2.
Qed.

Lemma takeWhile_Forall f s : Forall (fun c => f c = true) (takeWhile f s).
Proof.
  induction s as [|c s IH]; simpl; auto.
  destruct (f c) eqn:E; auto.
Qed.

Lemma hasDash_false s :
  hasDash s = false -> Forall (fun c => notDash c = true) s.
Proof.
  unfold hasDash, notDash.
  induction s as [|c s IH]; simpl; auto.
  destruct (Ascii.eqb c "-") eqn:E; simpl; [discriminate|].
  intros H. constructor; auto. now rewrite E.
Qed.

Lemma extractNameAfterDash_cases fullName :
  extractNameAfterDash fullName =
  if hasDash fullName then trim (tokenAfterFirstDash fullName) else trim fullName.
Proof.
  unfold extractNameAfterDash, tokenAfterFirstDash.
  rewrite split_dash_unfold.
  destruct (hasDash fullName); [|reflexivity].
  rewrite split_dash_unfold. reflexivity.
Qed.

Lemma extractNameAfterDash_no_dash_trimmed fullName :
  Forall (fun c => notDash c = true) (extractNameAfterDash fullName) /\
  trim (extractNameAfterDash fullName) = extractNameAfterDash fullName.
Proof.
  rewrite extractNameAfterDash_cases.
  destruct (hasDash fullName) eqn:Hd; split; try apply trim_idempotent.
  - apply Forall_forall. intros c Hc. apply trim_In in Hc.
    pose proof (takeWhile_Forall notDash (tl (dropWhile notDash fullName))) as HF.
    rewrite Forall_forall in HF. now apply HF.
  - apply Forall_forall. intros c Hc. apply trim_In in Hc.
    pose proof (hasDash_false _ Hd) as HF.
    rewrite Forall_forall in HF. now apply HF.
Qed.

(** X4. The comparable name never contains the delimiter and has no
    whitespace at either end. *)
Theorem extractNameAfterDash_clean (fullName : jsstring) :
  Forall (fun c => notDash c = true) (extractNameAfterDash fullName) /\
  trim (extractNameAfterDash fullName) = extractNameAfterDash fullName.
Proof. apply extractNameAfterDash_no_dash_trimmed. Qed.

(** X5. Extracting the comparable name of a comparable name changes
    nothing. *)
Theorem extractNameAfterDash_idempotent (fullName : jsstring) :
  extractNameAfterDash (extractNameAfterDash fullName) =
  extractNameAfterDash fullName.
Proof.
  set (r := extractNameAfterDash fullName).
  destruct (extractNameAfterDash_no_dash_trimmed fullName) as [Hnd Htrim].
  fold r in Hnd, Htrim.
  rewrite (extractNameAfterDash_cases r).
  assert (Hd : hasDash r = false).
  { unfold hasDash. clear -Hnd. induction Hnd as [|c l Hc _ IH]; simpl; auto.
    unfold notDash in Hc. apply negb_true_iff in Hc. now rewrite Hc. }
  now rewrite Hd.
Qed.

(** ** The edit-distance table holds least numbers of edits *)

Lemma min3_cases a b c : min3 a b c = a \/ min3 a b c = b \/ min3 a b c = c.
Proof. unfold min3. lia. Qed.

Lemma lev_step_bounds n :
  forall s t, (length s + length t <= n)%nat ->
    (forall b, (lev s (b :: t) <= lev s t + 1)%nat) /\
    (forall a, (lev s t <= lev (a :: s) t + 1)%nat).
Proof.
  induction n as [n IH] using lt_wf_ind.
  intros s t Hn. split.
  - intros b. destruct s as [|a s'].
    + simpl. lia.
    + rewrite lev_cons_cons.
      destruct (Ascii.eqb a b).
      * destruct (IH (length s' + length t)%nat ltac:(simpl in Hn; lia) s' t (Nat.le_refl _))
          as [_ H]. apply H.
      * unfold min3. lia.
  - intros a. destruct t as [|b t'].
    + rewrite !lev_nil_r. simpl. lia.
    + rewrite lev_cons_cons.
      destruct (IH (length s + length t')%nat ltac:(simpl in Hn; lia) s t' (Nat.le_refl _))
        as [HU HQ].
      specialize (HU b). specialize (HQ a).
      destruct (Ascii.eqb a b); [lia|].
      unfold min3. lia.
Qed.

Lemma lev_insert s t b : (lev s (b :: t) <= lev s t + 1)%nat.
Proof. apply (lev_step_bounds (n := length s + length t) s t (Nat.le_refl _)). Qed.

Lemma lev_delete s t a : (lev (a :: s) t <= lev s t + 1)%nat.
Proof. rewrite (lev_sym (a :: s)), (lev_sym s). apply lev_insert. Qed.

Lemma lev_substitute s t a b : (lev (a :: s) (b :: t) <= lev s t + 1)%nat.
Proof.
  rewrite lev_cons_cons. destruct (Ascii.eqb a b); [lia|]. unfold min3. lia.
Qed.

Lemma lev_least s t k : edits s t k -> (lev s t <= k)%nat.
Proof.
  induction 1 as [|c s t k _ IH|a b s t k _ IH|a s t k _ IH|b s t k _ IH].
  - simpl. lia.
  - rewrite lev_cons_cons, Ascii.eqb_refl. exact IH.
  - pose proof (lev_substitute s t a b). lia.
  - pose proof (lev_delete s t a). lia.
  - pose proof (lev_insert s t b). lia.
Qed.

Lemma edits_from_empty t : edits [] t (length t).
Proof. induction t as [|b t IH]; simpl; constructor. exact IH. Qed.

Lemma edits_to_empty s : edits s [] (length s).
Proof. induction s as [|a s IH]; simpl; constructor. exact IH. Qed.

Lemma lev_edits s t : edits s t (lev s t).
Proof.
  revert t. induction s as [|a s IHs]; intros t.
  - apply edits_from_empty.
  - induction t as [|b t IHt].
    + apply edits_to_empty.
    + rewrite lev_cons_cons.
      destruct (Ascii.eqb a b) eqn:E.
      * apply Ascii.eqb_eq in E. subst b. apply edits_keep, IHs.
      * destruct (min3_cases (lev s (b :: t) + 1) (lev (a :: s) t + 1) (lev s t + 1))
          as [-> | [-> | ->]]; rewrite Nat.add_1_r.
        -- apply edits_delete, IHs.
        -- apply edits_insert, IHt.
        -- apply edits_substitute, IHs.
Qed.

Lemma edits_snoc_keep s t k c : edits s t k -> edits (s ++ [c]) (t ++ [c]) k.
Proof.
  induction 1; simpl; try (constructor; assumption).
  apply edits_keep, edits_nil.
Qed.

Lemma edits_snoc_substitute s t k a b :
  edits s t k -> edits (s ++ [a]) (t ++ [b]) (S k).
Proof.
  induction 1; simpl; try (constructor; assumption).
  apply edits_substitute, edits_nil.
Qed.

Lemma edits_snoc_delete s t k a : edits s t k -> edits (s ++ [a]) t (S k).
Proof.
  induction 1; simpl; try (constructor; assumption).
  apply edits_delete, edits_nil.
Qed.

Lemma edits_snoc_insert s t k b : edits s t k -> edits s (t ++ [b]) (S k).
Proof.
  induction 1; simpl; try (constructor; assumption).
  apply edits_insert, edits_nil.
Qed.

Lemma edits_rev s t k : edits s t k -> edits (rev s) (rev t) k.
Proof.
  induction 1; simpl.
  - constructor.
  - now apply edits_snoc_keep.
  - now apply edits_snoc_substitute.
  - now apply edits_snoc_delete.
  - now apply edits_snoc_insert.
Qed.

Lemma edits_lengths s t k :
  edits s t k -> (length t <= length s + k)%nat /\ (length s <= length t + k)%nat.
Proof. induction 1; simpl; lia. Qed.

Lemma edits_zero s t : edits s t 0 -> s = t.
Proof.
  intros H. remember 0%nat as k eqn:Hk.
  induction H; try discriminate; auto.
  now rewrite IHedits.
Qed.

Lemma edits_refl s : edits s s 0.
Proof. induction s; constructor; auto. Qed.

Lemma edits_compose a b k1 :
  edits a b k1 ->
  forall c k2, edits b c k2 -> exists k, (k <= k1 + k2)%nat /\ edits a c k.
Proof.
  induction 1 as [|c0 a b k1 _ IH|a0 b0 a b k1 _ IH|a0 a b k1 _ IH|b0 a b k1 H1 IH].
  - intros c k2 H2. exists k2. split; [lia|exact H2].
  - intros c k2 H2. remember (c0 :: b) as b' eqn:Hb.
    revert Hb.
    induction H2 as [|x s t k Hst _|x y s t k Hst _|x s t k Hst _|y s t k H2 IH2];
      intros Hb; try discriminate.
    + injection Hb as -> ->.
      destruct (IH _ _ Hst) as (k' & Hk & He).
      exists k'. split; [lia|]. now apply edits_keep.
    + injection Hb as -> ->.
      destruct (IH _ _ Hst) as (k' & Hk & He).
      exists (S k'). split; [lia|]. now apply edits_substitute.
    + injection Hb as -> ->.
      destruct (IH _ _ Hst) as (k' & Hk & He).
      exists (S k'). split; [lia|]. now apply edits_delete.
    + destruct (IH2 Hb) as (k' & Hk & He).
      exists (S k'). split; [lia|]. now apply edits_insert.
  - intros c k2 H2. remember (b0 :: b) as b' eqn:Hb.
    revert Hb.
    induction H2 as [|x s t k Hst _|x y s t k Hst _|x s t k Hst _|y s t k H2 IH2];
      intros Hb; try discriminate.
    + injection Hb as -> ->.
      destruct (IH _ _ Hst) as (k' & Hk & He).
      exists (S k'). split; [lia|]. now apply edits_substitute.
    + injection Hb as -> ->.
      destruct (IH _ _ Hst) as (k' & Hk & He).
      exists (S k'). split; [lia|]. now apply edits_substitute.
    + injection Hb as -> ->.
      destruct (IH _ _ Hst) as (k' & Hk & He).
      exists (S k'). split; [lia|]. now apply edits_delete.
    + destruct (IH2 Hb) as (k' & Hk & He).
      exists (S k'). split; [lia|]. now apply edits_insert.
  - intros c k2 H2.
    destruct (IH _ _ H2) as (k' & Hk & He).
    exists (S k'). split; [lia|]. now apply edits_delete.
  - intros c k2 H2. remember (b0 :: b) as b' eqn:Hb.
    revert Hb.
    induction H2 as [|x s t k Hst _|x y s t k Hst _|x s t k Hst _|y s t k H2 IH2];
      intros Hb; try discriminate.
    + injection Hb as -> ->.
      destruct (IH _ _ Hst) as (k' & Hk & He).
      exists (S k'). split; [lia|]. now apply edits_insert.
    + injection Hb as -> ->.
      destruct (IH _ _ Hst) as (k' & Hk & He).
      exists (S k'). split; [lia|]. now apply edits_insert.
    + injection Hb as -> ->.
      destruct (IH _ _ Hst) as (k' & Hk & He).
      exists k'. split; [lia|]. exact He.
    + destruct (IH2 Hb) as (k' & Hk & He).
      exists (S k'). split; [lia|]. now apply edits_insert.
Qed.

Lemma editTable_cell norm1 norm2 i j :
  (i <= length norm1)%nat -> (j <= length norm2)%nat ->
  get (editTable norm1 norm2) i j = prefixDistance norm1 norm2 i j.
Proof.
  intros Hi Hj. destruct (editTable_filled norm1 norm2) as [_ Hcells].
  apply Hcells; auto. unfold written. lia.
Qed.

(** X6. Every cell [dp[i][j]] of the table, and so [dp[m][n]] for the
    whole keys, holds the least number of single-character insertions,
    deletions and substitutions that turn the first [i] characters of
    one key into the first [j] characters of the other. *)
Theorem editTable_cells_least_edits (norm1 norm2 : jsstring) (i j : nat) :
  (i <= length norm1)%nat -> (j <= length norm2)%nat ->
  edits (firstn i norm1) (firstn j norm2) (get (editTable norm1 norm2) i j) /\
  forall k, edits (firstn i norm1) (firstn j norm2) k ->
            (get (editTable norm1 norm2) i j <= k)%nat.
Proof.
  intros Hi Hj. rewrite editTable_cell by assumption. unfold prefixDistance.
  split.
  - rewrite <- (rev_involutive (firstn i norm1)), <- (rev_involutive (firstn j norm2)) at 1.
    apply edits_rev, lev_edits.
  - intros k Hk. apply lev_least, edits_rev, Hk.
Qed.

Lemma editTable_cells_least_edits_witness :
  edits (str "qbl") (str "qrbl") (get (editTable (str "qbl") (str "qrbl")) 3 4) /\
  get (editTable (str "qbl") (str "qrbl")) 3 4 = 1%nat.
Proof.
  split.
  - apply (proj1 (@editTable_cells_least_edits (str "qbl") (str "qrbl") 3 4
                    ltac:(simpl; lia) ltac:(simpl; lia))).
  - reflexivity.
Defined.

Lemma editDistance_lev norm1 norm2 :
  editDistance norm1 norm2 = lev (rev norm1) (rev norm2).
Proof. apply editTable_lev. Qed.

(** X7. The distance read from the table is a metric on keys: it is 0
    exactly for equal keys, symmetric, and obeys the triangle
    inequality; it is at least the difference of the lengths and at most
    the greater length. *)
Theorem editDistance_metric (a b c : jsstring) :
  (editDistance a b = 0%nat <-> a = b) /\
  editDistance a b = editDistance b a /\
  (editDistance a c <= editDistance a b + editDistance b c)%nat /\
  (length a - length b <= editDistance a b)%nat /\
  (length b - length a <= editDistance a b)%nat /\
  (editDistance a b <= Nat.max (length a) (length b))%nat.
Proof.
  rewrite !editDistance_lev.
  split; [|split; [|split; [|split; [|split]]]].
  - split.
    + intros H0. pose proof (lev_edits (rev a) (rev b)) as He.
      rewrite H0 in He. apply edits_zero in He.
      now rewrite <- (rev_involutive a), He, rev_involutive.
    + intros ->. apply Nat.le_0_r. apply lev_least, edits_refl.
  - apply lev_sym.
  - destruct (edits_compose (lev_edits (rev a) (rev b)) (lev_edits (rev b) (rev c)))
      as (k & Hk & He).
    apply lev_least in He. lia.
  - pose proof (edits_lengths (lev_edits (rev a) (rev b))) as [H1 H2].
    rewrite !length_rev in *. lia.
  - pose proof (edits_lengths (lev_edits (rev a) (rev b))) as [H1 H2].
    rewrite !length_rev in *. lia.
  - pose proof (lev_le_max (rev a) (rev b)) as H. now rewrite !length_rev in H.
Qed.

(** ** Scores and matches *)

Lemma getSimilarityScore_range a b :
  0 <= getSimilarityScore a b /\ getSimilarityScore a b <= 1.
Proof.
  unfold getSimilarityScore.
  set (norm1 := normalizeText a). set (norm2 := normalizeText b).
  destruct (jsstring_eqb norm1 norm2); [split; discriminate|].
  destruct (includes norm1 norm2 || includes norm2 norm1); [split; discriminate|].
  destruct (length norm1 =? 0)%nat eqn:E1.
  { destruct (length norm2 =? 0)%nat; split; discriminate. }
  destruct (length norm2 =? 0)%nat eqn:E2; [split; discriminate|].
  apply Nat.eqb_neq in E1, E2.
  rewrite editTable_lev.
  pose proof (lev_le_max (rev norm1) (rev norm2)) as Hle.
  rewrite !length_rev in Hle.
  destruct (@ofNat_ratio (lev (rev norm1) (rev norm2))
              (Nat.max (length norm1) (length norm2))) as [H0 H1]; [lia|lia|].
  split; lra.
Qed.

Lemma ofNat_ratio_pos d maxLen :
  (0 < d)%nat -> (0 < maxLen)%nat -> 0 < ofNat d / ofNat maxLen.
Proof.
  intros Hd Hm. unfold ofNat.
  assert (H0 : 0 < inject_Z (Z.of_nat d)).
  { change 0 with (inject_Z 0). rewrite <- Zlt_Qlt. lia. }
  assert (H1 : 0 < inject_Z (Z.of_nat maxLen)).
  { change 0 with (inject_Z 0). rewrite <- Zlt_Qlt. lia. }
  apply Qlt_shift_div_l; auto; lra.
Qed.

Lemma getSimilarityScore_one_iff a b :
  getSimilarityScore a b == 1 <-> normalizeText a = normalizeText b.
Proof.
  unfold getSimilarityScore.
  set (norm1 := normalizeText a). set (norm2 := normalizeText b).
  destruct (jsstring_eqb norm1 norm2) eqn:E.
  { apply jsstring_eqb_eq in E. split; [auto|reflexivity]. }
  assert (Hne : norm1 <> norm2).
  { intros H. apply jsstring_eqb_eq in H. congruence. }
  split; [|intros H; contradiction].
  intros H. exfalso. revert H.
  destruct (includes norm1 norm2 || includes norm2 norm1); [discriminate|].
  destruct (length norm1 =? 0)%nat eqn:E1.
  { destruct (length norm2 =? 0)%nat eqn:E2; [|discriminate].
    apply Nat.eqb_eq in E1, E2.
    apply length_zero_iff_nil in E1, E2. congruence. }
  destruct (length norm2 =? 0)%nat eqn:E2; [discriminate|].
  apply Nat.eqb_neq in E1, E2.
  rewrite editTable_lev. intros H.
  assert (Hd : (0 < lev (rev norm1) (rev norm2))%nat).
  { destruct (lev (rev norm1) (rev norm2)) eqn:E0; [|lia].
    pose proof (lev_edits (rev norm1) (rev norm2)) as He.
    rewrite E0 in He. apply edits_zero in He.
    exfalso. apply Hne.
    now rewrite <- (rev_involutive norm1), He, rev_involutive. }
  pose proof (@ofNat_ratio_pos _ (Nat.max (length norm1) (length norm2)) Hd
                ltac:(lia)) as Hpos.
  lra.
Qed.

(** X8. The score is 1 exactly when the two normalized keys are
    identical; containment and edit distance never reach it. *)
Theorem getSimilarityScore_exact_match (a b : jsstring) :
  getSimilarityScore a b == 1 <-> normalizeText a = normalizeText b.
Proof. apply getSimilarityScore_one_iff. Qed.




Lemma scoreAll_atms atms searchName :
  map match_atm (Part000.scoreAll atms searchName) = atms.
Proof.
  unfold Part000.scoreAll. rewrite map_map. simpl. apply map_id.
Qed.

(** X10. A query whose key is empty (the empty string, or vowels and
    whitespace only) matches the whole catalog: every entry passes the
    threshold. *)
Theorem findATMsByName_empty_key (atms : list ATM) (searchName : jsstring) :
  normalizeText searchName = [] ->
  Permutation (map match_atm (Part000.findATMsByName atms searchName)) atms /\
  length (Part000.findATMsByName atms searchName) = length atms.
Proof.
  intros Hq.
  assert (Hall : filter (fun m => Part000.Qgtb (score m) 0.3)
                        (Part000.scoreAll atms searchName) =
                 Part000.scoreAll atms searchName).
  { apply filter_all. apply Forall_forall. intros m Hm.
    unfold Part000.scoreAll in Hm. apply in_map_iff in Hm.
    destruct Hm as [atm [<- _]]. simpl.
    destruct (normalizeText (extractNameAfterDash (name atm))) as [|c k] eqn:E.
    - rewrite (getSimilarityScore_both_keys_empty _ _ Hq E). reflexivity.
    - assert (Hne : normalizeText (extractNameAfterDash (name atm)) <> [])
        by (rewrite E; discriminate).
      destruct (getSimilarityScore_one_key_empty _ _ Hq Hne) as [-> _].
      reflexivity. }
  assert (Hperm : Permutation (Part000.findATMsByName atms searchName)
                              (Part000.scoreAll atms searchName)).
  { unfold Part000.findATMsByName. rewrite Hall. apply sortBy_perm. }
  split.
  - rewrite <- (scoreAll_atms atms searchName) at 2. now apply Permutation_map.
  - rewrite (Permutation_length Hperm).
    unfold Part000.scoreAll. apply length_map.
Qed.

Lemma findATMsByName_empty_key_witness :
  length (Part000.findATMsByName
            [ mkATM (str "1") (str "Bank-Piasa") 7.06 38.47;
              mkATM (str "2") (str "Bank-Atote") 7.05 38.48 ]
            (str "aeo u")) = 2%nat.
Proof.
  apply (proj2 (@findATMsByName_empty_key
                  [ mkATM (str "1") (str "Bank-Piasa") 7.06 38.47;
                    mkATM (str "2") (str "Bank-Atote") 7.05 38.48 ]
                  (str "aeo u") eq_refl)).
Defined.

(** X11. When some catalog name has the query's key, the first match is
    such an entry, with score 1. *)
Theorem findATMsByName_exact_match_first
    (atms : list ATM) (searchName : jsstring) (atm : ATM) :
  In atm atms ->
  normalizeText (extractNameAfterDash (name atm)) = normalizeText searchName ->
  exists first others,
    Part000.findATMsByName atms searchName = first :: others /\
    score first == 1 /\
    normalizeText (extractNameAfterDash (name (match_atm first))) =
      normalizeText searchName.
Proof.
  intros Hin Hkey.
  set (result := Part000.findATMsByName atms searchName).
  set (scoreOf := fun x => getSimilarityScore searchName (extractNameAfterDash (name x))).
  assert (Hperm : Permutation result
            (filter (fun m => Part000.Qgtb (score m) 0.3)
                    (Part000.scoreAll atms searchName))).
  { apply sortBy_perm. }
  assert (Hsorted : StronglySorted (fun x y => score y <= score x) result).
  { apply sortBy_sorted.
    - apply descending_cmp.
    - intros x y. destruct (Qlt_le_dec (score x) (score y)); [right|left]; lra.
    - intros x y z; lra. }
  assert (Hmem : forall m, In m result ->
            score m = scoreOf (match_atm m)).
  { intros m Hm. apply (Permutation_in _ Hperm) in Hm.
    apply filter_In in Hm. destruct Hm as [Hm _].
    unfold Part000.scoreAll in Hm. apply in_map_iff in Hm.
    destruct Hm as [x [<- _]]. reflexivity. }
  assert (Hc : In (mkMatch atm (scoreOf atm)) result).
  { apply (Permutation_in _ (Permutation_sym Hperm)).
    apply filter_In. split.
    - unfold Part000.scoreAll. apply in_map_iff. exists atm. auto.
    - simpl. apply Qgtb_lt.
      assert (H1 : scoreOf atm == 1).
      { apply getSimilarityScore_one_iff. now symmetry. }
      rewrite H1. reflexivity. }
  destruct result as [|first others] eqn:E; [contradiction|].
  exists first, others. split; [reflexivity|].
  assert (Hfirst : score first == 1).
  { assert (H1 : scoreOf atm == 1).
    { apply getSimilarityScore_one_iff. now symmetry. }
    assert (Hle : score first <= 1).
    { rewrite (Hmem first (or_introl eq_refl)). apply getSimilarityScore_range. }
    assert (Hge : 1 <= score first).
    { destruct Hc as [Hc|Hc]; [rewrite Hc; simpl; lra|].
      inversion Hsorted as [|? ? _ Hall]; subst.
      rewrite Forall_forall in Hall. specialize (Hall _ Hc). simpl in Hall. lra. }
    lra. }
  split; [exact Hfirst|].
  rewrite (Hmem first (or_introl eq_refl)) in Hfirst.
  apply getSimilarityScore_one_iff in Hfirst. now symmetry.
Qed.

Lemma findATMsByName_exact_match_first_witness :
  exists first others,
    Part000.findATMsByName
      [ mkATM (str "2") (str "Bank-Atote") 7.05 38.48;
        mkATM (str "1") (str "Bank-Piasa") 7.06 38.47 ]
      (str "piasa") = first :: others /\
    score first == 1 /\
    normalizeText (extractNameAfterDash (name (match_atm first))) =
      normalizeText (str "piasa").
Proof.
  apply (@findATMsByName_exact_match_first
           [ mkATM (str "2") (str "Bank-Atote") 7.05 38.48;
             mkATM (str "1") (str "Bank-Piasa") 7.06 38.47 ]
           (str "piasa")
           (mkATM (str "1") (str "Bank-Piasa") 7.06 38.47)).
  - right. left. reflexivity.
  - reflexivity.
Defined.

(** ** Rankings *)

Lemma drawnFrom_firstn {A} k (l : list A) : drawnFrom (firstn k l) l.
Proof. exists (skipn k l). now rewrite firstn_skipn. Qed.

Lemma drawnFrom_trans {A} (l1 l2 l3 : list A) :
  drawnFrom l1 l2 -> drawnFrom l2 l3 -> drawnFrom l1 l3.
Proof.
  intros [r1 H1] [r2 H2]. exists (r1 ++ r2).
  rewrite app_assoc, H1. exact H2.
Qed.

Lemma drawnFrom_perm {A} (l l' : list A) : Permutation l l' -> drawnFrom l l'.
Proof. intros H. exists []. now rewrite app_nil_r. Qed.

Lemma drawnFrom_map {A B} (f : A -> B) (l l' : list A) :
  drawnFrom l l' -> drawnFrom (map f l) (map f l').
Proof.
  intros [r H]. exists (map f r). rewrite <- map_app. now apply Permutation_map.
Qed.

Lemma slice0_drawnFrom {A} (e : Z) (l : list A) : drawnFrom (slice0 e l) l.
Proof. unfold slice0. destruct (e <? 0)%Z; apply drawnFrom_firstn. Qed.

Lemma geodesicOrdering_atms M atms refLat refLon :
  Permutation (map wd_atm (geodesicOrdering M atms refLat refLon)) atms.
Proof.
  unfold geodesicOrdering.
  rewrite (Permutation_map wd_atm (sortBy_perm _ _)).
  rewrite map_map. simpl. now rewrite map_id.
Qed.

Lemma closest10From_drawnFrom M atms refLat refLon :
  drawnFrom (map wd_atm (Bot.closest10From M atms refLat refLon)) atms.
Proof.
  rewrite closest10From_eq.
  eapply drawnFrom_trans.
  - apply drawnFrom_map, drawnFrom_firstn.
  - apply drawnFrom_perm, geodesicOrdering_atms.
Qed.

(** X12. A ranking never invents or repeats an ATM: in both variants,
    whatever the routing service answers and whatever the limit, the
    returned entries are entries of the catalog, none more often than
    it occurs there. *)
Theorem getNearestATMs_entries_from_catalog
    (M : MathLib) (atms : list ATM) (userLat userLon : Q) :
  (forall service : Bot.Request -> Bot.Outcome,
     drawnFrom (map Bot.r_atm (run service (Bot.getNearestATMs M atms userLat userLon)))
               atms) /\
  (forall (service : Part000.Request -> Part000.Outcome) (limit : option Z),
     drawnFrom (map Part000.r_atm
                    (run service (Part000.getNearestATMs M atms userLat userLon limit)))
               atms).
Proof.
  split.
  - intros service.
    assert (Hfallback :
      drawnFrom (map Bot.r_atm (map Bot.ofWithDistance
                   (slice0 5 (Bot.closest10From M atms userLat userLon)))) atms).
    { rewrite map_map. simpl.
      eapply drawnFrom_trans; [|apply closest10From_drawnFrom].
      apply (drawnFrom_map wd_atm), slice0_drawnFrom. }
    unfold Bot.getNearestATMs. simpl run.
    destruct (service _) as [|[routes|]]; simpl run; try exact Hfallback.
    unfold Bot.best5Of. rewrite map_map. simpl.
    eapply drawnFrom_trans; [|apply closest10From_drawnFrom].
    rewrite <- (withApiDistancesOf_atms routes).
    eapply drawnFrom_trans.
    + apply (drawnFrom_map Bot.wa_atm), slice0_drawnFrom.
    + apply drawnFrom_map, drawnFrom_perm, sortBy_perm.
  - intros service limit. unfold Part000.getNearestATMs. simpl run.
    assert (Hfallback : forall k,
      drawnFrom (map Part000.r_atm (Part000.haversineRanking M atms userLat userLon k))
                atms).
    { intros k. unfold Part000.haversineRanking.
      eapply drawnFrom_trans.
      - apply (drawnFrom_map Part000.r_atm), slice0_drawnFrom.
      - apply drawnFrom_perm.
        rewrite (Permutation_map Part000.r_atm (sortBy_perm _ _)).
        rewrite map_map. simpl. now rewrite map_id. }
    destruct (service _) as [|[routes|]]; simpl run; try apply Hfallback.
    unfold Part000.apiRanking.
    eapply drawnFrom_trans.
    + apply (drawnFrom_map Part000.r_atm), slice0_drawnFrom.
    + apply drawnFrom_perm.
      rewrite (Permutation_map Part000.r_atm (sortBy_perm _ _)).
      unfold mapi. rewrite (@map_mapi_from _ _ _ _ Part000.r_atm (fun x => x)).
      * now rewrite map_id.
      * reflexivity.
Qed.

Lemma best5Of_In r l :
  In r (Bot.best5Of l) ->
  exists w, In w l /\
    Bot.r_atm r = Bot.wa_atm w /\
    Bot.distance r = Bot.apiDistance w /\
    Bot.r_apiDistance r = Number (Bot.apiDistance w) /\
    Bot.r_duration r = Bot.fieldOf (Bot.duration w) /\
    Bot.r_haversineDistance r = Number (Bot.haversineDistance w).
Proof.
  unfold Bot.best5Of. intros Hr.
  apply in_map_iff in Hr. destruct Hr as [w [<- Hw]].
  change (slice0 5 ?x) with (firstn 5 x) in Hw.
  apply In_firstn_In, sortBy_In in Hw.
  exists w. simpl. auto 10.
Qed.

(** X13. When the response array has a distance for every short-listed
    candidate, the result is purely refined: every returned entry shows
    the road distance and time of its own candidate, and keeps the
    geodesic distance aside in [haversineDistance]. *)
Theorem getNearestATMs_fully_refined
    (M : MathLib) (atms : list ATM) (userLat userLon : Q)
    (service : Bot.Request -> Bot.Outcome)
    (routes : list (option Bot.RouteData)) :
  let shortlist := Bot.closest10From M atms userLat userLon in
  service (Bot.gebetaOneToMany userLat userLon shortlist) = Bot.Resolved (Some routes) ->
  (forall idx, (idx < length shortlist)%nat ->
     exists rd d, nth_error routes (idx + 1) = Some (Some rd) /\
                  Bot.rd_distance rd = Some d) ->
  Forall (fun r =>
            exists idx c rd d,
              nth_error shortlist idx = Some c /\
              nth_error routes (idx + 1) = Some (Some rd) /\
              Bot.rd_distance rd = Some d /\
              Bot.r_atm r = wd_atm c /\
              Bot.distance r = d /\
              Bot.r_apiDistance r = Number d /\
              Bot.r_duration r = Bot.fieldOf (Bot.rd_time rd) /\
              Bot.r_haversineDistance r = Number (wd_distance c))
         (run service (Bot.getNearestATMs M atms userLat userLon)).
Proof.
  intros shortlist Hresp Hcover.
  unfold Bot.getNearestATMs. simpl run. fold shortlist. rewrite Hresp. simpl run.
  apply Forall_forall. intros r Hr.
  apply best5Of_In in Hr.
  destruct Hr as (w & Hw & Hatm & Hdist & Hapi & Hdur & Hhav).
  apply mapi_In in Hw. destruct Hw as (idx & c & Hc & ->).
  assert (Hidx : (idx < length shortlist)%nat).
  { apply nth_error_Some. congruence. }
  destruct (Hcover idx Hidx) as (rd & d & Hrd & Hd).
  exists idx, c, rd, d.
  simpl in Hatm, Hdist, Hapi, Hdur, Hhav.
  rewrite Hrd in Hdist, Hapi, Hdur.
  destruct rd as [rdist rtime]. simpl in Hd. subst rdist.
  simpl in Hdist, Hapi, Hdur.
  repeat split; auto.
  rewrite Hdur. destruct rtime; reflexivity.
Qed.

Lemma getNearestATMs_fully_refined_witness :
  let catalog :=
    [ mkATM (str "1") (str "Bank-Piasa") 7.06 38.47;
      mkATM (str "2") (str "Bank-Atote") 7.06 38.47 ] in
  let routes :=
    [ Some (Bot.mkRouteData (Some 0) (Some 0));
      Some (Bot.mkRouteData (Some 2.5) (Some 240));
      Some (Bot.mkRouteData (Some 1.2) None) ] in
  Forall (fun r => exists d, Bot.distance r = d /\ Bot.r_apiDistance r = Number d)
         (run (fun _ => Bot.Resolved (Some routes))
              (Bot.getNearestATMs planarMath catalog 7.06 38.47)).
Proof.
  intros catalog routes.
  eapply Forall_impl;
    [|apply (@getNearestATMs_fully_refined planarMath catalog 7.06 38.47
               (fun _ => Bot.Resolved (Some routes)) routes eq_refl)].
  - intros r (idx & c & rd & d & _ & _ & _ & _ & Hd & Ha & _). exists d. auto.
  - intros idx Hidx.
    destruct idx as [|[|idx]].
    + exists (Bot.mkRouteData (Some 2.5) (Some 240)), 2.5. split; reflexivity.
    + exists (Bot.mkRouteData (Some 1.2) None), 1.2. split; reflexivity.
    + exfalso. vm_compute in Hidx. lia.
Defined.

Lemma sortBy_of_sorted {A} (cmp : A -> A -> Q) (le : A -> A -> Prop) l :
  (forall x y, le x y -> Qle_bool (cmp x y) 0 = true) ->
  StronglySorted le l -> sortBy cmp l = l.
Proof.
  intros Hle. induction 1 as [|x l Hl IH Hx]; simpl; [reflexivity|].
  rewrite IH. destruct l as [|y l']; [reflexivity|].
  simpl. inversion Hx as [|? ? Hxy _]; subst.
  now rewrite (Hle _ _ Hxy).
Qed.

Lemma StronglySorted_mapi_from {A B} (f : A -> nat -> B)
    (R : A -> A -> Prop) (R' : B -> B -> Prop) i l :
  (forall x y j k, R x y -> R' (f x j) (f y k)) ->
  StronglySorted R l -> StronglySorted R' (mapi_from f i l).
Proof.
  intros Hf H. revert i.
  induction H as [|x l Hl IH Hx]; intros i; simpl; constructor; auto.
  apply Forall_forall. intros y Hy.
  apply In_nth_error in Hy. destruct Hy as [k Hk].
  rewrite mapi_from_nth_error in Hk.
  destruct (nth_error l k) as [z|] eqn:E; [|discriminate].
  injection Hk as <-. apply Hf.
  rewrite Forall_forall in Hx. apply Hx. eapply nth_error_In; eauto.
Qed.

(** X14. When the response array gives no distance for any short-listed
    candidate (an empty array, an array with the origin entry only,
    entries without [distance]), the ranking is the geodesic one: the
    same ATMs with the same distances in the same order as the
    fallback. *)
Theorem getNearestATMs_unusable_routes
    (M : MathLib) (atms : list ATM) (userLat userLon : Q)
    (service : Bot.Request -> Bot.Outcome)
    (routes : list (option Bot.RouteData)) :
  let shortlist := Bot.closest10From M atms userLat userLon in
  let result := run service (Bot.getNearestATMs M atms userLat userLon) in
  service (Bot.gebetaOneToMany userLat userLon shortlist) = Bot.Resolved (Some routes) ->
  (forall idx rd, nth_error routes (idx + 1) = Some (Some rd) ->
                  Bot.rd_distance rd = None) ->
  map Bot.r_atm result =
    map wd_atm (firstn 5 (geodesicOrdering M atms userLat userLon)) /\
  map Bot.distance result =
    map wd_distance (firstn 5 (geodesicOrdering M atms userLat userLon)).
Proof.
  intros shortlist result Hresp Hnone.
  assert (Hres : result = Bot.best5Of (Bot.withApiDistancesOf routes shortlist)).
  { unfold result, Bot.getNearestATMs. simpl run. fold shortlist.
    rewrite Hresp. reflexivity. }
  set (W := Bot.withApiDistancesOf routes shortlist) in *.
  assert (Hdist : map Bot.apiDistance W = map wd_distance shortlist).
  { unfold W, Bot.withApiDistancesOf, mapi. apply map_mapi_from.
    intros c i. simpl.
    destruct (nth_error routes (i + 1)) as [[[rdist rtime]|]|] eqn:E; try reflexivity.
    pose proof (Hnone _ _ E) as Hn. simpl in Hn. subst rdist. reflexivity. }
  assert (Hatm : map Bot.wa_atm W = map wd_atm shortlist)
    by apply withApiDistancesOf_atms.
  assert (Hsorted : StronglySorted
            (fun a b => Bot.apiDistance a <= Bot.apiDistance b) W).
  { unfold W, Bot.withApiDistancesOf, mapi.
    apply StronglySorted_mapi_from
      with (R := fun a b => wd_distance a <= wd_distance b).
    - intros x y j k Hxy. simpl.
      assert (Hx : forall c i,
                match nth_error routes (i + 1) with
                | Some (Some {| Bot.rd_distance := Some d |}) => d
                | _ => wd_distance c
                end = wd_distance c).
      { intros c i.
        destruct (nth_error routes (i + 1)) as [[[rdist rtime]|]|] eqn:E; try reflexivity.
        pose proof (Hnone _ _ E) as Hn. simpl in Hn. subst rdist. reflexivity. }
      now rewrite !Hx.
    - apply closest10From_sorted. }
  assert (Hid : sortBy (fun a b => Bot.apiDistance a - Bot.apiDistance b) W = W).
  { apply sortBy_of_sorted with (le := fun a b => Bot.apiDistance a <= Bot.apiDistance b).
    - intros x y Hxy. apply Qle_bool_iff. lra.
    - exact Hsorted. }
  assert (Htop : firstn 5 shortlist = firstn 5 (geodesicOrdering M atms userLat userLon)).
  { unfold shortlist. rewrite closest10From_eq. now rewrite firstn_firstn. }
  rewrite Hres. unfold Bot.best5Of. rewrite Hid.
  change (slice0 5 W) with (firstn 5 W).
  rewrite !map_map, <- Htop. split.
  - change (map Bot.wa_atm (firstn 5 W) = map wd_atm (firstn 5 shortlist)).
    now rewrite <- !firstn_map, Hatm.
  - change (map Bot.apiDistance (firstn 5 W) = map wd_distance (firstn 5 shortlist)).
    now rewrite <- !firstn_map, Hdist.
Qed.

Lemma getNearestATMs_unusable_routes_witness :
  let catalog :=
    [ mkATM (str "2") (str "Bank-Atote") 7.05 38.48;
      mkATM (str "1") (str "Bank-Piasa") 7.06 38.47 ] in
  map (fun r => id (Bot.r_atm r))
      (run (fun _ => Bot.Resolved (Some [Some (Bot.mkRouteData None (Some 7))]))
           (Bot.getNearestATMs planarMath catalog 7.06 38.47)) =
  map (fun c => id (wd_atm c))
      (firstn 5 (geodesicOrdering planarMath catalog 7.06 38.47)).
Proof.
  intros catalog.
  pose proof (@getNearestATMs_unusable_routes planarMath catalog 7.06 38.47
                (fun _ => Bot.Resolved (Some [Some (Bot.mkRouteData None (Some 7))]))
                [Some (Bot.mkRouteData None (Some 7))] eq_refl) as H.
  assert (Hnone : forall idx rd,
            nth_error [Some (Bot.mkRouteData None (Some 7))] (idx + 1) = Some (Some rd) ->
            Bot.rd_distance rd = None).
  { intros idx rd. rewrite Nat.add_1_r. simpl. destruct idx; discriminate. }
  destruct (H Hnone) as [Hatm _].
  rewrite <- (map_map Bot.r_atm id), <- (map_map wd_atm id).
  now rewrite Hatm.
Defined.

(** ** Loading the catalog *)

Lemma split_nonempty sep s : split sep s <> [].
Proof.
  destruct s as [|c s]; simpl; [discriminate|].
  destruct (Ascii.eqb c sep); [discriminate|].
  destruct (split sep s); discriminate.
Qed.

Lemma split_no_sep sep s :
  forallb (fun c => negb (Ascii.eqb c sep)) s = true -> split sep s = [s].
Proof.
  induction s as [|c s IH]; simpl; [reflexivity|].
  intros H. apply andb_true_iff in H. destruct H as [Hc Hs].
  apply negb_true_iff in Hc. rewrite Hc, (IH Hs). reflexivity.
Qed.

Lemma split_app_sep sep a b :
  forallb (fun c => negb (Ascii.eqb c sep)) a = true ->
  split sep (a ++ sep :: b) = a :: split sep b.
Proof.
  induction a as [|c a IH]; simpl.
  - intros _. now rewrite Ascii.eqb_refl.
  - intros H. apply andb_true_iff in H. destruct H as [Hc Ha].
    apply negb_true_iff in Hc. rewrite Hc, (IH Ha). reflexivity.
Qed.

Lemma split_parts sep s part :
  In part (split sep s) ->
  Forall (fun c => c <> sep /\ In c s) part.
Proof.
  revert part. induction s as [|c s IH]; simpl; intros part Hp.
  - destruct Hp as [<-|[]]. constructor.
  - destruct (Ascii.eqb c sep) eqn:E.
    + destruct Hp as [<-|Hp]; [constructor|].
      eapply Forall_impl; [|apply (IH _ Hp)]. intros x [Hx Hin]. auto.
    + destruct (split sep s) as [|p ps] eqn:Es.
      * destruct Hp as [<-|[]]. constructor; [|constructor].
        split; auto. intros ->. rewrite Ascii.eqb_refl in E. discriminate.
      * destruct Hp as [<-|Hp].
        -- constructor.
           ++ split; auto. intros ->. rewrite Ascii.eqb_refl in E. discriminate.
           ++ eapply Forall_impl; [|apply (IH p (or_introl eq_refl))].
              intros x [Hx Hin]. auto.
        -- eapply Forall_impl; [|apply (IH part (or_intror Hp))].
           intros x [Hx Hin]. auto.
Qed.

Lemma flat_map_length_le {A B} (f : A -> list B) l :
  (forall x, (length (f x) <= 1)%nat) ->
  (length (flat_map f l) <= length l)%nat.
Proof.
  intros Hf. induction l as [|x l IH]; simpl; [lia|].
  rewrite length_app. specialize (Hf x). lia.
Qed.

Lemma loadLine_length parseFloat line : (length (loadLine parseFloat line) <= 1)%nat.
Proof.
  unfold loadLine.
  destruct (split "," line) as [|f1 [|f2 [|f3 [|f4 rest]]]]; simpl; try lia.
  destruct (nonEmpty f1 && nonEmpty f2 && nonEmpty f3 && nonEmpty f4); simpl; lia.
Qed.

Lemma loadLine_In parseFloat line atm :
  In atm (loadLine parseFloat line) ->
  exists f1 f2 f3 f4 rest,
    split "," line = f1 :: f2 :: f3 :: f4 :: rest /\
    f1 <> [] /\ f2 <> [] /\ f3 <> [] /\ f4 <> [] /\
    atm = mkATM (trim f1) (trim f2) (parseFloat (trim f3)) (parseFloat (trim f4)).
Proof.
  unfold loadLine.
  destruct (split "," line) as [|f1 [|f2 [|f3 [|f4 rest]]]]; simpl; try tauto.
  destruct f1, f2, f3, f4; simpl; try tauto.
  intros [<-|[]]. do 5 eexists. repeat split; discriminate.
Qed.

(** X16. [loadATMs] does not read the first line of the trimmed file:
    what it loads is determined by the text after the first line feed
    (nothing, when there is none), at most one ATM per further line.  The
    [id] and [name] it stores are trimmed and hold no comma and no line
    feed. *)
Theorem loadATMs_rows (parseFloat : jsstring -> Q) (data : jsstring) :
  (forall header rest,
     trim data = header ++ "010"%char :: rest -> noNewline header = true ->
     loadATMs parseFloat data = flat_map (loadLine parseFloat) (split "010" rest)) /\
  (noNewline (trim data) = true -> loadATMs parseFloat data = []) /\
  (length (loadATMs parseFloat data) <= length (split "010" (trim data)) - 1)%nat /\
  Forall (fun atm =>
            trim (id atm) = id atm /\ trim (name atm) = name atm /\
            Forall (fun c => c <> ","%char /\ c <> "010"%char) (id atm) /\
            Forall (fun c => c <> ","%char /\ c <> "010"%char) (name atm))
         (loadATMs parseFloat data).
Proof.
  unfold loadATMs. split; [|split; [|split]].
  - intros header rest Hdata Hheader. rewrite Hdata.
    unfold noNewline in Hheader. rewrite (split_app_sep _ _ _ Hheader). reflexivity.
  - intros Honly. unfold noNewline in Honly. rewrite (split_no_sep _ _ Honly). reflexivity.
  - eapply Nat.le_trans.
    + apply flat_map_length_le. apply loadLine_length.
    + rewrite length_skipn. lia.
  - apply Forall_forall. intros atm Hatm.
    apply in_flat_map in Hatm. destruct Hatm as (line & Hline & Hatm).
    assert (Hnl : Forall (fun c => c <> "010"%char) line).
    { assert (Hin : In line (split "010" (trim data))).
      { rewrite <- (firstn_skipn 1). apply in_or_app. now right. }
      eapply Forall_impl; [|apply (split_parts _ _ _ Hin)]. intros c [Hc _]. exact Hc. }
    apply loadLine_In in Hatm.
    destruct Hatm as (f1 & f2 & f3 & f4 & rest & Hsplit & _ & _ & _ & _ & ->).
    assert (Hfield : forall f, In f (split "," line) ->
              Forall (fun c => c <> ","%char /\ c <> "010"%char) (trim f)).
    { intros f Hf. apply Forall_forall. intros c Hc. apply trim_In in Hc.
      pose proof (split_parts _ _ _ Hf) as Hp.
      rewrite Forall_forall in Hp. destruct (Hp c Hc) as [Hcomma Hinline].
      split; auto. rewrite Forall_forall in Hnl. auto. }
    simpl. repeat split; try apply trim_idempotent; apply Hfield; rewrite Hsplit; simpl; auto.
Qed.

Lemma loadATMs_rows_witness :
  loadATMs (fun _ => 0)
    (str "id,name,lat,lon" ++ "010"%char :: str "1,Bank-Piasa,7.06,38.47") =
  flat_map (loadLine (fun _ => 0)) (split "010" (str "1,Bank-Piasa,7.06,38.47")).
Proof.
  apply (proj1 (loadATMs_rows (fun _ => 0)
                  (str "id,name,lat,lon" ++ "010"%char :: str "1,Bank-Piasa,7.06,38.47"))
               (str "id,name,lat,lon") (str "1,Bank-Piasa,7.06,38.47")).
  - vm_compute. reflexivity.
  - vm_compute. reflexivity.
Defined.

(** The header is not read even when it has the shape of a row, and a
    carriage return inside a field is kept. *)
Example loadATMs_header_and_carriage_return :
  map (fun atm => (id atm, name atm))
      (loadATMs (fun _ => 0)
         (str "9,Header,1,1" ++ "010"%char :: str "1,a" ++ "013"%char :: str "b,2,3")) =
  [ (str "1", str "a" ++ "013"%char :: str "b") ].
Proof. vm_compute. reflexivity. Qed.

Lemma forallb_weaken {A} (p q : A -> bool) l :
  (forall x, p x = true -> q x = true) -> forallb p l = true -> forallb q l = true.
Proof.
  intros Hpq. induction l as [|x l IH]; simpl; auto.
  intros H. apply andb_true_iff in H. destruct H as [Hx Hl].
  now rewrite (Hpq _ Hx), (IH Hl).
Qed.

Lemma plainField_spec f :
  plainField f = true ->
  f <> [] /\
  forallb (fun c => negb (Ascii.eqb c ",")) f = true /\
  noNewline f = true.
Proof.
  unfold plainField, noNewline. intros H.
  apply andb_true_iff in H. destruct H as [Hne Hall].
  split; [destruct f; [discriminate|discriminate]|].
  split; eapply forallb_weaken; try exact Hall; intros c Hc;
    apply andb_true_iff in Hc; tauto.
Qed.

Lemma noNewline_app a b :
  noNewline a = true -> noNewline b = true -> noNewline (a ++ b) = true.
Proof.
  unfold noNewline. intros Ha Hb. rewrite forallb_app. now rewrite Ha, Hb.
Qed.

Lemma csvLine_noNewline r : plainRow r = true -> noNewline (csvLine r) = true.
Proof.
  unfold plainRow, csvLine. intros H.
  apply andb_true_iff in H. destruct H as [H H4].
  apply andb_true_iff in H. destruct H as [H H3].
  apply andb_true_iff in H. destruct H as [H1 H2].
  apply plainField_spec in H1, H2, H3, H4.
  destruct H1 as (_ & _ & H1), H2 as (_ & _ & H2),
           H3 as (_ & _ & H3), H4 as (_ & _ & H4).
  unfold noNewline in *.
  repeat (rewrite forallb_app; simpl).
  repeat match goal with
         | Hf : forallb _ _ = true |- _ => rewrite Hf; clear Hf
         end.
  reflexivity.
Qed.

Lemma loadLine_csvLine parseFloat r :
  plainRow r = true ->
  loadLine parseFloat (csvLine r) =
  [ mkATM (trim (csv_id r)) (trim (csv_name r))
          (parseFloat (trim (csv_lat r))) (parseFloat (trim (csv_lon r))) ].
Proof.
  unfold plainRow, csvLine, loadLine. intros H.
  apply andb_true_iff in H. destruct H as [H H4].
  apply andb_true_iff in H. destruct H as [H H3].
  apply andb_true_iff in H. destruct H as [H1 H2].
  apply plainField_spec in H1, H2, H3, H4.
  destruct H1 as (N1 & H1 & _), H2 as (N2 & H2 & _),
           H3 as (N3 & H3 & _), H4 as (N4 & H4 & _).
  rewrite !split_app_sep by assumption.
  rewrite split_no_sep by assumption.
  destruct (csv_id r), (csv_name r), (csv_lat r), (csv_lon r); try congruence.
  reflexivity.
Qed.

Lemma split_csvFile header rows :
  noNewline header = true -> forallb plainRow rows = true ->
  split "010" (csvFile header rows) = header :: map csvLine rows.
Proof.
  unfold csvFile. revert header.
  induction rows as [|r rows IH]; intros header Hh Hrows; simpl.
  - rewrite app_nil_r. now apply split_no_sep.
  - apply andb_true_iff in Hrows. destruct Hrows as [Hr Hrows].
    rewrite split_app_sep by exact Hh.
    f_equal. apply IH; auto. now apply csvLine_noNewline.
Qed.

(** X17. On a file made of a header line and rows of four non-empty
    fields without commas or line breaks (and no whitespace around the
    file), [loadATMs] yields one ATM per row, in order, with its fields
    trimmed and its coordinates parsed. *)
Theorem loadATMs_csvFile (parseFloat : jsstring -> Q)
    (header : jsstring) (rows : list CsvRow) :
  noNewline header = true ->
  forallb plainRow rows = true ->
  trim (csvFile header rows) = csvFile header rows ->
  loadATMs parseFloat (csvFile header rows) =
  map (fun r => mkATM (trim (csv_id r)) (trim (csv_name r))
                      (parseFloat (trim (csv_lat r)))
                      (parseFloat (trim (csv_lon r))))
      rows.
Proof.
  intros Hh Hrows Htrim. unfold loadATMs.
  rewrite Htrim, split_csvFile by assumption. simpl skipn.
  clear Htrim. induction rows as [|r rows IH]; simpl; [reflexivity|].
  simpl in Hrows. apply andb_true_iff in Hrows. destruct Hrows as [Hr Hrows].
  rewrite loadLine_csvLine by assumption. simpl. f_equal. now apply IH.
Qed.

Lemma loadATMs_csvFile_witness :
  map (fun atm => (id atm, name atm))
      (loadATMs (fun _ => 0)
         (csvFile (str "id,name,lat,lon")
            [ mkCsvRow (str "1") (str "Bank-Piasa") (str "7.06") (str "38.47");
              mkCsvRow (str " 2") (str "Bank - Atote ") (str "7.05") (str "38.48") ])) =
  [ (str "1", str "Bank-Piasa"); (str "2", str "Bank - Atote") ].
Proof.
  rewrite (@loadATMs_csvFile (fun _ => 0) (str "id,name,lat,lon")
             [ mkCsvRow (str "1") (str "Bank-Piasa") (str "7.06") (str "38.47");
               mkCsvRow (str " 2") (str "Bank - Atote ") (str "7.05") (str "38.48") ]
             eq_refl eq_refl eq_refl).
  reflexivity.
Defined.

(** ** The message handlers *)

Lemma run_bind {Req Ans A B} (service : Req -> Ans)
    (p : Async Req Ans A) (f : A -> Async Req Ans B) :
  run service (bind p f) = run service (f (run service p)).
Proof.
  induction p as [a|req k IH]; simpl; [reflexivity|]. apply IH.
Qed.

Lemma concat_mapi_from_length {A B} (f : A -> nat -> list B) i l :
  (forall x idx, length (f x idx) = 2%nat) ->
  length (concat (mapi_from f i l)) = (2 * length l)%nat.
Proof.
  intros Hf. revert i. induction l as [|x l IH]; intros i; simpl; [reflexivity|].
  rewrite length_app, Hf, IH. lia.
Qed.

Lemma concat_mapi_from_In {A B} (f : A -> nat -> list B) i l y :
  In y (concat (mapi_from f i l)) -> exists x idx, In y (f x idx).
Proof.
  revert i. induction l as [|x l IH]; intros i; simpl; [tauto|].
  intros H. apply in_app_or in H. destruct H as [H|H]; eauto.
Qed.

Lemma Part000_atmReplies_length l :
  length (Part000Handlers.atmReplies l) = (2 * length l)%nat.
Proof.
  unfold Part000Handlers.atmReplies, mapi.
  apply concat_mapi_from_length. reflexivity.
Qed.

Lemma Part000_atmReplies_In l r :
  In r (Part000Handlers.atmReplies l) ->
  r <> NoneFound /\ r <> NoneNearby.
Proof.
  unfold Part000Handlers.atmReplies, mapi. intros H.
  apply concat_mapi_from_In in H. destruct H as (x & idx & [<-|[<-|[]]]);
    split; discriminate.
Qed.

Lemma Bot_atmReplies_length l :
  length (BotHandlers.atmReplies l) = (2 * length l)%nat.
Proof.
  unfold BotHandlers.atmReplies, mapi.
  apply concat_mapi_from_length. reflexivity.
Qed.

Lemma Bot_atmReplies_In l r :
  In r (BotHandlers.atmReplies l) -> r <> NoneNearby.
Proof.
  unfold BotHandlers.atmReplies, mapi. intros H.
  apply concat_mapi_from_In in H. destruct H as (x & idx & [<-|[<-|[]]]);
    discriminate.
Qed.

Lemma Bot_getNearestATMs_length M atms userLat userLon service :
  length (run service (Bot.getNearestATMs M atms userLat userLon)) =
  Nat.min 5 (length atms).
Proof.
  unfold Bot.getNearestATMs. simpl run.
  destruct (service _) as [|[routes|]]; simpl run.
  - rewrite length_map. change (slice0 5 ?x) with (firstn 5 x).
    rewrite length_firstn, closest10From_length. lia.
  - rewrite best5Of_length, withApiDistancesOf_length, closest10From_length. lia.
  - rewrite length_map. change (slice0 5 ?x) with (firstn 5 x).
    rewrite length_firstn, closest10From_length. lia.
Qed.

Lemma Part000_getNearestATMs_length M atms userLat userLon service :
  length (run service (Part000.getNearestATMs M atms userLat userLon (Some 5%Z))) =
  Nat.min 5 (length atms).
Proof.
  unfold Part000.getNearestATMs. simpl run.
  destruct (service _) as [|[routes|]]; simpl run.
  - apply (@haversineRanking_spec M atms userLat userLon 5). lia.
  - apply (@apiRanking_spec atms routes 5). lia.
  - apply (@haversineRanking_spec M atms userLat userLon 5). lia.
Qed.

Lemma findATMsByName_length_le atms searchName :
  (length (Part000.findATMsByName atms searchName) <= length atms)%nat.
Proof.
  unfold Part000.findATMsByName, Part000.scoreAll.
  rewrite sortBy_length.
  eapply Nat.le_trans; [apply filter_length_le|]. now rewrite length_map.
Qed.

(** X18. The text handler of src/unnamed/part_000: a text that starts
    with [/] after trimming gets no reply; any other text gets
    "Searching" first, then either the one "no match" reply carrying the
    trimmed text, or a header and a text and a location for each of
    min(5, |catalog|) ATMs.  "No ATMs found. Please try again." is never
    sent, and no more than twelve replies are. *)
Theorem onText_replies (M : MathLib) (atms : list ATM)
    (service : Part000.Request -> Part000.Outcome) (text : jsstring) :
  let searchText := trim text in
  let matching := Part000.findATMsByName atms searchText in
  let replies := run service (Part000Handlers.onText M atms text) in
  (startsWith searchText (str "/") = true -> replies = []) /\
  (startsWith searchText (str "/") = false ->
     hd_error replies = Some Searching /\
     (matching = [] -> replies = [Searching; NoMatch searchText]) /\
     (matching <> [] ->
        length replies = (2 + 2 * Nat.min 5 (length atms))%nat)) /\
  ~ In NoneFound replies /\
  (length replies <= 12)%nat.
Proof.
  intros searchText matching replies.
  unfold replies, Part000Handlers.onText. fold searchText. fold matching.
  destruct (startsWith searchText (str "/")) eqn:Ecmd.
  { cbn [run]. split; [reflexivity|]. split; [discriminate|].
    split; [intros []|]. cbn [length]. lia. }
  destruct matching as [|first others] eqn:Em.
  { cbn [length Nat.eqb run]. split; [discriminate|]. split.
    - intros _. split; [reflexivity|]. split; [reflexivity|].
      intros H. congruence.
    - split.
      + intros [H|[H|[]]]; discriminate.
      + cbn [length]. lia. }
  assert (Hatms : (1 <= length atms)%nat).
  { pose proof (findATMsByName_length_le atms searchText) as H.
    fold matching in H. rewrite Em in H. cbn [length] in H. lia. }
  cbn [length Nat.eqb]. rewrite run_bind. cbn [run Part000.getATMsSortedByProximity].
  set (sorted := Part000.haversineRanking M atms _ _ _).
  assert (Hlen : length sorted = Nat.min 5 (length atms)).
  { apply (@haversineRanking_spec M atms _ _ 5). lia. }
  assert (Hnz : (length sorted =? 0)%nat = false).
  { apply Nat.eqb_neq. lia. }
  rewrite Hnz. cbn [length]. rewrite Part000_atmReplies_length, Hlen.
  split; [discriminate|]. split.
  - intros _. split; [reflexivity|]. split; [discriminate|]. intros _. lia.
  - split.
    + intros [H|[H|H]]; try discriminate.
      apply Part000_atmReplies_In in H. tauto.
    + lia.
Qed.

(** X19. The location handlers of both variants: "Finding" comes first;
    with an empty catalog the only other reply is "No ATMs found
    nearby", and otherwise a header and a text and a location for each
    of min(5, |catalog|) ATMs follow, whatever the routing service
    answers. *)
Theorem onLocation_replies (M : MathLib) (atms : list ATM) (latitude longitude : Q) :
  (forall service : Part000.Request -> Part000.Outcome,
     let replies := run service (Part000Handlers.onLocation M atms latitude longitude) in
     hd_error replies = Some FindingNearest /\
     (atms = [] -> replies = [FindingNearest; NoneNearby]) /\
     (atms <> [] ->
        length replies = (2 + 2 * Nat.min 5 (length atms))%nat /\
        ~ In NoneNearby replies)) /\
  (forall service : Bot.Request -> Bot.Outcome,
     let replies := run service (BotHandlers.onLocation M atms latitude longitude) in
     hd_error replies = Some FindingNearest /\
     (atms = [] -> replies = [FindingNearest; NoneNearby]) /\
     (atms <> [] ->
        length replies = (2 + 2 * Nat.min 5 (length atms))%nat /\
        ~ In NoneNearby replies)).
Proof.
  split.
  - intros service replies. unfold replies, Part000Handlers.onLocation.
    rewrite run_bind. cbn [run].
    pose proof (Part000_getNearestATMs_length M atms latitude longitude service) as Hlen.
    set (nearest := run service (Part000.getNearestATMs M atms latitude longitude _)) in *.
    clearbody nearest.
    split; [reflexivity|]. split.
    + intros ->. simpl in Hlen. apply length_zero_iff_nil in Hlen.
      now rewrite Hlen.
    + intros Hne.
      assert (Hpos : (1 <= length atms)%nat) by (destruct atms; [congruence|simpl; lia]).
      assert (Hnz : (length nearest =? 0)%nat = false) by (apply Nat.eqb_neq; lia).
      rewrite Hnz. cbn [length]. rewrite Part000_atmReplies_length, Hlen.
      split; [lia|].
      intros [H|[H|H]]; try discriminate.
      apply Part000_atmReplies_In in H. tauto.
  - intros service replies. unfold replies, BotHandlers.onLocation.
    rewrite run_bind. cbn [run].
    pose proof (Bot_getNearestATMs_length M atms latitude longitude service) as Hlen.
    set (nearest := run service (Bot.getNearestATMs M atms latitude longitude)) in *.
    clearbody nearest.
    split; [reflexivity|]. split.
    + intros ->. simpl in Hlen. apply length_zero_iff_nil in Hlen.
      now rewrite Hlen.
    + intros Hne.
      assert (Hpos : (1 <= length atms)%nat) by (destruct atms; [congruence|simpl; lia]).
      assert (Hnz : (length nearest =? 0)%nat = false) by (apply Nat.eqb_neq; lia).
      rewrite Hnz. cbn [length]. rewrite Bot_atmReplies_length, Hlen.
      split; [lia|].
      intros [H|[H|H]]; try discriminate.
      apply Bot_atmReplies_In in H. tauto.
Qed.

(** ** Great-circle distance *)

Lemma haversine_term (M : MathLib) (u v : Q) :
  (forall x y, x == y -> Math_sin M x == Math_sin M y) ->
  (forall x, Math_sin M (- x) == - Math_sin M x) ->
  u == - v ->
  Math_sin M u * Math_sin M u == Math_sin M v * Math_sin M v.
Proof.
  intros Hsin Hodd Huv.
  rewrite (Hsin u (- v) Huv), Hodd. ring.
Qed.

(** X20. The great-circle distance does not depend on the direction:
    from A to B it is what it is from B to A, for any [Math] whose sine
    is odd (and whose functions give equal results on equal numbers). *)
Theorem calculateDistance_symmetric (M : MathLib) (lat1 lon1 lat2 lon2 : Q) :
  (forall x y, x == y -> Math_sin M x == Math_sin M y) ->
  (forall x, Math_sin M (- x) == - Math_sin M x) ->
  (forall x y, x == y -> Math_sqrt M x == Math_sqrt M y) ->
  (forall y y' x x', y == y' -> x == x' ->
                     Math_atan2 M y x == Math_atan2 M y' x') ->
  calculateDistance M lat1 lon1 lat2 lon2 ==
  calculateDistance M lat2 lon2 lat1 lon1.
Proof.
  intros Hsin Hodd Hsqrt Hatan. unfold calculateDistance. cbv zeta.
  assert (Hlat : Math_sin M ((lat2 - lat1) * Math_PI M / 180 / 2) *
                 Math_sin M ((lat2 - lat1) * Math_PI M / 180 / 2) ==
                 Math_sin M ((lat1 - lat2) * Math_PI M / 180 / 2) *
                 Math_sin M ((lat1 - lat2) * Math_PI M / 180 / 2)).
  { apply haversine_term; auto. field. }
  assert (Hlon : Math_sin M ((lon2 - lon1) * Math_PI M / 180 / 2) *
                 Math_sin M ((lon2 - lon1) * Math_PI M / 180 / 2) ==
                 Math_sin M ((lon1 - lon2) * Math_PI M / 180 / 2) *
                 Math_sin M ((lon1 - lon2) * Math_PI M / 180 / 2)).
  { apply haversine_term; auto. field. }
  set (s1 := Math_sin M ((lat2 - lat1) * Math_PI M / 180 / 2)) in *.
  set (s2 := Math_sin M ((lat1 - lat2) * Math_PI M / 180 / 2)) in *.
  set (t1 := Math_sin M ((lon2 - lon1) * Math_PI M / 180 / 2)) in *.
  set (t2 := Math_sin M ((lon1 - lon2) * Math_PI M / 180 / 2)) in *.
  set (c1 := Math_cos M (lat1 * Math_PI M / 180)).
  set (c2 := Math_cos M (lat2 * Math_PI M / 180)).
  assert (Ha : s1 * s1 + c1 * c2 * t1 * t1 == s2 * s2 + c2 * c1 * t2 * t2).
  { rewrite Hlat.
    transitivity (s2 * s2 + c2 * c1 * (t1 * t1)); [ring|].
    rewrite Hlon. ring. }
  apply Qmult_comp; [reflexivity|].
  apply Qmult_comp; [reflexivity|].
  apply Hatan.
  - apply Hsqrt, Ha.
  - apply Hsqrt. rewrite Ha. reflexivity.
Qed.

Lemma calculateDistance_symmetric_witness :
  calculateDistance planarMath 7.06 38.47 7.05 38.48 ==
  calculateDistance planarMath 7.05 38.48 7.06 38.47.
Proof.
  apply calculateDistance_symmetric; simpl.
  - intros x y H. exact H.
  - intros x. reflexivity.
  - intros x y H. exact H.
  - intros y y' x x' Hy Hx. rewrite Hy, Hx. reflexivity.
Defined.

(** X21. The distance from a point to itself is 0, for any [Math] with
    sin 0 = 0, sqrt 0 = 0 and atan2(0, sqrt 1) = 0. *)
Theorem calculateDistance_self (M : MathLib) (lat0 lon0 : Q) :
  (forall x y, x == y -> Math_sin M x == Math_sin M y) ->
  Math_sin M 0 == 0 ->
  (forall x y, x == y -> Math_sqrt M x == Math_sqrt M y) ->
  Math_sqrt M 0 == 0 ->
  (forall y y' x x', y == y' -> x == x' ->
                     Math_atan2 M y x == Math_atan2 M y' x') ->
  Math_atan2 M 0 (Math_sqrt M 1) == 0 ->
  calculateDistance M lat0 lon0 lat0 lon0 == 0.
Proof.
  intros Hsin Hsin0 Hsqrt Hsqrt0 Hatan Hatan0.
  unfold calculateDistance. cbv zeta.
  assert (Hlat : Math_sin M ((lat0 - lat0) * Math_PI M / 180 / 2) == 0).
  { rewrite <- Hsin0. apply Hsin. field. }
  assert (Hlon : Math_sin M ((lon0 - lon0) * Math_PI M / 180 / 2) == 0).
  { rewrite <- Hsin0. apply Hsin. field. }
  set (s := Math_sin M ((lat0 - lat0) * Math_PI M / 180 / 2)) in *.
  set (t := Math_sin M ((lon0 - lon0) * Math_PI M / 180 / 2)) in *.
  set (c := Math_cos M (lat0 * Math_PI M / 180)).
  assert (Ha : s * s + c * c * t * t == 0).
  { clearbody s t c. rewrite Hlat, Hlon. ring. }
  assert (Hc : Math_atan2 M (Math_sqrt M (s * s + c * c * t * t))
                 (Math_sqrt M (1 - (s * s + c * c * t * t))) == 0).
  { rewrite <- Hatan0. apply Hatan.
    - rewrite <- Hsqrt0. apply Hsqrt, Ha.
    - apply Hsqrt. rewrite Ha. ring. }
  rewrite Hc. ring.
Qed.

Lemma calculateDistance_self_witness :
  calculateDistance planarMath 7.06 38.47 7.06 38.47 == 0.
Proof.
  apply calculateDistance_self; simpl.
  - intros x y H. exact H.
  - reflexivity.
  - intros x y H. exact H.
  - reflexivity.
  - intros y y' x x' Hy Hx. rewrite Hy, Hx. reflexivity.
  - reflexivity.
Defined.

(** ** Ties in the geodesic ranking *)

Lemma filter_firstn {A} (p : A -> bool) n (l : list A) :
  exists k, filter p (firstn n l) = firstn k (filter p l).
Proof.
  revert n. induction l as [|x l IH]; intros [|n]; simpl;
    try (exists 0%nat; reflexivity).
  destruct (IH n) as [k Hk]. destruct (p x).
  - exists (S k). simpl. now rewrite Hk.
  - exists k. exact Hk.
Qed.

Lemma filter_slice0 {A} (p : A -> bool) e (l : list A) :
  exists k, filter p (slice0 e l) = firstn k (filter p l).
Proof. unfold slice0. destruct (e <? 0)%Z; apply filter_firstn. Qed.

Lemma filter_map_pred {A B} (f : A -> B) (p : B -> bool) l :
  filter p (map f l) = map f (filter (fun x => p (f x)) l).
Proof.
  induction l as [|x l IH]; simpl; [reflexivity|].
  destruct (p (f x)); simpl; now rewrite IH.
Qed.

(** * The code over double-precision numbers *)

Import Floats.
#[local] Set Warnings "-inexact-float".

(** ** Rounding, signs and order of binary64 numbers *)

Section DoubleArithmetic.

#[local] Open Scope Z_scope.

Lemma digits2_pos_bounds (p : positive) :
  2 ^ (Zpos (digits2_pos p) - 1) <= Zpos p < 2 ^ Zpos (digits2_pos p).
Proof.
  induction p as [p IH|p IH|]; cbn [digits2_pos].
  - rewrite Pos2Z.inj_succ.
    replace (Z.succ (Zpos (digits2_pos p)) - 1) with (Z.succ (Zpos (digits2_pos p) - 1)) by lia.
    rewrite !Z.pow_succ_r by lia. lia.
  - rewrite Pos2Z.inj_succ.
    replace (Z.succ (Zpos (digits2_pos p)) - 1) with (Z.succ (Zpos (digits2_pos p) - 1)) by lia.
    rewrite !Z.pow_succ_r by lia. lia.
  - cbn. lia.
Qed.

Lemma shr_1_m (mrs : shr_record) :
  0 <= shr_m mrs -> shr_m (shr_1 mrs) = shr_m mrs / 2.
Proof.
  destruct mrs as [m r s]; cbn [shr_m].
  destruct m as [|[p|p|]|p]; cbn [shr_1 shr_m]; intros H; try lia.
  - reflexivity.
  - rewrite Pos2Z.pos_xI. apply Z.div_unique with 1; lia.
  - rewrite Pos2Z.pos_xO. apply Z.div_unique with 0; lia.
  - reflexivity.
Qed.

Lemma iter_pos_shr_1_m (n : positive) : forall mrs,
  0 <= shr_m mrs -> shr_m (iter_pos shr_1 n mrs) = shr_m mrs / 2 ^ Zpos n.
Proof.
  assert (HS : forall mrs, 0 <= shr_m mrs -> 0 <= shr_m (shr_1 mrs)).
  { intros mrs H. rewrite shr_1_m by assumption. apply Z.div_pos; lia. }
  induction n as [n IH|n IH|]; intros mrs H; cbn [iter_pos].
  - rewrite IH, IH, shr_1_m; auto.
    + rewrite !Z.div_div by lia. f_equal.
      replace (Zpos n~1) with (1 + Zpos n + Zpos n) by lia.
      rewrite !Z.pow_add_r by lia. change (2 ^ 1) with 2; lia.
    + rewrite IH by auto. apply Z.div_pos; auto. lia.
  - rewrite IH, IH; auto.
    + rewrite !Z.div_div by lia. f_equal.
      replace (Zpos n~0) with (Zpos n + Zpos n) by lia.
      rewrite !Z.pow_add_r by lia. reflexivity.
    + rewrite IH by auto. apply Z.div_pos; auto. lia.
  - rewrite shr_1_m by assumption. reflexivity.
Qed.


Lemma fexp_eq x : SpecFloat.fexp prec emax x = Z.max (x - 53) (-1074).
Proof. reflexivity. Qed.

Lemma shr_record_of_loc_m m l : shr_m (shr_record_of_loc m l) = m.
Proof. destruct l as [|[]]; reflexivity. Qed.

Lemma shr_fexp_pos m e l :
  0 < m -> -1074 <= e ->
  0 < shr_m (fst (shr_fexp prec emax m e l)) /\ -1074 <= snd (shr_fexp prec emax m e l).
Proof.
  intros Hm He. unfold shr_fexp, shr.
  destruct m as [|p|p]; try lia. cbn [Zdigits2].
  pose proof (digits2_pos_bounds p) as Hd.
  rewrite fexp_eq.
  destruct (Z.max (Zpos (digits2_pos p) + e - 53) (-1074) - e) as [|n|n] eqn:Hn;
    cbn [fst snd]; rewrite ?shr_record_of_loc_m; try (split; lia).
  rewrite iter_pos_shr_1_m by (rewrite shr_record_of_loc_m; lia).
  rewrite shr_record_of_loc_m. split; [|lia].
  assert (Hnd : Zpos n = Zpos (digits2_pos p) - 53) by lia.
  apply Z.lt_le_trans with (2 ^ 52); [reflexivity|].
  apply Z.div_le_lower_bound; [apply Z.pow_pos_nonneg; lia|].
  rewrite <- Z.pow_add_r by lia.
  replace (Zpos n + 52) with (Zpos (digits2_pos p) - 1) by lia. lia.
Qed.

Lemma round_nearest_even_pos m l : 0 < m -> 0 < round_nearest_even m l.
Proof.
  intros H. destruct l as [|[]]; cbn [round_nearest_even]; try lia.
  destruct (Z.even m); lia.
Qed.

Lemma binary_round_aux_signed s m e l :
  0 < m -> -1074 <= e -> signed s (binary_round_aux prec emax s m e l).
Proof.
  intros Hm He. unfold binary_round_aux.
  destruct (shr_fexp_pos l Hm He) as [H1 H2].
  destruct (shr_fexp prec emax m e l) as [mrs' e']. cbn [fst snd] in H1, H2.
  pose proof (round_nearest_even_pos (loc_of_shr_record mrs') H1) as H3.
  destruct (shr_fexp_pos loc_Exact H3 H2) as [H4 H5].
  destruct (shr_fexp prec emax _ e' loc_Exact) as [mrs'' e'']. cbn [fst snd] in H4, H5.
  destruct (shr_m mrs'') as [|q|q]; try lia.
  destruct (e'' <=? emax - prec); [left; eauto|right; reflexivity].
Qed.

Lemma binary_round_signed s m e :
  -1074 <= e -> signed s (binary_round prec emax s m e).
Proof.
  intros He. unfold binary_round, shl_align.
  rewrite fexp_eq.
  destruct (Z.max (Zpos (digits2_pos m) + e - 53) (-1074) - e) eqn:Hn;
    apply binary_round_aux_signed; lia.
Qed.

Lemma signed_compare_zero s X z :
  signed s X -> SFcompare X (S754_zero z) = Some (if s then Lt else Gt).
Proof. intros [(m & e & ->)| ->]; reflexivity. Qed.

Lemma binary_normalize_compare_zero d e z :
  -1074 <= e ->
  SFcompare (binary_normalize prec emax d e false) (S754_zero z) = Some (d ?= 0).
Proof.
  intros He. destruct d as [|p|p]; cbn [binary_normalize].
  - reflexivity.
  - apply (signed_compare_zero z (binary_round_signed false p He)).
  - apply (signed_compare_zero z (binary_round_signed true p He)).
Qed.

Lemma canonical_bounds m e :
  canonical_mantissa prec emax m e = true ->
  -1074 <= e /\ Zpos m < 2 ^ 53 /\ (-1074 < e -> 2 ^ 52 <= Zpos m).
Proof.
  unfold canonical_mantissa. rewrite fexp_eq. intros H; apply Z.eqb_eq in H.
  pose proof (digits2_pos_bounds m) as Hd.
  assert (Hle : Zpos (digits2_pos m) <= 53) by lia.
  split; [lia|]. split.
  - apply Z.lt_le_trans with (2 ^ Zpos (digits2_pos m)); [lia|].
    apply Z.pow_le_mono_r; lia.
  - intros He. assert (Heq : Zpos (digits2_pos m) = 53) by lia.
    rewrite Heq in Hd. apply Hd.
Qed.

Lemma shl_align_value m e e' :
  e' <= e ->
  Zpos (fst (shl_align m e e')) = Zpos m * 2 ^ (e - e').
Proof.
  intros H. unfold shl_align.
  destruct (e' - e) as [|d|d] eqn:Hd; cbn [fst]; try lia.
  - replace (e - e') with 0 by lia. lia.
  - replace (e - e') with (Zpos d) by lia.
    clear. induction d as [|d IH] using Pos.peano_ind.
    + cbn. lia.
    + rewrite Pos.iter_succ, Pos2Z.inj_succ, Z.pow_succ_r by lia.
      rewrite Pos2Z.pos_xO, IH. lia.
Qed.

Lemma scaled_lt mx my ex ey :
  Zpos mx < 2 ^ 53 -> 2 ^ 52 <= Zpos my -> ex < ey ->
  Zpos mx * 2 ^ (ex - ex) < Zpos my * 2 ^ (ey - ex).
Proof.
  intros Hx Hy He. rewrite Z.sub_diag, Z.mul_1_r.
  assert (H2 : 2 ^ 1 <= 2 ^ (ey - ex)) by (apply Z.pow_le_mono_r; lia).
  change (2 ^ 1) with 2 in H2.
  change (2 ^ 53) with (2 ^ 52 * 2) in Hx. nia.
Qed.

Lemma SFcompare_finite sx mx ex sy my ey :
  canonical_mantissa prec emax mx ex = true ->
  canonical_mantissa prec emax my ey = true ->
  SFcompare (S754_finite sx mx ex) (S754_finite sy my ey) =
  Some (cond_Zopp sx (Zpos mx * 2 ^ (ex - Z.min ex ey)) ?=
        cond_Zopp sy (Zpos my * 2 ^ (ey - Z.min ex ey))).
Proof.
  intros Hx Hy.
  destruct (canonical_bounds _ _ Hx) as (Hx1 & Hx2 & Hx3).
  destruct (canonical_bounds _ _ Hy) as (Hy1 & Hy2 & Hy3).
  assert (Px : 0 < Zpos mx * 2 ^ (ex - Z.min ex ey))
    by (apply Z.mul_pos_pos; [lia|apply Z.pow_pos_nonneg; lia]).
  assert (Py : 0 < Zpos my * 2 ^ (ey - Z.min ex ey))
    by (apply Z.mul_pos_pos; [lia|apply Z.pow_pos_nonneg; lia]).
  cbn [SFcompare]. f_equal.
  destruct sx, sy; cbn [cond_Zopp].
  - rewrite Z.compare_opp.
    destruct (Z.compare_spec ex ey) as [E|E|E].
    + subst ey. rewrite Z.min_id, Z.sub_diag, !Z.mul_1_r.
      change (Pos.compare_cont Eq mx my) with (Pos.compare mx my).
      rewrite <- Pos.compare_antisym. reflexivity.
    + rewrite Z.min_l by lia. symmetry. apply Z.compare_gt_iff.
      apply scaled_lt; auto; lia.
    + rewrite Z.min_r by lia. symmetry. apply Z.compare_lt_iff.
      apply scaled_lt; auto; lia.
  - symmetry. apply Z.compare_lt_iff. lia.
  - symmetry. apply Z.compare_gt_iff. lia.
  - destruct (Z.compare_spec ex ey) as [E|E|E].
    + subst ey. rewrite Z.min_id, Z.sub_diag, !Z.mul_1_r. reflexivity.
    + rewrite Z.min_l by lia. symmetry. apply Z.compare_lt_iff.
      apply scaled_lt; auto; lia.
    + rewrite Z.min_r by lia. symmetry. apply Z.compare_gt_iff.
      apply scaled_lt; auto; lia.
Qed.

Lemma valid_canonical s m e :
  valid_binary (S754_finite s m e) = true ->
  canonical_mantissa prec emax m e = true.
Proof. cbn [valid_binary]. unfold bounded. intros H. apply andb_true_iff in H. apply H. Qed.

Lemma SFsub_compare_zero X Y z :
  valid_binary X = true -> valid_binary Y = true ->
  finiteSF X = true -> finiteSF Y = true ->
  SFcompare (SFsub prec emax X Y) (S754_zero z) = SFcompare X Y
  /\ SFcompare X Y <> None.
Proof.
  intros VX VY FX FY.
  destruct X as [sx|sx| |sx mx ex], Y as [sy|sy| |sy my ey]; try discriminate.
  - destruct sx, sy; split; try reflexivity; discriminate.
  - destruct sx, sy; split; try reflexivity; discriminate.
  - destruct sx, sy; split; try reflexivity; discriminate.
  - apply valid_canonical in VX, VY.
    rewrite (@SFcompare_finite sx mx ex sy my ey VX VY). split; [|discriminate].
    cbn [SFsub].
    destruct (canonical_bounds _ _ VX) as (Hx1 & _).
    destruct (canonical_bounds _ _ VY) as (Hy1 & _).
    rewrite binary_normalize_compare_zero by lia.
    rewrite !shl_align_value by lia.
    f_equal. symmetry. apply Z.compare_sub.
Qed.

Lemma rankSF_finite_sign s m e :
  -1074 <= e -> (rankSF (S754_finite s m e) ?= 0) = if s then Lt else Gt.
Proof.
  intros He. cbn [rankSF].
  assert (0 < Zpos m * 2 ^ (e + 1074))
    by (apply Z.mul_pos_pos; [lia|apply Z.pow_pos_nonneg; lia]).
  destruct s; cbn [cond_Zopp]; [apply Z.compare_lt_iff|apply Z.compare_gt_iff]; lia.
Qed.

Lemma SFcompare_rank X Y :
  valid_binary X = true -> valid_binary Y = true ->
  finiteSF X = true -> finiteSF Y = true ->
  SFcompare X Y = Some (rankSF X ?= rankSF Y).
Proof.
  intros VX VY FX FY.
  destruct X as [sx|sx| |sx mx ex], Y as [sy|sy| |sy my ey]; try discriminate.
  - reflexivity.
  - apply valid_canonical in VY. destruct (canonical_bounds _ _ VY) as (Hy & _).
    rewrite Z.compare_antisym, rankSF_finite_sign by assumption.
    cbn [SFcompare rankSF]. destruct sy; reflexivity.
  - apply valid_canonical in VX. destruct (canonical_bounds _ _ VX) as (Hx & _).
    change (rankSF (S754_zero sy)) with 0.
    rewrite rankSF_finite_sign by assumption. reflexivity.
  - apply valid_canonical in VX, VY.
    destruct (canonical_bounds _ _ VX) as (Hx & _).
    destruct (canonical_bounds _ _ VY) as (Hy & _).
    rewrite (@SFcompare_finite sx mx ex sy my ey VX VY). f_equal.
    cbn [rankSF].
    assert (Hez : Z.min ex ey <= ex /\ Z.min ex ey <= ey /\ -1074 <= Z.min ex ey) by lia.
    generalize dependent (Z.min ex ey). intros ez (Hzx & Hzy & Hz).
    replace (ex + 1074) with ((ex - ez) + (ez + 1074)) by lia.
    replace (ey + 1074) with ((ey - ez) + (ez + 1074)) by lia.
    rewrite (Z.pow_add_r 2 (ex - ez) (ez + 1074)), (Z.pow_add_r 2 (ey - ez) (ez + 1074)) by lia.
    assert (Hp : 0 < 2 ^ (ez + 1074)) by (apply Z.pow_pos_nonneg; lia).
    replace (cond_Zopp sx (Zpos mx * (2 ^ (ex - ez) * 2 ^ (ez + 1074))))
      with (cond_Zopp sx (Zpos mx * 2 ^ (ex - ez)) * 2 ^ (ez + 1074))
      by (destruct sx; cbn [cond_Zopp]; lia).
    replace (cond_Zopp sy (Zpos my * (2 ^ (ey - ez) * 2 ^ (ez + 1074))))
      with (cond_Zopp sy (Zpos my * 2 ^ (ey - ez)) * 2 ^ (ez + 1074))
      by (destruct sy; cbn [cond_Zopp]; lia).
    apply Zmult_compare_compat_r. lia.
Qed.

Lemma SFcompare_refl X : X <> S754_nan -> SFcompare X X = Some Eq.
Proof.
  destruct X as [s|s| |s m e]; intros H; try congruence.
  - reflexivity.
  - destruct s; reflexivity.
  - cbn [SFcompare]. rewrite Z.compare_refl, Pos.compare_cont_refl.
    destruct s; reflexivity.
Qed.

Lemma is_finite_SF (x : float) : is_finite x = finiteSF (Prim2SF x).
Proof.
  unfold is_finite, is_nan, is_infinity.
  rewrite !eqb_spec, abs_spec.
  change (Prim2SF infinity) with (S754_infinity false).
  destruct (Prim2SF x) as [s|s| |s m e] eqn:E.
  - reflexivity.
  - destruct s; reflexivity.
  - reflexivity.
  - unfold SFeqb. rewrite SFcompare_refl by discriminate. reflexivity.
Qed.

Section Finite.
Variables x y : float.
Hypothesis Fx : is_finite x = true.
Hypothesis Fy : is_finite y = true.

Lemma compare_rank : SFcompare (Prim2SF x) (Prim2SF y) = Some (rank x ?= rank y).
Proof.
  apply SFcompare_rank; auto using Prim2SF_valid; rewrite <- is_finite_SF; assumption.
Qed.

Lemma leb_rank : (x <=? y)%float = (rank x <=? rank y).
Proof.
  rewrite leb_spec. unfold SFleb. rewrite compare_rank.
  unfold Z.leb. destruct (rank x ?= rank y); reflexivity.
Qed.

Lemma ltb_rank : (x <? y)%float = (rank x <? rank y).
Proof.
  rewrite ltb_spec. unfold SFltb. rewrite compare_rank.
  unfold Z.ltb. destruct (rank x ?= rank y); reflexivity.
Qed.

Lemma eqb_rank : (x =? y)%float = (rank x =? rank y).
Proof.
  rewrite eqb_spec. unfold SFeqb. rewrite compare_rank.
  rewrite Z.eqb_compare. destruct (rank x ?= rank y); reflexivity.
Qed.

Lemma sub_compare_zero :
  SFcompare (Prim2SF (x - y)) (S754_zero false) = Some (rank x ?= rank y).
Proof.
  rewrite sub_spec. unfold SF64sub.
  rewrite <- compare_rank.
  apply SFsub_compare_zero; auto using Prim2SF_valid; rewrite <- is_finite_SF; assumption.
Qed.

Lemma sub_leb_zero : (x - y <=? 0)%float = (rank x <=? rank y).
Proof.
  rewrite leb_spec. unfold SFleb.
  change (Prim2SF 0) with (S754_zero false).
  rewrite sub_compare_zero. unfold Z.leb. destruct (rank x ?= rank y); reflexivity.
Qed.

Lemma sub_not_nan : is_nan (x - y) = false.
Proof.
  unfold is_nan. rewrite eqb_spec. unfold SFeqb.
  rewrite SFcompare_refl; [reflexivity|].
  intros E. pose proof sub_compare_zero as H. rewrite E in H. discriminate.
Qed.
End Finite.

Lemma Zdigits2_lt m : 0 <= m -> m < 2 ^ Zdigits2 m.
Proof.
  destruct m as [|p|p]; intros H; try lia.
  - cbn. lia.
  - cbn [Zdigits2]. apply digits2_pos_bounds.
Qed.

Lemma Zdigits2_nonneg m : 0 <= Zdigits2 m.
Proof. destruct m; cbn; lia. Qed.

Lemma Zdigits2_le m k : 0 <= m < 2 ^ k -> 0 <= k -> Zdigits2 m <= k.
Proof.
  destruct m as [|p|p]; intros H Hk; cbn [Zdigits2]; try lia.
  pose proof (digits2_pos_bounds p) as Hd.
  destruct (Z_le_gt_dec (Zpos (digits2_pos p)) k) as [L|G]; [assumption|exfalso].
  assert (2 ^ k <= 2 ^ (Zpos (digits2_pos p) - 1)) by (apply Z.pow_le_mono_r; lia).
  lia.
Qed.

Lemma shr_fexp_bounded m e l B :
  0 <= m -> Zdigits2 m + e <= B -> e <= B -> -1074 <= B ->
  0 <= shr_m (fst (shr_fexp prec emax m e l)) /\
  Zdigits2 (shr_m (fst (shr_fexp prec emax m e l))) + snd (shr_fexp prec emax m e l) <= B /\
  e <= snd (shr_fexp prec emax m e l) <= B.
Proof.
  intros Hm Hd He HB. unfold shr_fexp, shr. rewrite fexp_eq.
  destruct (Z.max (Zdigits2 m + e - 53) (-1074) - e) as [|n|n] eqn:Hn;
    cbn [fst snd]; rewrite ?shr_record_of_loc_m; try (repeat split; lia).
  rewrite iter_pos_shr_1_m by (rewrite shr_record_of_loc_m; lia).
  rewrite shr_record_of_loc_m.
  assert (Hp : 0 < 2 ^ Zpos n) by (apply Z.pow_pos_nonneg; lia).
  split; [apply Z.div_pos; lia|]. split; [|lia].
  pose proof (Zdigits2_lt Hm) as Hlt. pose proof (Zdigits2_nonneg m) as Hnn.
  destruct (Z_le_gt_dec (Zpos n) (Zdigits2 m)) as [L|G].
  - assert (Zdigits2 (m / 2 ^ Zpos n) <= Zdigits2 m - Zpos n); [|lia].
    apply Zdigits2_le; [|lia]. split; [apply Z.div_pos; lia|].
    apply Z.div_lt_upper_bound; [lia|].
    rewrite <- Z.pow_add_r by lia.
    replace (Zpos n + (Zdigits2 m - Zpos n)) with (Zdigits2 m) by lia. assumption.
  - rewrite Z.div_small; [cbn [Zdigits2]; lia|].
    split; [lia|]. apply Z.lt_le_trans with (2 ^ Zdigits2 m); [assumption|].
    apply Z.pow_le_mono_r; lia.
Qed.

Lemma round_nearest_even_bounds m l :
  0 <= m -> m <= round_nearest_even m l <= m + 1.
Proof.
  intros H. destruct l as [|[]]; cbn [round_nearest_even]; try lia.
  destruct (Z.even m); lia.
Qed.

Lemma binary_round_aux_bounded s m e l B :
  0 <= m -> Zdigits2 m + e <= B -> e <= B -> -1074 <= B <= 960 ->
  boundedSF e (B + 1) (binary_round_aux prec emax s m e l).
Proof.
  intros Hm Hd He HB. unfold binary_round_aux.
  destruct (@shr_fexp_bounded m e l B Hm Hd He (proj1 HB)) as (H1 & H2 & H3).
  destruct (shr_fexp prec emax m e l) as [mrs' e']. cbn [fst snd] in H1, H2, H3.
  pose proof (round_nearest_even_bounds (loc_of_shr_record mrs') H1) as H4.
  set (m1 := round_nearest_even (shr_m mrs') (loc_of_shr_record mrs')) in *.
  assert (H5 : Zdigits2 m1 <= Zdigits2 (shr_m mrs') + 1).
  { pose proof (Zdigits2_lt H1). pose proof (Zdigits2_nonneg (shr_m mrs')).
    apply Zdigits2_le; [|lia]. rewrite Z.pow_add_r by lia. change (2 ^ 1) with 2. lia. }
  assert (Hm1 : 0 <= m1) by lia.
  assert (Hd1 : Zdigits2 m1 + e' <= B + 1) by lia.
  assert (He1 : e' <= B + 1) by lia.
  assert (HB1 : -1074 <= B + 1) by lia.
  destruct (@shr_fexp_bounded m1 e' loc_Exact (B + 1) Hm1 Hd1 He1 HB1) as (H6 & H7 & H8).
  destruct (shr_fexp prec emax m1 e' loc_Exact) as [mrs'' e'']. cbn [fst snd] in H6, H7, H8.
  destruct (shr_m mrs'') as [|q|q] eqn:Eq; try lia.
  - exact I.
  - cbn [Zdigits2] in H7.
    replace (e'' <=? emax - prec) with true by (symmetry; apply Z.leb_le; cbn; lia).
    cbn [boundedSF]. lia.
Qed.

Lemma digits2_pos_iter_xO m d :
  Zpos (digits2_pos (Pos.iter xO m d)) = Zpos (digits2_pos m) + Zpos d.
Proof.
  induction d as [|d IH] using Pos.peano_ind.
  - cbn [Pos.iter digits2_pos]. lia.
  - rewrite Pos.iter_succ. cbn [digits2_pos]. lia.
Qed.

Lemma binary_round_bounded s m e B :
  Zpos (digits2_pos m) + e <= B -> -1074 <= B <= 960 ->
  boundedSF (Z.min e (SpecFloat.fexp prec emax (Zpos (digits2_pos m) + e))) (B + 1) (binary_round prec emax s m e).
Proof.
  intros Hd HB. unfold binary_round, shl_align.
  rewrite fexp_eq.
  destruct (Z.max (Zpos (digits2_pos m) + e - 53) (-1074) - e) as [|d|d] eqn:Hn.
  - rewrite Z.min_l by lia. apply binary_round_aux_bounded; cbn [Zdigits2]; lia.
  - rewrite Z.min_l by lia. apply binary_round_aux_bounded; cbn [Zdigits2]; lia.
  - rewrite Z.min_r by lia.
    apply binary_round_aux_bounded; cbn [Zdigits2]; rewrite ?digits2_pos_iter_xO;
      pose proof (Pos2Z.is_pos (digits2_pos m)); lia.
Qed.

Lemma boundedSF_finite lo hi X : boundedSF lo hi X -> finiteSF X = true.
Proof. destruct X; cbn; intros H; auto; contradiction. Qed.

Lemma SFdiv_bounded X Y lo hx :
  boundedSF lo hx X ->
  (exists s m e, Y = S754_finite s m e /\ -52 <= e) ->
  -1000 <= hx <= 900 ->
  finiteSF (SFdiv prec emax X Y) = true /\ exists lo', boundedSF lo' (hx + 53) (SFdiv prec emax X Y).
Proof.
  intros HX (sy & my & ey & -> & Hey) Hh.
  destruct X as [sx|sx| |sx mx ex]; cbn [boundedSF] in HX; try contradiction.
  - cbn [SFdiv]. split; [reflexivity|exists 0; exact I].
  - destruct HX as [_ HX].
    assert (HB : exists lo', boundedSF lo' (hx + 53) (SFdiv prec emax (S754_finite sx mx ex) (S754_finite sy my ey))).
    { cbn [SFdiv]. unfold SFdiv_core_binary.
      set (e' := Z.min _ (ex - ey)).
      assert (He' : e' <= ex - ey) by (subst e'; lia).
      set (m' := match ex - ey - e' with Z0 => Zpos mx | Zpos _ => Z.shiftl (Zpos mx) (ex - ey - e') | Zneg _ => 0 end).
      assert (Hm' : m' = Zpos mx * 2 ^ (ex - ey - e')).
      { subst m'. destruct (ex - ey - e') as [|p|p] eqn:Es; try lia.
        apply Z.shiftl_mul_pow2. lia. }
      clearbody m'.
      destruct (Z.div_eucl m' (Zpos my)) as [q r] eqn:E.
      assert (Hq : q = m' / Zpos my) by (unfold Z.div; rewrite E; reflexivity).
      assert (Hpow : 0 < 2 ^ (ex - ey - e')) by (apply Z.pow_pos_nonneg; lia).
      assert (Hm0 : 0 <= m') by nia.
      assert (Hq0 : 0 <= q) by (subst q; apply Z.div_pos; lia).
      assert (Hqm : q <= m').
      { subst q. apply Z.div_le_upper_bound; [lia|]. nia. }
      pose proof (digits2_pos_bounds mx) as Hdx.
      assert (Hdq : Zdigits2 q <= Zpos (digits2_pos mx) + (ex - ey - e')).
      { apply Zdigits2_le; [|lia]. split; [assumption|].
        rewrite Z.pow_add_r by lia. nia. }
      exists e'.
      replace (hx + 53) with (hx + 52 + 1) by lia.
      pose proof (Pos2Z.is_pos (digits2_pos mx)).
      apply binary_round_aux_bounded; lia. }
    split; [|exact HB]. destruct HB as [lo' HB]. exact (boundedSF_finite _ _ _ HB).
Qed.

Lemma SFsub_bounded X Y lx ly hi :
  valid_binary X = true -> valid_binary Y = true ->
  boundedSF lx hi X -> boundedSF ly hi Y -> -1000 <= hi <= 900 ->
  finiteSF (SFsub prec emax X Y) = true.
Proof.
  intros VX VY HX HY Hh.
  destruct X as [sx|sx| |sx mx ex], Y as [sy|sy| |sy my ey];
    cbn [boundedSF] in HX, HY; try contradiction.
  - destruct sx, sy; reflexivity.
  - reflexivity.
  - reflexivity.
  - apply valid_canonical in VX, VY.
    destruct (canonical_bounds _ _ VX) as (Hx1 & _).
    destruct (canonical_bounds _ _ VY) as (Hy1 & _).
    cbn [SFsub]. rewrite !shl_align_value by lia.
    assert (Hez : Z.min ex ey <= ex /\ Z.min ex ey <= ey /\ -1074 <= Z.min ex ey) by lia.
    generalize dependent (Z.min ex ey). intros ez (Hzx & Hzy & Hz).
    pose proof (digits2_pos_bounds mx) as Hdx. pose proof (digits2_pos_bounds my) as Hdy.
    pose proof (Pos2Z.is_pos (digits2_pos mx)) as Px. pose proof (Pos2Z.is_pos (digits2_pos my)) as Py.
    assert (Bx : 0 < Zpos mx * 2 ^ (ex - ez) < 2 ^ (hi - ez)).
    { assert (0 < 2 ^ (ex - ez)) by (apply Z.pow_pos_nonneg; lia).
      split; [nia|].
      apply Z.lt_le_trans with (2 ^ Zpos (digits2_pos mx) * 2 ^ (ex - ez)); [nia|].
      rewrite <- Z.pow_add_r by lia. apply Z.pow_le_mono_r; lia. }
    assert (By : 0 < Zpos my * 2 ^ (ey - ez) < 2 ^ (hi - ez)).
    { assert (0 < 2 ^ (ey - ez)) by (apply Z.pow_pos_nonneg; lia).
      split; [nia|].
      apply Z.lt_le_trans with (2 ^ Zpos (digits2_pos my) * 2 ^ (ey - ez)); [nia|].
      rewrite <- Z.pow_add_r by lia. apply Z.pow_le_mono_r; lia. }
    set (D := cond_Zopp sx _ - cond_Zopp sy _).
    assert (HD : Z.abs D < 2 ^ (hi - ez + 1)).
    { rewrite Z.pow_add_r by lia. change (2 ^ 1) with 2.
      subst D. destruct sx, sy; cbn [cond_Zopp]; lia. }
    clearbody D.
    destruct D as [|p|p]; cbn [binary_normalize].
    + reflexivity.
    + apply boundedSF_finite with (lo := Z.min ez (SpecFloat.fexp prec emax (Zpos (digits2_pos p) + ez))) (hi := hi + 1 + 1).
      apply binary_round_bounded; [|lia].
      assert (Zdigits2 (Zpos p) <= hi - ez + 1) by (apply Zdigits2_le; lia).
      cbn [Zdigits2] in *. lia.
    + apply boundedSF_finite with (lo := Z.min ez (SpecFloat.fexp prec emax (Zpos (digits2_pos p) + ez))) (hi := hi + 1 + 1).
      apply binary_round_bounded; [|lia].
      assert (Zdigits2 (Zpos p) <= hi - ez + 1) by (apply Zdigits2_le; lia).
      cbn [Zdigits2] in *. lia.
Qed.

Lemma ofZ_SF z :
  0 <= z < 2 ^ 63 -> Prim2SF (Binary64.ofZ z) = binary_normalize prec emax z 0 false.
Proof.
  intros H. unfold Binary64.ofZ. rewrite FloatAxioms.of_uint63_spec, Uint63.of_Z_spec.
  rewrite Z.mod_small; [reflexivity|]. exact H.
Qed.

Lemma ofZ_bounded z :
  0 <= z < 2 ^ 63 -> boundedSF (-52) 64 (Prim2SF (Binary64.ofZ z)).
Proof.
  intros H. rewrite ofZ_SF by assumption.
  destruct z as [|p|p]; try lia; cbn [binary_normalize]; [exact I|].
  assert (Hd : Zdigits2 (Zpos p) <= 63) by (apply Zdigits2_le; lia).
  cbn [Zdigits2] in Hd. pose proof (Pos2Z.is_pos (digits2_pos p)) as Hp.
  pose proof (@binary_round_bounded false p 0 63) as HB.
  destruct (binary_round prec emax false p 0) as [s|s| |s m e]; cbn [boundedSF] in *; auto.
  - apply HB; lia.
  - apply HB; lia.
  - rewrite fexp_eq in HB. destruct HB as [HB1 HB2]; lia.
Qed.

Lemma ofZ_positive z :
  0 < z < 2 ^ 63 -> exists s m e, Prim2SF (Binary64.ofZ z) = S754_finite s m e /\ -52 <= e.
Proof.
  intros H. pose proof (@ofZ_bounded z ltac:(lia)) as HB.
  rewrite ofZ_SF in * by lia.
  destruct z as [|p|p]; try lia. cbn [binary_normalize] in *.
  destruct (@binary_round_signed false p 0 ltac:(lia)) as [(m & e & E)|E];
    rewrite E in *; cbn [boundedSF] in HB; [|contradiction].
  exists false, m, e. split; [reflexivity|lia].
Qed.

Lemma one_SF : Prim2SF 1 = S754_finite false 4503599627370496 (-52).
Proof. reflexivity. Qed.

Lemma similarity_finite d m :
  0 <= d < 2 ^ 63 -> 0 < m < 2 ^ 63 -> is_finite (1 - Binary64.ofZ d / Binary64.ofZ m) = true.
Proof.
  intros Hd Hm. rewrite is_finite_SF, FloatAxioms.sub_spec, FloatAxioms.div_spec.
  unfold SF64sub, SF64div.
  destruct (@SFdiv_bounded (Prim2SF (Binary64.ofZ d)) (Prim2SF (Binary64.ofZ m)) (-52) 64
              (ofZ_bounded Hd) (ofZ_positive Hm) ltac:(lia)) as (_ & lo' & HB).
  apply SFsub_bounded with (lx := -52) (ly := lo') (hi := 64 + 53).
  - apply Prim2SF_valid.
  - rewrite <- FloatAxioms.div_spec. apply Prim2SF_valid.
  - rewrite one_SF. cbn [boundedSF]. cbn. lia.
  - exact HB.
  - lia.
Qed.

End DoubleArithmetic.

(** ** The stable sort over doubles *)

Section StableSort.

Variable A : Type.
Variable cmp : A -> A -> float.

Lemma insertBy64_perm x l : Permutation (Binary64.insertBy cmp x l) (x :: l).
Proof.
  induction l as [|y l IH]; cbn [Binary64.insertBy]; [reflexivity|].
  destruct (Binary64.notAfter cmp x y); [reflexivity|].
  rewrite IH. apply perm_swap.
Qed.

Lemma stableSort_perm l : Permutation (Binary64.stableSort cmp l) l.
Proof.
  induction l as [|x l IH]; cbn [Binary64.stableSort fold_right]; [reflexivity|].
  rewrite insertBy64_perm. now apply perm_skip.
Qed.

(** Elements the comparator does not order strictly keep their places
    relative to each other. *)
Lemma insertBy64_filter (p : A -> bool) x l :
  (forall y, In y l -> p x = true -> p y = true -> Binary64.notAfter cmp x y = true) ->
  filter p (Binary64.insertBy cmp x l) = filter p (x :: l).
Proof.
  induction l as [|y l IH]; intros Hp; [reflexivity|].
  cbn [Binary64.insertBy].
  destruct (Binary64.notAfter cmp x y) eqn:E; [reflexivity|].
  cbn [filter] in *. rewrite IH by (intros z Hz; apply Hp; now right).
  destruct (p x) eqn:Px; [|reflexivity].
  destruct (p y) eqn:Py; [|reflexivity].
  rewrite (Hp y) in E by (cbn; auto). discriminate.
Qed.

Lemma stableSort_filter (p : A -> bool) l :
  (forall x y, In x l -> In y l -> p x = true -> p y = true ->
               Binary64.notAfter cmp x y = true) ->
  filter p (Binary64.stableSort cmp l) = filter p l.
Proof.
  induction l as [|x l IH]; intros Hp; [reflexivity|].
  cbn [Binary64.stableSort fold_right]. fold (Binary64.stableSort cmp l).
  rewrite insertBy64_filter.
  - cbn [filter]. rewrite IH; [reflexivity|].
    intros a b Ha Hb. apply Hp; now right.
  - intros y Hy. apply Hp; [now left|right].
    apply (Permutation_in _ (stableSort_perm l)). exact Hy.
Qed.

(** When the comparator follows an integer rank, the result is in the
    order of the ranks. *)
Variable rk : A -> Z.

Lemma insertBy64_sorted x l :
  (forall y, In y l -> Binary64.notAfter cmp x y = (rk x <=? rk y)%Z) ->
  StronglySorted (fun a b => (rk a <= rk b)%Z) l ->
  StronglySorted (fun a b => (rk a <= rk b)%Z) (Binary64.insertBy cmp x l).
Proof.
  intros Hc Hs. induction Hs as [|y l Hl IH Hy]; cbn [Binary64.insertBy].
  - repeat constructor.
  - rewrite (Hc y) by (now left).
    destruct (rk x <=? rk y)%Z eqn:Exy.
    + apply Z.leb_le in Exy. constructor; [constructor; auto|].
      constructor; [exact Exy|].
      eapply Forall_impl; [|exact Hy]. intros z Hz. cbn beta in *. lia.
    + apply Z.leb_gt in Exy. constructor.
      * apply IH. intros z Hz. apply Hc. now right.
      * apply Forall_forall. intros z Hz.
        apply (Permutation_in _ (insertBy64_perm x l)) in Hz.
        destruct Hz as [<-|Hz]; [lia|].
        rewrite Forall_forall in Hy. auto.
Qed.

Lemma stableSort_sorted l :
  (forall x y, In x l -> In y l -> Binary64.notAfter cmp x y = (rk x <=? rk y)%Z) ->
  StronglySorted (fun a b => (rk a <= rk b)%Z) (Binary64.stableSort cmp l).
Proof.
  induction l as [|x l IH]; intros Hc; cbn [Binary64.stableSort fold_right].
  - constructor.
  - fold (Binary64.stableSort cmp l). apply insertBy64_sorted.
    + intros y Hy. apply Hc; [now left|right].
      apply (Permutation_in _ (stableSort_perm l)). exact Hy.
    + apply IH. intros a b Ha Hb. apply Hc; now right.
Qed.

End StableSort.

(** ** Comparators that follow a rank are consistent *)

Lemma SFcompare_zero_swap X z c :
  SFcompare X (S754_zero z) = Some c ->
  SFcompare (S754_zero z) X = Some (CompOpp c).
Proof.
  destruct X as [s|s| |s m e]; cbn [SFcompare]; intros H; try discriminate.
  - injection H as <-. reflexivity.
  - injection H as <-. destruct s; reflexivity.
  - injection H as <-. destruct s; reflexivity.
Qed.

Section Ranked.

Variable A : Type.
Variable cmp : A -> A -> float.
Variable rk : A -> Z.
Variable l : list A.

Hypothesis cmp_rank :
  forall x y, In x l -> In y l ->
    SFcompare (Prim2SF (cmp x y)) (S754_zero false) = Some (rk x ?= rk y)%Z.

Lemma ranked_not_nan x y : In x l -> In y l -> is_nan (cmp x y) = false.
Proof.
  intros Hx Hy. unfold is_nan. rewrite FloatAxioms.eqb_spec. unfold SFeqb.
  rewrite SFcompare_refl; [reflexivity|].
  intros E. pose proof (cmp_rank _ _ Hx Hy) as H. rewrite E in H. discriminate.
Qed.

Lemma ranked_leb x y : In x l -> In y l -> (cmp x y <=? 0)%float = (rk x <=? rk y)%Z.
Proof.
  intros Hx Hy. rewrite FloatAxioms.leb_spec. unfold SFleb.
  change (Prim2SF 0) with (S754_zero false). rewrite (cmp_rank _ _ Hx Hy).
  unfold Z.leb. destruct (rk x ?= rk y)%Z; reflexivity.
Qed.

Lemma ranked_ltb x y : In x l -> In y l -> (cmp x y <? 0)%float = (rk x <? rk y)%Z.
Proof.
  intros Hx Hy. rewrite FloatAxioms.ltb_spec. unfold SFltb.
  change (Prim2SF 0) with (S754_zero false). rewrite (cmp_rank _ _ Hx Hy).
  unfold Z.ltb. destruct (rk x ?= rk y)%Z; reflexivity.
Qed.

Lemma ranked_gtb x y : In x l -> In y l -> (0 <? cmp y x)%float = (rk x <? rk y)%Z.
Proof.
  intros Hx Hy. rewrite FloatAxioms.ltb_spec. unfold SFltb.
  change (Prim2SF 0) with (S754_zero false).
  rewrite (@SFcompare_zero_swap _ _ _ (cmp_rank _ _ Hy Hx)), <- Z.compare_antisym.
  unfold Z.ltb. destruct (rk x ?= rk y)%Z; reflexivity.
Qed.

Lemma ranked_notAfter x y :
  In x l -> In y l -> Binary64.notAfter cmp x y = (rk x <=? rk y)%Z.
Proof.
  intros Hx Hy. unfold Binary64.notAfter.
  now rewrite ranked_not_nan, ranked_leb.
Qed.

Lemma ranked_consistent : Binary64.consistent cmp l.
Proof.
  split; [|split].
  - intros x y. apply ranked_not_nan.
  - intros x y Hx Hy. now rewrite ranked_ltb, ranked_gtb.
  - intros x y z Hx Hy Hz. rewrite !ranked_leb by assumption.
    rewrite !Z.leb_le. lia.
Qed.

Variable E : Binary64.Engine.

Lemma Array_sort_ranked : Binary64.Array_sort E cmp l = Binary64.stableSort cmp l.
Proof. apply Binary64.Array_sort_consistent, ranked_consistent. Qed.

Lemma Array_sort_ranked_sorted :
  StronglySorted (fun a b => (rk a <= rk b)%Z) (Binary64.Array_sort E cmp l).
Proof.
  rewrite Array_sort_ranked. apply stableSort_sorted. apply ranked_notAfter.
Qed.

Lemma Array_sort_ranked_filter (p : A -> bool) :
  (forall x y, In x l -> In y l -> p x = true -> p y = true -> rk x = rk y) ->
  filter p (Binary64.Array_sort E cmp l) = filter p l.
Proof.
  intros Hp. rewrite Array_sort_ranked. apply stableSort_filter.
  intros x y Hx Hy Px Py. rewrite ranked_notAfter by assumption.
  apply Z.leb_le. rewrite (Hp x y); auto. lia.
Qed.

End Ranked.

Lemma StronglySorted_weaken {A} (R R' : A -> A -> Prop) l :
  (forall x y, In x l -> In y l -> R x y -> R' x y) ->
  StronglySorted R l -> StronglySorted R' l.
Proof.
  intros HR Hs. induction Hs as [|x l Hl IH Hx]; constructor.
  - apply IH. intros a b Ha Hb. apply HR; now right.
  - rewrite Forall_forall in *. intros y Hy. apply HR; [now left|now right|auto].
Qed.

Lemma eqb_finite a s :
  is_finite a = true -> (a =? s)%float = true -> is_finite s = true.
Proof.
  rewrite !is_finite_SF, FloatAxioms.eqb_spec. unfold SFeqb.
  destruct (Prim2SF a) as [sa|sa| |sa ma ea], (Prim2SF s) as [ss|ss| |ss ms es];
    cbn; try discriminate; auto.
  - destruct ss; discriminate.
  - destruct ss; discriminate.
Qed.

Section ByKey.

Variable E : Binary64.Engine.
Variable A : Type.
Variable key : A -> float.
Variable l : list A.
Hypothesis key_finite : forall x, In x l -> is_finite (key x) = true.

Lemma ascending_rank x y :
  In x l -> In y l ->
  SFcompare (Prim2SF (key x - key y)) (S754_zero false) =
  Some (rank (key x) ?= rank (key y))%Z.
Proof. intros Hx Hy. apply sub_compare_zero; auto. Qed.

Lemma descending_rank x y :
  In x l -> In y l ->
  SFcompare (Prim2SF (key y - key x)) (S754_zero false) =
  Some (- rank (key x) ?= - rank (key y))%Z.
Proof.
  intros Hx Hy. rewrite sub_compare_zero by auto.
  now rewrite Z.compare_opp.
Qed.

Let ascending := fun a b : A => (key a - key b)%float.
Let descending := fun a b : A => (key b - key a)%float.

Lemma Array_sort_ascending_stable :
  Binary64.Array_sort E ascending l = Binary64.stableSort ascending l.
Proof. apply Array_sort_ranked with (rk := fun x => rank (key x)), ascending_rank. Qed.

Lemma Array_sort_descending_stable :
  Binary64.Array_sort E descending l = Binary64.stableSort descending l.
Proof.
  apply Array_sort_ranked with (rk := fun x => (- rank (key x))%Z).
  intros x y. apply descending_rank.
Qed.

Lemma Array_sort_ascending_sorted :
  StronglySorted (fun a b => (key a <=? key b)%float = true)
                 (Binary64.Array_sort E ascending l).
Proof.
  eapply StronglySorted_weaken;
    [|apply Array_sort_ranked_sorted with (rk := fun x => rank (key x)), ascending_rank].
  intros x y Hx Hy H. cbn beta in H.
  apply (Permutation_in _ (Binary64.Array_sort_permutes E ascending l)) in Hx, Hy.
  rewrite leb_rank by auto. now apply Z.leb_le.
Qed.

Lemma Array_sort_descending_sorted :
  StronglySorted (fun a b => (key b <=? key a)%float = true)
                 (Binary64.Array_sort E descending l).
Proof.
  eapply StronglySorted_weaken;
    [|apply Array_sort_ranked_sorted with (rk := fun x => (- rank (key x))%Z);
      intros x y; apply descending_rank].
  intros x y Hx Hy H. cbn beta in H.
  apply (Permutation_in _ (Binary64.Array_sort_permutes E descending l)) in Hx, Hy.
  rewrite leb_rank by auto. apply Z.leb_le. lia.
Qed.

Lemma key_ties s x y :
  In x l -> In y l -> (key x =? s)%float = true -> (key y =? s)%float = true ->
  rank (key x) = rank (key y).
Proof.
  intros Hx Hy Ex Ey.
  pose proof (@eqb_finite _ _ (key_finite x Hx) Ex) as Fs.
  rewrite eqb_rank in Ex, Ey by auto.
  apply Z.eqb_eq in Ex, Ey. congruence.
Qed.

Lemma Array_sort_ascending_ties s :
  filter (fun x => (key x =? s)%float) (Binary64.Array_sort E ascending l) =
  filter (fun x => (key x =? s)%float) l.
Proof.
  apply Array_sort_ranked_filter with (rk := fun x => rank (key x)).
  - apply ascending_rank.
  - intros x y Hx Hy. apply key_ties; assumption.
Qed.

Lemma Array_sort_descending_ties s :
  filter (fun x => (key x =? s)%float) (Binary64.Array_sort E descending l) =
  filter (fun x => (key x =? s)%float) l.
Proof.
  apply Array_sort_ranked_filter with (rk := fun x => (- rank (key x))%Z).
  - intros x y. apply descending_rank.
  - intros x y Hx Hy Ex Ey. f_equal. eapply key_ties; eauto.
Qed.

End ByKey.

(** ** Scores are finite numbers *)

Lemma normalizeText_shorter text :
  (length (normalizeText text) <= length text)%nat.
Proof.
  unfold normalizeText, remove_spaces, replace_char, remove_vowels, toLowerCase.
  eapply Nat.le_trans; [apply filter_length_le|].
  rewrite !length_map.
  eapply Nat.le_trans; [apply filter_length_le|].
  eapply Nat.le_trans; [apply replace_iya_length|].
  now rewrite length_map.
Qed.

Lemma dropWhile_shorter f s : (length (dropWhile f s) <= length s)%nat.
Proof.
  induction s as [|c s IH]; cbn [dropWhile length]; [lia|].
  destruct (f c); cbn [length]; lia.
Qed.

Lemma trim_shorter s : (length (trim s) <= length s)%nat.
Proof.
  unfold trim. rewrite length_rev.
  eapply Nat.le_trans; [apply dropWhile_shorter|].
  rewrite length_rev. apply dropWhile_shorter.
Qed.

Lemma split_part_shorter sep s part :
  In part (split sep s) -> (length part <= length s)%nat.
Proof.
  revert part. induction s as [|c s IH]; cbn [split]; intros part Hp.
  - destruct Hp as [<-|[]]. cbn. lia.
  - destruct (Ascii.eqb c sep).
    + destruct Hp as [<-|Hp]; cbn [length]; [lia|]. specialize (IH _ Hp). lia.
    + destruct (split sep s) as [|p ps] eqn:Es.
      * destruct Hp as [<-|[]]. cbn. lia.
      * destruct Hp as [<-|Hp].
        -- specialize (IH p (or_introl eq_refl)). cbn [length]. lia.
        -- specialize (IH part (or_intror Hp)). cbn [length]. lia.
Qed.

Lemma extractNameAfterDash_shorter s :
  (length (extractNameAfterDash s) <= length s)%nat.
Proof.
  unfold extractNameAfterDash.
  destruct (1 <? length (split "-" s))%nat eqn:E; [|apply trim_shorter].
  apply Nat.ltb_lt in E.
  eapply Nat.le_trans; [apply trim_shorter|].
  apply split_part_shorter with (sep := "-"%char). now apply nth_In.
Qed.

Lemma getSimilarityScore_finite str1 str2 :
  (Z.of_nat (length str1) < 2 ^ 53)%Z -> (Z.of_nat (length str2) < 2 ^ 53)%Z ->
  is_finite (Binary64.getSimilarityScore str1 str2) = true.
Proof.
  intros H1 H2. unfold Binary64.getSimilarityScore.
  pose proof (normalizeText_shorter str1) as L1.
  pose proof (normalizeText_shorter str2) as L2.
  set (norm1 := normalizeText str1) in *. set (norm2 := normalizeText str2) in *.
  destruct (jsstring_eqb norm1 norm2); [reflexivity|].
  destruct (includes norm1 norm2 || includes norm2 norm1); [reflexivity|].
  destruct (length norm1 =? 0)%nat eqn:E1.
  { destruct (length norm2 =? 0)%nat; reflexivity. }
  destruct (length norm2 =? 0)%nat eqn:E2; [reflexivity|].
  apply Nat.eqb_neq in E1, E2.
  pose proof (editTable_lev norm1 norm2) as Hd.
  pose proof (lev_le_max (rev norm1) (rev norm2)) as Hle.
  rewrite !length_rev in Hle. rewrite <- Hd in Hle.
  change (is_finite (1 - Binary64.ofZ (Z.of_nat (get (editTable norm1 norm2) (length norm1) (length norm2)))
                        / Binary64.ofZ (Z.of_nat (Nat.max (length norm1) (length norm2)))) = true).
  assert (P53 : (2 ^ 53 < 2 ^ 63)%Z) by reflexivity.
  apply similarity_finite; lia.
Qed.

(** ** Name matching over doubles *)

Example findATMsByName_at_threshold :
  let catalog := [ Binary64.mkATM (str "1") (str "Bank-bcdzzzzzzz") 7.06 38.47 ] in
  map (fun m => (Binary64.id (Binary64.match_atm m), Binary64.score m))
      (Binary64.Part000.findATMsByName Binary64.referenceEngine catalog (str "bcdfghjlmn")) =
  [ (str "1", 0.30000000000000004%float) ].
Proof. vm_compute. reflexivity. Qed.

(** C4. The matches are exactly the catalog entries whose score against
    the query is above 0.3, each with that score, in descending order of
    score; entries of equal score stay in catalog order.  The query and
    the names are shorter than 2^32 - 1 code units, as the strings of
    the engines are: the table [dp] of the score has one row for each
    code unit and one more, and an array has fewer than 2^32 elements. *)
Theorem findATMsByName_threshold_sorted_stable
    (E : Binary64.Engine) (atms : list Binary64.ATM) (searchName : jsstring) :
  (Z.of_nat (length searchName) < 2 ^ 32 - 1)%Z ->
  Forall (fun atm => (Z.of_nat (length (Binary64.name atm)) < 2 ^ 32 - 1)%Z) atms ->
  let result := Binary64.Part000.findATMsByName E atms searchName in
  let scoreOf atm :=
    Binary64.getSimilarityScore searchName (extractNameAfterDash (Binary64.name atm)) in
  let candidates := map (fun atm => Binary64.mkMatch atm (scoreOf atm)) atms in
  let aboveThreshold := fun m => (0.3 <? Binary64.score m)%float in
  Permutation result (filter aboveThreshold candidates) /\
  (forall m, In m result <->
             exists atm, In atm atms /\ m = Binary64.mkMatch atm (scoreOf atm) /\
                         (0.3 <? scoreOf atm)%float = true) /\
  Forall (fun m => (Binary64.score m <=? 0.3)%float = false) result /\
  StronglySorted (fun a b => (Binary64.score b <=? Binary64.score a)%float = true) result /\
  (forall s,
     filter (fun m => (Binary64.score m =? s)%float) result =
     filter (fun m => (Binary64.score m =? s)%float) (filter aboveThreshold candidates)).
Proof.
  intros Hq Hnames result scoreOf candidates aboveThreshold.
  assert (P32 : (2 ^ 32 - 1 < 2 ^ 53)%Z) by reflexivity.
  assert (Hfin : forall m, In m (filter aboveThreshold candidates) ->
                           is_finite (Binary64.score m) = true).
  { intros m Hm. apply filter_In in Hm. destruct Hm as [Hm _].
    apply in_map_iff in Hm. destruct Hm as (atm & <- & Hatm).
    cbn [Binary64.score]. apply getSimilarityScore_finite; [lia|].
    rewrite Forall_forall in Hnames. specialize (Hnames atm Hatm).
    pose proof (extractNameAfterDash_shorter (Binary64.name atm)). lia. }
  assert (Hperm : Permutation result (filter aboveThreshold candidates))
    by apply Binary64.Array_sort_permutes.
  assert (Hin : forall m, In m result <->
            exists atm, In atm atms /\ m = Binary64.mkMatch atm (scoreOf atm) /\
                        (0.3 <? scoreOf atm)%float = true).
  { intros m. split.
    - intros Hm. apply (Permutation_in _ Hperm) in Hm.
      apply filter_In in Hm. destruct Hm as [Hm Hs].
      apply in_map_iff in Hm. destruct Hm as [atm [<- Hatm]].
      exists atm. repeat split; auto.
    - intros (atm & Hatm & -> & Hs).
      apply (Permutation_in _ (Permutation_sym Hperm)).
      apply filter_In. split; [|exact Hs].
      apply in_map_iff. exists atm. auto. }
  split; [exact Hperm|]. split; [exact Hin|]. split; [|split].
  - apply Forall_forall. intros m Hm.
    pose proof (Hfin m (Permutation_in _ Hperm Hm)) as Fm.
    apply Hin in Hm. destruct Hm as (atm & _ & -> & Hs). cbn [Binary64.score] in *.
    assert (F3 : is_finite 0.3 = true) by reflexivity.
    rewrite ltb_rank in Hs by assumption. rewrite leb_rank by assumption.
    apply Z.ltb_lt in Hs. apply Z.leb_gt. exact Hs.
  - apply (Array_sort_descending_sorted E Binary64.score _ Hfin).
  - intros s. apply (Array_sort_descending_ties E Binary64.score _ Hfin).
Qed.

Lemma findATMsByName_threshold_sorted_stable_witness :
  let catalog := [ Binary64.mkATM (str "1") (str "Bank-bcdzzzzzzz") 7.06 38.47;
                   Binary64.mkATM (str "2") (str "Bank-Piasa") 7.05 38.48 ] in
  (Z.of_nat (length (str "bcdfghjlmn")) < 2 ^ 32 - 1)%Z /\
  Forall (fun m => (Binary64.score m <=? 0.3)%float = false)
         (Binary64.Part000.findATMsByName Binary64.referenceEngine catalog
            (str "bcdfghjlmn")).
Proof.
  intros catalog.
  assert (Hq : (Z.of_nat (length (str "bcdfghjlmn")) < 2 ^ 32 - 1)%Z) by (vm_compute; reflexivity).
  assert (Hn : Forall (fun atm => (Z.of_nat (length (Binary64.name atm)) < 2 ^ 32 - 1)%Z) catalog)
    by (repeat constructor).
  split; [exact Hq|].
  exact (proj1 (proj2 (proj2
           (@findATMsByName_threshold_sorted_stable Binary64.referenceEngine catalog
              (str "bcdfghjlmn") Hq Hn)))).
Defined.

(** ** Maps that may throw *)

Lemma sequence_Forall2 {A} (l : list (option A)) xs :
  sequence l = Some xs -> Forall2 (fun o x => o = Some x) l xs.
Proof.
  revert xs. induction l as [|[a|] l IH]; cbn [sequence]; intros xs H.
  - injection H as <-. constructor.
  - destruct (sequence l) as [ys|]; [|discriminate].
    injection H as <-. constructor; auto.
  - discriminate.
Qed.

Lemma sequence_map_Forall2 {A B} (f : A -> option B) l ys :
  sequence (map f l) = Some ys -> Forall2 (fun x y => f x = Some y) l ys.
Proof.
  revert ys. induction l as [|a l IH]; cbn [map sequence]; intros ys H.
  - injection H as <-. constructor.
  - destruct (f a) as [b|] eqn:E; [|discriminate].
    destruct (sequence (map f l)) as [zs|]; [|discriminate].
    injection H as <-. constructor; auto.
Qed.


Lemma sequence_total {A} (l : list (option A)) :
  (forall o, In o l -> o <> None) -> exists xs, sequence l = Some xs.
Proof.
  induction l as [|[a|] l IH]; intros H; cbn [sequence]; [eauto| |].
  - destruct IH as [ys ->]; [intros x Hx; apply H; now right|]. eauto.
  - exfalso. apply (H None); [now left|reflexivity].
Qed.


Lemma Forall2_length_eq {A B} (P : A -> B -> Prop) l r :
  Forall2 P l r -> length r = length l.
Proof. induction 1; cbn; congruence. Qed.

Lemma Forall2_In_r {A B} (P : A -> B -> Prop) l r y :
  Forall2 P l r -> In y r -> exists x, In x l /\ P x y.
Proof.
  induction 1 as [|a b l r Hab H IH]; cbn [In]; [tauto|].
  intros [<-|Hy]; [eauto|]. destruct (IH Hy) as (x & Hx & Hp). eauto.
Qed.

Lemma Forall2_In_l {A B} (P : A -> B -> Prop) l r x :
  Forall2 P l r -> In x l -> exists y, In y r /\ P x y.
Proof.
  induction 1 as [|a b l r Hab H IH]; cbn [In]; [tauto|].
  intros [<-|Hx]; [eauto|]. destruct (IH Hx) as (y & Hy & Hp). eauto.
Qed.

Lemma StronglySorted_Forall2 {A B} (P : A -> B -> Prop)
    (R : A -> A -> Prop) (R' : B -> B -> Prop) l r :
  (forall a a' b b', P a b -> P a' b' -> R a a' -> R' b b') ->
  Forall2 P l r -> StronglySorted R l -> StronglySorted R' r.
Proof.
  intros HR H. induction H as [|a b l r Hab H IH]; intros Hs; [constructor|].
  inversion Hs as [|? ? Hl Ha]; subst. constructor; [auto|].
  apply Forall_forall. intros b' Hb'.
  destruct (@Forall2_In_r _ _ _ _ _ _ H Hb') as (a' & Ha' & Hp).
  rewrite Forall_forall in Ha. eauto.
Qed.


Lemma Forall2_firstn {A B} (P : A -> B -> Prop) k l r :
  Forall2 P l r -> Forall2 P (firstn k l) (firstn k r).
Proof.
  intros H. revert k. induction H; intros [|k]; cbn [firstn]; constructor; auto.
Qed.

(** ** Reading the response *)

Lemma arrayProp_spec parsed key routes :
  Binary64.arrayProp parsed key = Some routes <->
  exists members,
    parsed = Binary64.JObject members /\
    Binary64.member key members = Some (Binary64.JArray routes).
Proof.
  unfold Binary64.arrayProp, Binary64.definedProp, Binary64.getProp. split.
  - destruct parsed as [|b|x|s|l|members]; cbn [Binary64.truthy];
      try (destruct (negb _)); try (destruct (nonEmpty _)); try destruct b; try discriminate.
    destruct (Binary64.member key members) as [[| | | |l|]|] eqn:E; try discriminate.
    intros H. injection H as <-. eauto.
  - intros (members & -> & H). cbn [Binary64.truthy]. now rewrite H.
Qed.

Lemma definedProp_memberAt routes pos key :
  Binary64.definedProp (nth_error routes pos) key = Binary64.memberAt routes pos key.
Proof.
  unfold Binary64.definedProp, Binary64.memberAt, Binary64.getProp.
  destruct (nth_error routes pos) as [[|b|x|s|l|members]|]; try reflexivity.
  all: destruct (Binary64.truthy _); reflexivity.
Qed.

Lemma definedProp_reported routes idx key :
  Binary64.definedProp (nth_error routes (idx + 1)) key = Binary64.reported routes idx key.
Proof. apply definedProp_memberAt. Qed.

Lemma memberAt_In routes pos key d :
  Binary64.memberAt routes pos key = Some d ->
  exists route, In route routes /\ Binary64.getProp route key = Some d.
Proof.
  unfold Binary64.memberAt.
  destruct (nth_error routes pos) as [[|b|x|s|l|members]|] eqn:E; try discriminate.
  intros H. exists (Binary64.JObject members). split; [|exact H].
  eapply nth_error_In; eauto.
Qed.

(** ** The short-list *)

Section BotRanking.

Variable E : Binary64.Engine.
Variable atms : list Binary64.ATM.
Variables userLat userLon : float.

Let geodesic :=
  map (fun atm =>
         Binary64.mkWithDistance atm
           (Binary64.calculateDistance E userLat userLon
              (Binary64.lat atm) (Binary64.lon atm)))
      atms.
Let ordering := Binary64.geodesicOrdering E atms userLat userLon.
Let shortlist := Binary64.Bot.closest10From E atms userLat userLon.

Lemma shortlist_eq : shortlist = firstn 10 ordering.
Proof. reflexivity. Qed.

Lemma ordering_perm : Permutation ordering geodesic.
Proof. apply Binary64.Array_sort_permutes. Qed.

Lemma ordering_length : length ordering = length atms.
Proof.
  rewrite (Permutation_length ordering_perm). unfold geodesic. apply length_map.
Qed.

Lemma shortlist_length : length shortlist = Nat.min 10 (length atms).
Proof. rewrite shortlist_eq, length_firstn. now rewrite ordering_length. Qed.

Lemma fallback_eq :
  map Binary64.Bot.ofWithDistance (slice0 5 shortlist) =
  map Binary64.Bot.ofWithDistance (firstn 5 ordering).
Proof.
  rewrite shortlist_eq. change (slice0 5 ?x) with (firstn 5 x).
  now rewrite firstn_firstn.
Qed.

Lemma fallback_length :
  length (map Binary64.Bot.ofWithDistance (slice0 5 shortlist)) = Nat.min 5 (length atms).
Proof.
  rewrite length_map. change (slice0 5 ?x) with (firstn 5 x).
  rewrite length_firstn, shortlist_length. lia.
Qed.

Hypothesis geodesic_finite :
  Forall (fun atm =>
            is_finite (Binary64.calculateDistance E userLat userLon
                         (Binary64.lat atm) (Binary64.lon atm)) = true) atms.

Lemma geodesic_key_finite c : In c geodesic -> is_finite (Binary64.wd_distance c) = true.
Proof.
  unfold geodesic. intros H. apply in_map_iff in H. destruct H as (atm & <- & Hatm).
  exact (proj1 (Forall_forall _ _) geodesic_finite atm Hatm).
Qed.

Lemma ordering_sorted :
  StronglySorted (fun a b => (Binary64.wd_distance a <=? Binary64.wd_distance b)%float = true)
                 ordering.
Proof. apply Array_sort_ascending_sorted. exact geodesic_key_finite. Qed.

Lemma shortlist_finite c : In c shortlist -> is_finite (Binary64.wd_distance c) = true.
Proof.
  intros H. apply geodesic_key_finite.
  apply (Permutation_in _ ordering_perm). rewrite shortlist_eq in H.
  rewrite <- (firstn_skipn 10 ordering). apply in_or_app. now left.
Qed.

Lemma shortlist_sorted :
  StronglySorted (fun a b => (Binary64.wd_distance a <=? Binary64.wd_distance b)%float = true)
                 shortlist.
Proof. rewrite shortlist_eq. apply StronglySorted_firstn, ordering_sorted. Qed.

Lemma fallback_sorted64 :
  StronglySorted (fun a b => (Binary64.Bot.distance a <=? Binary64.Bot.distance b)%float = true)
    (map Binary64.Bot.ofWithDistance (slice0 5 shortlist)).
Proof.
  apply StronglySorted_map
    with (R := fun a b => (Binary64.wd_distance a <=? Binary64.wd_distance b)%float = true).
  - intros x y H. exact H.
  - change (slice0 5 ?x) with (firstn 5 x). apply StronglySorted_firstn, shortlist_sorted.
Qed.

End BotRanking.

(** ** The refinement *)

Lemma withApiDistancesOf64_length routes closest10 :
  length (Binary64.Bot.withApiDistancesOf routes closest10) = length closest10.
Proof. apply mapi_length. Qed.

Lemma withApiDistancesOf64_In routes closest10 w :
  In w (Binary64.Bot.withApiDistancesOf routes closest10) ->
  exists idx c,
    nth_error closest10 idx = Some c /\
    Binary64.Bot.wa_atm w = Binary64.wd_atm c /\
    Binary64.Bot.apiDistance w =
      match Binary64.reported routes idx (str "distance") with
      | Some d => d
      | None => Binary64.JNumber (Binary64.wd_distance c)
      end /\
    Binary64.Bot.duration w =
      match Binary64.reported routes idx (str "time") with
      | Some t => t
      | None => Binary64.JNull
      end /\
    Binary64.Bot.haversineDistance w = Binary64.wd_distance c.
Proof.
  intros H. apply mapi_In in H. destruct H as (idx & c & Hc & ->).
  exists idx, c. cbv zeta.
  cbn [Binary64.Bot.wa_atm Binary64.Bot.apiDistance Binary64.Bot.duration
       Binary64.Bot.haversineDistance].
  rewrite !definedProp_reported. auto.
Qed.


Section Best5.

Variable E : Binary64.Engine.
Variable l : list Binary64.Bot.WithApiDistance.

Let sorted :=
  Binary64.Array_sort E
    (fun a b => (Binary64.Bot.numberOf E a - Binary64.Bot.numberOf E b)%float) l.

Lemma best5Of64_Some r :
  Binary64.Bot.best5Of E l = Some r -> Forall2 Binary64.returned (firstn 5 sorted) r.
Proof.
  unfold Binary64.Bot.best5Of.
  destruct (_ && _); [discriminate|].
  intros H. apply sequence_map_Forall2 in H.
  change (slice0 5 ?x) with (firstn 5 x) in H. fold sorted in H.
  eapply Forall2_impl; [|exact H].
  intros w x Hx. cbn beta in Hx.
  destruct (Binary64.Bot.apiDistance w) eqn:Ew; try discriminate.
  injection Hx as <-. unfold Binary64.returned. cbn. auto.
Qed.


Lemma best5Of64_length r :
  Binary64.Bot.best5Of E l = Some r -> length r = Nat.min 5 (length l).
Proof.
  intros H. apply best5Of64_Some in H.
  rewrite (Forall2_length_eq H), length_firstn.
  unfold sorted. now rewrite (Permutation_length (Binary64.Array_sort_permutes E _ l)).
Qed.



Hypothesis numbers_finite :
  forall w, In w l ->
    exists x, Binary64.ToNumber E (Binary64.Bot.apiDistance w) = Some x /\ is_finite x = true.

Lemma numberOf_finite w : In w l -> is_finite (Binary64.Bot.numberOf E w) = true.
Proof.
  intros Hw. unfold Binary64.Bot.numberOf.
  destruct (numbers_finite w Hw) as (x & -> & Hx). exact Hx.
Qed.

Lemma best5Of_sorted64 r :
  Binary64.Bot.best5Of E l = Some r ->
  StronglySorted (fun a b => (Binary64.Bot.distance a <=? Binary64.Bot.distance b)%float = true) r.
Proof.
  intros H. apply best5Of64_Some in H.
  eapply StronglySorted_Forall2 with
    (R := fun a b => (Binary64.Bot.numberOf E a <=? Binary64.Bot.numberOf E b)%float = true);
    [|exact H|].
  - intros a a' b b' (Ha & _) (Ha' & _) Hle.
    unfold Binary64.Bot.numberOf in Hle. rewrite Ha, Ha' in Hle. exact Hle.
  - apply StronglySorted_firstn.
    apply (Array_sort_ascending_sorted E (Binary64.Bot.numberOf E) l numberOf_finite).
Qed.


End Best5.

(** ** The ranking of src/unnamed/part_000 *)

Lemma truthyProp_memberAt routes pos key :
  Binary64.truthyProp (nth_error routes pos) key =
  match Binary64.memberAt routes pos key with
  | Some d => if Binary64.truthy d then Some d else None
  | None => None
  end.
Proof. unfold Binary64.truthyProp. now rewrite definedProp_memberAt. Qed.

Section Part000Ranking.

Variable E : Binary64.Engine.
Variable atms : list Binary64.ATM.

Lemma haversineRanking64_length refLat refLon K :
  (0 <= K)%Z ->
  length (Binary64.Part000.haversineRanking E atms refLat refLon K) =
  Nat.min (Z.to_nat K) (length atms).
Proof.
  intros HK. unfold Binary64.Part000.haversineRanking.
  rewrite slice0_length by assumption.
  now rewrite (Permutation_length (Binary64.Array_sort_permutes E _ _)), length_map.
Qed.

Lemma haversineRanking64_sorted refLat refLon K :
  (0 <= K)%Z ->
  Forall (fun atm =>
            is_finite (Binary64.calculateDistance E refLat refLon
                         (Binary64.lat atm) (Binary64.lon atm)) = true) atms ->
  StronglySorted
    (fun a b => (Binary64.Part000.distance a <=? Binary64.Part000.distance b)%float = true)
    (Binary64.Part000.haversineRanking E atms refLat refLon K).
Proof.
  intros HK Hfin. unfold Binary64.Part000.haversineRanking.
  rewrite slice0_firstn by assumption. apply StronglySorted_firstn.
  apply (Array_sort_ascending_sorted E Binary64.Part000.distance).
  intros r Hr. apply in_map_iff in Hr. destruct Hr as (atm & <- & Hatm).
  exact (proj1 (Forall_forall _ _) Hfin atm Hatm).
Qed.

Lemma apiRanking64_Some routes K result :
  Binary64.Part000.apiRanking E atms routes K = Some result ->
  exists withDistances,
    result = slice0 K (Binary64.Array_sort E
                         (fun a b => (Binary64.Part000.distance a
                                      - Binary64.Part000.distance b)%float)
                         withDistances) /\
    length withDistances = length atms /\
    forall r, In r withDistances ->
      exists idx atm, nth_error atms idx = Some atm /\ Binary64.routed E routes idx atm r.
Proof.
  unfold Binary64.Part000.apiRanking.
  destruct (sequence _) as [withDistances|] eqn:Es; [|discriminate].
  intros H. injection H as <-. exists withDistances. split; [reflexivity|].
  apply sequence_Forall2 in Es. split.
  - rewrite (Forall2_length_eq Es). apply mapi_length.
  - intros r Hr.
    destruct (@Forall2_In_r _ _ _ _ _ _ Es Hr) as (o & Ho & ->).
    apply mapi_In in Ho. destruct Ho as (idx & atm & Hatm & Ho).
    exists idx, atm. split; [exact Hatm|]. cbv zeta in Ho.
    destruct (Binary64.Part000.routeDistance E (nth_error routes idx)) as [d|] eqn:Ed;
      [|discriminate].
    injection Ho as ->. unfold Binary64.routed. cbn. auto.
Qed.

Lemma apiRanking64_length routes K result :
  (0 <= K)%Z ->
  Binary64.Part000.apiRanking E atms routes K = Some result ->
  length result = Nat.min (Z.to_nat K) (length atms).
Proof.
  intros HK H. apply apiRanking64_Some in H.
  destruct H as (wds & -> & Hlen & _).
  rewrite slice0_length by assumption.
  now rewrite (Permutation_length (Binary64.Array_sort_permutes E _ _)), Hlen.
Qed.

Lemma routeDistance_finite routes idx d :
  (forall route v, In route routes ->
     Binary64.getProp route (str "distance") = Some v -> Binary64.truthy v = true ->
     exists x, Binary64.ToNumber E v = Some x /\ is_finite (x / 1000)%float = true) ->
  Binary64.Part000.routeDistance E (nth_error routes idx) = Some d ->
  is_finite d = true.
Proof.
  intros Hfin. unfold Binary64.Part000.routeDistance.
  rewrite truthyProp_memberAt.
  destruct (Binary64.memberAt routes idx (str "distance")) as [v|] eqn:Ev.
  - destruct (Binary64.truthy v) eqn:Tv.
    + destruct (memberAt_In _ _ _ Ev) as (route & Hroute & Hv).
      destruct (Hfin route v Hroute Hv Tv) as (x & -> & Hx).
      intros H. injection H as <-. exact Hx.
    + intros H. injection H as <-. reflexivity.
  - intros H. injection H as <-. reflexivity.
Qed.

Lemma apiRanking64_sorted routes K result :
  (0 <= K)%Z ->
  (forall route v, In route routes ->
     Binary64.getProp route (str "distance") = Some v -> Binary64.truthy v = true ->
     exists x, Binary64.ToNumber E v = Some x /\ is_finite (x / 1000)%float = true) ->
  Binary64.Part000.apiRanking E atms routes K = Some result ->
  StronglySorted
    (fun a b => (Binary64.Part000.distance a <=? Binary64.Part000.distance b)%float = true)
    result.
Proof.
  intros HK Hfin H. apply apiRanking64_Some in H.
  destruct H as (wds & -> & _ & Hin).
  rewrite slice0_firstn by assumption. apply StronglySorted_firstn.
  apply (Array_sort_ascending_sorted E Binary64.Part000.distance).
  intros r Hr. destruct (Hin r Hr) as (idx & atm & _ & _ & Hd & _).
  eapply routeDistance_finite; eauto.
Qed.

End Part000Ranking.

Lemma Bot64_settle_length E atms userLat userLon response :
  length (Binary64.Bot.settle E (Binary64.Bot.closest10From E atms userLat userLon) response)
  = Nat.min 5 (length atms).
Proof.
  unfold Binary64.Bot.settle.
  destruct response as [|parsed]; [apply fallback_length|].
  destruct (Binary64.arrayProp parsed _) as [routes|]; [|apply fallback_length].
  destruct (Binary64.Bot.best5Of E _) as [best5|] eqn:Eb; [|apply fallback_length].
  rewrite (best5Of64_length _ _ Eb), withApiDistancesOf64_length, shortlist_length. lia.
Qed.

Lemma Bot64_settle_sorted E atms userLat userLon response :
  Forall (fun atm =>
            is_finite (Binary64.calculateDistance E userLat userLon
                         (Binary64.lat atm) (Binary64.lon atm)) = true) atms ->
  (forall parsed routes route d,
     response = Binary64.Bot.Resolved parsed ->
     Binary64.arrayProp parsed (str "origin_to_destination") = Some routes ->
     In route routes -> Binary64.getProp route (str "distance") = Some d ->
     exists x, Binary64.ToNumber E d = Some x /\ is_finite x = true) ->
  StronglySorted
    (fun a b => (Binary64.Bot.distance a <=? Binary64.Bot.distance b)%float = true)
    (Binary64.Bot.settle E (Binary64.Bot.closest10From E atms userLat userLon) response).
Proof.
  intros Hgeo Hrep. unfold Binary64.Bot.settle.
  destruct response as [|parsed]; [now apply fallback_sorted64|].
  destruct (Binary64.arrayProp parsed _) as [routes|] eqn:Er; [|now apply fallback_sorted64].
  destruct (Binary64.Bot.best5Of E _) as [best5|] eqn:Eb; [|now apply fallback_sorted64].
  eapply best5Of_sorted64; [|exact Eb].
  intros w Hw. apply withApiDistancesOf64_In in Hw.
  destruct Hw as (idx & c & Hc & _ & Hd & _). rewrite Hd.
  destruct (Binary64.reported routes idx (str "distance")) as [d|] eqn:Ed.
  - destruct (memberAt_In _ _ _ Ed) as (route & Hroute & Hroute_d).
    eapply Hrep; eauto.
  - eexists. split; [reflexivity|].
    eapply shortlist_finite; eauto. eapply nth_error_In; eauto.
Qed.

Lemma Part64_settle_length E atms userLat userLon K response :
  (0 <= K)%Z ->
  length (Binary64.Part000.settle E atms userLat userLon K response)
  = Nat.min (Z.to_nat K) (length atms).
Proof.
  intros HK. unfold Binary64.Part000.settle.
  destruct response as [|parsed]; [now apply haversineRanking64_length|].
  destruct (Binary64.arrayProp parsed _) as [routes|]; [|now apply haversineRanking64_length].
  destruct (Binary64.Part000.apiRanking E atms routes K) as [sorted|] eqn:Ea;
    [|now apply haversineRanking64_length].
  eapply apiRanking64_length; eauto.
Qed.

Lemma Part64_settle_sorted E atms userLat userLon K response :
  (0 <= K)%Z ->
  Forall (fun atm =>
            is_finite (Binary64.calculateDistance E userLat userLon
                         (Binary64.lat atm) (Binary64.lon atm)) = true) atms ->
  (forall parsed routes route d,
     response = Binary64.Part000.Resolved parsed ->
     Binary64.arrayProp parsed (str "routes") = Some routes ->
     In route routes -> Binary64.getProp route (str "distance") = Some d ->
     Binary64.truthy d = true ->
     exists x, Binary64.ToNumber E d = Some x /\ is_finite (x / 1000)%float = true) ->
  StronglySorted
    (fun a b => (Binary64.Part000.distance a <=? Binary64.Part000.distance b)%float = true)
    (Binary64.Part000.settle E atms userLat userLon K response).
Proof.
  intros HK Hgeo Hrep. unfold Binary64.Part000.settle.
  destruct response as [|parsed]; [now apply haversineRanking64_sorted|].
  destruct (Binary64.arrayProp parsed _) as [routes|] eqn:Er;
    [|now apply haversineRanking64_sorted].
  destruct (Binary64.Part000.apiRanking E atms routes K) as [sorted|] eqn:Ea;
    [|now apply haversineRanking64_sorted].
  eapply apiRanking64_sorted; eauto.
Qed.

(** C6. The ranking has exactly min(K, |catalog|) entries whatever the
    routing service answers: in src/bot.js, where K is 5, and in
    src/unnamed/part_000 for every limit K that is not negative (5 when
    the limit is left out).  The entries are in order of non-decreasing
    [distance] when the distances that are compared are finite numbers:
    the great-circle distance of every catalog entry and every distance
    the response reports. *)
Theorem getNearestATMs_length_sorted
    (E : Binary64.Engine) (atms : list Binary64.ATM) (userLat userLon : float) :
  let geodesicFinite :=
    Forall (fun atm =>
              is_finite (Binary64.calculateDistance E userLat userLon
                           (Binary64.lat atm) (Binary64.lon atm)) = true) atms in
  (forall service : Binary64.Bot.Request -> Binary64.Bot.Outcome,
     let result := run service (Binary64.Bot.getNearestATMs E atms userLat userLon) in
     length result = Nat.min 5 (length atms) /\
     (geodesicFinite ->
      (forall request parsed routes route d,
         service request = Binary64.Bot.Resolved parsed ->
         Binary64.arrayProp parsed (str "origin_to_destination") = Some routes ->
         In route routes -> Binary64.getProp route (str "distance") = Some d ->
         exists x, Binary64.ToNumber E d = Some x /\ is_finite x = true) ->
      StronglySorted
        (fun a b => (Binary64.Bot.distance a <=? Binary64.Bot.distance b)%float = true)
        result)) /\
  (forall (service : Binary64.Part000.Request -> Binary64.Part000.Outcome)
          (limit : option Z),
     (0 <= Binary64.Part000.orDefault limit)%Z ->
     let result :=
       run service (Binary64.Part000.getNearestATMs E atms userLat userLon limit) in
     length result = Nat.min (Z.to_nat (Binary64.Part000.orDefault limit)) (length atms) /\
     (geodesicFinite ->
      (forall request parsed routes route d,
         service request = Binary64.Part000.Resolved parsed ->
         Binary64.arrayProp parsed (str "routes") = Some routes ->
         In route routes -> Binary64.getProp route (str "distance") = Some d ->
         Binary64.truthy d = true ->
         exists x, Binary64.ToNumber E d = Some x /\ is_finite (x / 1000)%float = true) ->
      StronglySorted
        (fun a b =>
           (Binary64.Part000.distance a <=? Binary64.Part000.distance b)%float = true)
        result)).
Proof.
  intros geodesicFinite. split.
  - intros service result. unfold result, Binary64.Bot.getNearestATMs. cbn [run]. split.
    + apply Bot64_settle_length.
    + intros Hgeo Hrep. apply Bot64_settle_sorted; [exact Hgeo|].
      intros parsed routes route d Hresp. eapply Hrep. exact Hresp.
  - intros service limit HK result.
    unfold result, Binary64.Part000.getNearestATMs. cbn [run]. split.
    + now apply Part64_settle_length.
    + intros Hgeo Hrep. apply Part64_settle_sorted; [exact HK|exact Hgeo|].
      intros parsed routes route d Hresp. eapply Hrep. exact Hresp.
Qed.

Lemma is_nan_leb_l x y : is_nan x = true -> (x <=? y)%float = false.
Proof.
  unfold is_nan. rewrite FloatAxioms.eqb_spec, FloatAxioms.leb_spec.
  unfold SFeqb, SFleb.
  destruct (Prim2SF x) as [s|s| |s m e]; cbn [SFcompare]; try reflexivity.
  - discriminate.
  - destruct s; discriminate.
  - rewrite Z.compare_refl, Pos.compare_cont_refl. destruct s; discriminate.
Qed.

Lemma is_nan_leb_r x y : is_nan y = true -> (x <=? y)%float = false.
Proof.
  unfold is_nan. rewrite FloatAxioms.eqb_spec, FloatAxioms.leb_spec.
  unfold SFeqb, SFleb.
  destruct (Prim2SF y) as [s|s| |s m e]; cbn [SFcompare].
  - discriminate.
  - destruct s; discriminate.
  - destruct (Prim2SF x); reflexivity.
  - rewrite Z.compare_refl, Pos.compare_cont_refl. destruct s; discriminate.
Qed.

(** A list of two or more entries one of whose keys is NaN is in no
    order non-decreasing by key. *)
Lemma nan_never_sorted {A} (key : A -> float) (l : list A) x :
  (2 <= length l)%nat -> In x l -> is_nan (key x) = true ->
  ~ StronglySorted (fun a b => (key a <=? key b)%float = true) l.
Proof.
  intros Hlen Hx Hnan Hs.
  induction Hs as [|a l Hl IH Ha].
  - cbn in Hlen. lia.
  - rewrite Forall_forall in Ha. destruct Hx as [->|Hx].
    + destruct l as [|b l]; [cbn in Hlen; lia|].
      specialize (Ha b (or_introl eq_refl)).
      rewrite is_nan_leb_l in Ha by assumption. discriminate.
    + specialize (Ha x Hx). rewrite is_nan_leb_r in Ha by assumption. discriminate.
Qed.










(** A reported distance that is not a number is refused by [toFixed]:
    with [null] for the second candidate the whole refinement is
    discarded. *)
Example null_distance_discards_refinement :
  let catalog :=
    [ Binary64.mkATM (str "1") (str "Bank-Piasa") 7.06 38.47;
      Binary64.mkATM (str "2") (str "Bank-Atote") 7.06 38.47 ] in
  let routes :=
    [ Binary64.JObject [ (str "distance", Binary64.JNumber 0) ];
      Binary64.JObject [ (str "distance", Binary64.JNumber 1.2);
                         (str "time", Binary64.JNumber 95) ];
      Binary64.JObject [ (str "distance", Binary64.JNull);
                         (str "time", Binary64.JNumber 60) ] ]%float in
  let parsed := Binary64.JObject [ (str "origin_to_destination", Binary64.JArray routes) ] in
  run (fun _ => Binary64.Bot.Resolved parsed)
      (Binary64.Bot.getNearestATMs Binary64.referenceEngine catalog 7.06 38.47) =
  run (fun _ => Binary64.Bot.Rejected)
      (Binary64.Bot.getNearestATMs Binary64.referenceEngine catalog 7.06 38.47).
Proof. vm_compute. reflexivity. Qed.

(** A candidate with a reported time and no reported distance keeps its
    geodesic distance and gets the time. *)
Example time_without_distance :
  let catalog := [ Binary64.mkATM (str "1") (str "Bank-Piasa") 7.06 38.47 ] in
  let routes :=
    [ Binary64.JObject [ (str "distance", Binary64.JNumber 0) ];
      Binary64.JObject [ (str "time", Binary64.JNumber 95) ] ]%float in
  let parsed := Binary64.JObject [ (str "origin_to_destination", Binary64.JArray routes) ] in
  map (fun r => (Binary64.id (Binary64.Bot.r_atm r), Binary64.Bot.distance r,
                 Binary64.Bot.r_duration r))
      (run (fun _ => Binary64.Bot.Resolved parsed)
           (Binary64.Bot.getNearestATMs Binary64.referenceEngine catalog 7.06 38.47)) =
  [ (str "1", 0%float, Some (Binary64.JNumber 95)) ].
Proof. vm_compute. reflexivity. Qed.


Lemma getNearestATMs_length_sorted_witness :
  let catalog :=
    [ Binary64.mkATM (str "1") (str "Bank-Piasa") 7.06 38.47;
      Binary64.mkATM (str "2") (str "Bank-Atote") 7.06 38.47 ] in
  let result :=
    run (fun _ => Binary64.Part000.Rejected)
        (Binary64.Part000.getNearestATMs Binary64.referenceEngine catalog
           7.06 38.47 (Some 1%Z)) in
  (0 <= 1)%Z /\
  length result = 1%nat /\
  StronglySorted
    (fun a b => (Binary64.Part000.distance a <=? Binary64.Part000.distance b)%float = true)
    result.
Proof.
  intros catalog result.
  assert (HK : (0 <= Binary64.Part000.orDefault (Some 1))%Z) by (cbn; lia).
  destruct (proj2 (getNearestATMs_length_sorted Binary64.referenceEngine catalog 7.06 38.47)
              (fun _ => Binary64.Part000.Rejected) (Some 1%Z) HK) as [Hlen Hsorted].
  split; [lia|]. split; [exact Hlen|].
  apply Hsorted.
  - repeat constructor.
  - intros request parsed routes route d H. discriminate H.
Defined.

(** C6 as stated fails when a distance is NaN.  A catalog row whose
    latitude is not a numeral is loaded with a NaN latitude, its
    great-circle distance is NaN, every comparison with it gives NaN, and
    the entry stays between two others although it is not in order with
    either: the list returned is not sorted by [distance]. *)
Lemma getNearestATMs_nan_distance_unsorted :
  let catalog :=
    [ Binary64.mkATM (str "1") (str "Bank-Piasa") 7.06 38.47;
      Binary64.mkATM (str "2") (str "Bank-Atote") nan 38.48;
      Binary64.mkATM (str "3") (str "Bank-Pasa") 7.06 38.47 ] in
  let result :=
    run (fun _ => Binary64.Bot.Rejected)
        (Binary64.Bot.getNearestATMs Binary64.referenceEngine catalog 7.06 38.47) in
  map (fun r => (Binary64.id (Binary64.Bot.r_atm r), Binary64.Bot.distance r)) result =
    [ (str "1", 0%float); (str "2", nan); (str "3", 0%float) ] /\
  ~ StronglySorted
      (fun a b => (Binary64.Bot.distance a <=? Binary64.Bot.distance b)%float = true)
      result.
Proof.
  split.
  - vm_compute. reflexivity.
  - intros H. inversion H as [|a l Hl Ha]; subst.
    inversion Ha as [|b l' Hb _]; subst. vm_compute in Hb. discriminate Hb.
Qed.

(** Whatever order the engine chooses, a NaN distance leaves the geodesic
    ranking of a small catalog unsorted. *)
Lemma nan_distance_never_sorted
    (E : Binary64.Engine) (atms : list Binary64.ATM) (userLat userLon : float) atm :
  (2 <= length atms <= 5)%nat -> In atm atms ->
  is_nan (Binary64.calculateDistance E userLat userLon
            (Binary64.lat atm) (Binary64.lon atm)) = true ->
  ~ StronglySorted
      (fun a b => (Binary64.Bot.distance a <=? Binary64.Bot.distance b)%float = true)
      (run (fun _ => Binary64.Bot.Rejected)
           (Binary64.Bot.getNearestATMs E atms userLat userLon)).
Proof.
  intros Hlen Hatm Hnan.
  unfold Binary64.Bot.getNearestATMs. cbn [run Binary64.Bot.settle].
  rewrite fallback_eq.
  pose proof (ordering_length E atms userLat userLon) as Hol.
  rewrite firstn_all2 by lia.
  apply nan_never_sorted with
    (x := Binary64.Bot.ofWithDistance
            (Binary64.mkWithDistance atm
               (Binary64.calculateDistance E userLat userLon
                  (Binary64.lat atm) (Binary64.lon atm)))).
  - rewrite length_map. lia.
  - apply in_map. apply (Permutation_in _ (Permutation_sym (ordering_perm E atms userLat userLon))).
    apply in_map_iff. eauto.
  - exact Hnan.
Qed.

(** ** Ties in the geodesic ranking *)

(** X22. On the geodesic fallback, when the great-circle distances are
    finite numbers, ATMs at the same distance are returned in catalog
    order: the returned entries at a given distance are the first catalog
    entries at that distance, in the order of the catalog.  This holds in
    src/bot.js and, for every limit, in src/unnamed/part_000, whatever
    the sort of the engine. *)
Theorem fallback_ties_in_catalog_order
    (E : Binary64.Engine) (atms : list Binary64.ATM) (userLat userLon : float)
    (s : float) :
  let distanceOf atm :=
    Binary64.calculateDistance E userLat userLon (Binary64.lat atm) (Binary64.lon atm) in
  Forall (fun atm => is_finite (distanceOf atm) = true) atms ->
  let tied := filter (fun atm => (distanceOf atm =? s)%float) atms in
  (exists k,
     map Binary64.Bot.r_atm
         (filter (fun r => (Binary64.Bot.distance r =? s)%float)
                 (run (fun _ => Binary64.Bot.Rejected)
                      (Binary64.Bot.getNearestATMs E atms userLat userLon))) =
     firstn k tied) /\
  (forall limit, exists k,
     map Binary64.Part000.r_atm
         (filter (fun r => (Binary64.Part000.distance r =? s)%float)
                 (run (fun _ => Binary64.Part000.Rejected)
                      (Binary64.Part000.getNearestATMs E atms userLat userLon limit))) =
     firstn k tied).
Proof.
  intros distanceOf Hfin tied. split.
  - unfold Binary64.Bot.getNearestATMs. cbn [run Binary64.Bot.settle].
    rewrite filter_map_pred.
    change (fun x => (Binary64.Bot.distance (Binary64.Bot.ofWithDistance x) =? s)%float)
      with (fun c => (Binary64.wd_distance c =? s)%float).
    destruct (filter_slice0 (fun c => (Binary64.wd_distance c =? s)%float) 5
                (Binary64.Bot.closest10From E atms userLat userLon)) as [k1 Hk1].
    rewrite Hk1, shortlist_eq.
    destruct (filter_firstn (fun c => (Binary64.wd_distance c =? s)%float) 10
                (Binary64.geodesicOrdering E atms userLat userLon)) as [k2 Hk2].
    rewrite Hk2. unfold Binary64.geodesicOrdering.
    rewrite (Array_sort_ascending_ties E Binary64.wd_distance).
    + rewrite firstn_firstn, filter_map_pred.
      exists (Nat.min k1 k2).
      rewrite map_map, <- firstn_map, map_map.
      change (map (fun x => Binary64.Bot.r_atm
                              (Binary64.Bot.ofWithDistance (Binary64.mkWithDistance x _))) ?l)
        with (map (fun x : Binary64.ATM => x) l).
      now rewrite map_id.
    + intros c Hc. apply in_map_iff in Hc. destruct Hc as (atm & <- & Hatm).
      exact (proj1 (Forall_forall _ _) Hfin atm Hatm).
  - intros limit. unfold Binary64.Part000.getNearestATMs.
    cbn [run Binary64.Part000.settle]. unfold Binary64.Part000.haversineRanking.
    cbv zeta.
    match goal with
    | |- context [filter ?p (slice0 ?e ?l)] =>
        destruct (filter_slice0 p e l) as [k Hk]; rewrite Hk
    end.
    rewrite (Array_sort_ascending_ties E Binary64.Part000.distance).
    + rewrite filter_map_pred.
      exists k. rewrite <- firstn_map, map_map.
      change (map (fun x => Binary64.Part000.r_atm (Binary64.Part000.mkRanked x _ _)) ?l)
        with (map (fun x : Binary64.ATM => x) l).
      now rewrite map_id.
    + intros r Hr. apply in_map_iff in Hr. destruct Hr as (atm & <- & Hatm).
      exact (proj1 (Forall_forall _ _) Hfin atm Hatm).
Qed.

Lemma fallback_ties_in_catalog_order_witness :
  let catalog :=
    [ Binary64.mkATM (str "1") (str "Bank-Piasa") 7.06 38.47;
      Binary64.mkATM (str "2") (str "Bank-Atote") 7.06 38.47 ] in
  exists k,
    map Binary64.Bot.r_atm
        (filter (fun r => (Binary64.Bot.distance r =? 0)%float)
                (run (fun _ => Binary64.Bot.Rejected)
                     (Binary64.Bot.getNearestATMs Binary64.referenceEngine catalog
                        7.06 38.47))) =
    firstn k catalog.
Proof.
  intros catalog.
  apply (proj1 (@fallback_ties_in_catalog_order Binary64.referenceEngine catalog
                  7.06 38.47 0%float ltac:(repeat constructor))).
Defined.

Lemma routeDuration_memberAt routes idx :
  Binary64.Part000.routeDuration (nth_error routes idx) =
  match Binary64.memberAt routes idx (str "duration") with
  | Some t => if Binary64.truthy t then t else Binary64.JNull
  | None => Binary64.JNull
  end.
Proof.
  unfold Binary64.Part000.routeDuration. rewrite truthyProp_memberAt.
  destruct (Binary64.memberAt routes idx (str "duration")) as [t|]; [|reflexivity].
  destruct (Binary64.truthy t); reflexivity.
Qed.

(** X15. On the routed path of src/unnamed/part_000, when no conversion
    of a reported distance throws, every returned entry is the ATM at
    some index of the catalog with the distance made from the route at
    that same index of the response: the reported distance as a number,
    divided by 1000, when it is truthy; the sentinel 9999 when the route
    is missing or not an object, has no distance, or has a falsy one, 0
    in particular.  The duration is the reported one when truthy, [null]
    otherwise. *)
Theorem getNearestATMs_sentinel_distance
    (E : Binary64.Engine) (atms : list Binary64.ATM) (userLat userLon : float)
    (limit : option Z)
    (service : Binary64.Part000.Request -> Binary64.Part000.Outcome)
    (parsed : Binary64.Json) (routes : list Binary64.Json) :
  service (Binary64.Part000.gebetaOneToMany userLon userLat atms) =
    Binary64.Part000.Resolved parsed ->
  Binary64.arrayProp parsed (str "routes") = Some routes ->
  (forall idx d,
     Binary64.memberAt routes idx (str "distance") = Some d ->
     Binary64.truthy d = true -> Binary64.ToNumber E d <> None) ->
  Forall (fun r =>
            exists idx,
              nth_error atms idx = Some (Binary64.Part000.r_atm r) /\
              (forall d,
                 Binary64.memberAt routes idx (str "distance") = Some d ->
                 Binary64.truthy d = true ->
                 exists x, Binary64.ToNumber E d = Some x /\
                           Binary64.Part000.distance r = (x / 1000)%float) /\
              (forall d,
                 Binary64.memberAt routes idx (str "distance") = Some d ->
                 Binary64.truthy d = false ->
                 Binary64.Part000.distance r = 9999%float) /\
              (Binary64.memberAt routes idx (str "distance") = Some (Binary64.JNumber 0) ->
               Binary64.Part000.distance r = 9999%float) /\
              (Binary64.memberAt routes idx (str "distance") = None ->
               Binary64.Part000.distance r = 9999%float) /\
              Binary64.Part000.duration r =
                Some (match Binary64.memberAt routes idx (str "duration") with
                      | Some t => if Binary64.truthy t then t else Binary64.JNull
                      | None => Binary64.JNull
                      end))
         (run service (Binary64.Part000.getNearestATMs E atms userLat userLon limit)).
Proof.
  intros Hresp Harr Hconv.
  unfold Binary64.Part000.getNearestATMs. cbn [run]. rewrite Hresp.
  unfold Binary64.Part000.settle. rewrite Harr.
  set (K := Binary64.Part000.orDefault limit).
  assert (Hsome : exists sorted, Binary64.Part000.apiRanking E atms routes K = Some sorted).
  { unfold Binary64.Part000.apiRanking.
    match goal with
    | |- context [sequence ?l] => destruct (@sequence_total _ l) as [wds Hw]
    end.
    - intros o Ho. apply mapi_In in Ho. destruct Ho as (idx & atm & _ & ->). cbv zeta.
      unfold Binary64.Part000.routeDistance. rewrite truthyProp_memberAt.
      destruct (Binary64.memberAt routes idx (str "distance")) as [d|] eqn:Ed; [|discriminate].
      destruct (Binary64.truthy d) eqn:Td; [|discriminate].
      destruct (Binary64.ToNumber E d) eqn:En; [discriminate|].
      exfalso. eapply Hconv; eauto.
    - rewrite Hw. eauto. }
  destruct Hsome as [sorted Hs]. rewrite Hs.
  apply Forall_forall. intros r Hr.
  destruct (apiRanking64_Some _ _ _ _ Hs) as (wds & -> & _ & Hin).
  assert (Hr' : In r wds).
  { destruct (slice0_drawnFrom K
                (Binary64.Array_sort E
                   (fun a b => (Binary64.Part000.distance a - Binary64.Part000.distance b)%float)
                   wds)) as [rest Hperm].
    apply (Permutation_in _ (Binary64.Array_sort_permutes E
             (fun a b => (Binary64.Part000.distance a - Binary64.Part000.distance b)%float)
             wds)).
    apply (Permutation_in _ Hperm). apply in_or_app. now left. }
  destruct (Hin r Hr') as (idx & atm & Hatm & Hra & Hd & Hdur).
  exists idx. split; [congruence|].
  unfold Binary64.Part000.routeDistance in Hd. rewrite truthyProp_memberAt in Hd.
  rewrite routeDuration_memberAt in Hdur.
  split; [|split; [|split; [|split]]].
  - intros d Hm Ht. rewrite Hm, Ht in Hd.
    destruct (Binary64.ToNumber E d) as [x|]; [|discriminate].
    injection Hd as <-. eauto.
  - intros d Hm Ht. rewrite Hm, Ht in Hd. now injection Hd as <-.
  - intros Hm. rewrite Hm in Hd. cbn in Hd. now injection Hd as <-.
  - intros Hm. rewrite Hm in Hd. now injection Hd as <-.
  - exact Hdur.
Qed.

Lemma getNearestATMs_sentinel_distance_witness :
  let catalog :=
    [ Binary64.mkATM (str "1") (str "Bank-Piasa") 7.06 38.47;
      Binary64.mkATM (str "2") (str "Bank-Atote") 7.05 38.48 ] in
  let route distance duration :=
    Binary64.JObject [ (str "distance", Binary64.JNumber distance);
                       (str "duration", Binary64.JNumber duration) ] in
  let routes := [ route 0 0; route 1200 95 ]%float in
  let parsed := Binary64.JObject [ (str "routes", Binary64.JArray routes) ] in
  let result :=
    run (fun _ => Binary64.Part000.Resolved parsed)
        (Binary64.Part000.getNearestATMs Binary64.referenceEngine catalog 7.06 38.47 None) in
  map (fun r => (Binary64.id (Binary64.Part000.r_atm r), Binary64.Part000.distance r,
                 Binary64.Part000.duration r)) result =
    [ (str "2", 1.2%float, Some (Binary64.JNumber 95));
      (str "1", 9999%float, Some Binary64.JNull) ] /\
  Forall (fun r =>
            exists idx,
              nth_error catalog idx = Some (Binary64.Part000.r_atm r) /\
              (Binary64.memberAt routes idx (str "distance") = Some (Binary64.JNumber 0) ->
               Binary64.Part000.distance r = 9999%float))
         result.
Proof.
  intros catalog route routes parsed result. split; [vm_compute; reflexivity|].
  assert (Hconv : forall idx d,
            Binary64.memberAt routes idx (str "distance") = Some d ->
            Binary64.truthy d = true ->
            Binary64.ToNumber Binary64.referenceEngine d <> None).
  { intros [|[|idx]] d; cbn; intros H; try discriminate.
    - injection H as <-. discriminate.
    - injection H as <-. discriminate.
    - destruct idx; discriminate. }
  pose proof (@getNearestATMs_sentinel_distance Binary64.referenceEngine catalog
                7.06 38.47 None (fun _ => Binary64.Part000.Resolved parsed)
                parsed routes eq_refl eq_refl Hconv) as H.
  eapply Forall_impl; [|exact H].
  intros r (idx & Hatm & _ & _ & Hzero & _). exists idx. auto.
Defined.
